(** * KagoDB query cursor (cursor.js, find.js) and its caller in webapi.js:
    a shallow embedding

    The cursor engine is callback-driven JavaScript.  Every callback of
    the engine is invoked exactly once per request and strictly after the
    previous backend call has answered, so a request is modelled in direct
    style: a function from the state before the call to the arguments the
    callback receives and the state after.

    - JavaScript values are the inductive [value]; the tests the code makes
      on them ([if (err)], [if (!item)], [typeof x != 'function']) are
      [truthy] and the constructors of [jsarg].
    - Numbers are integers ([Z]), standing for the integers JavaScript
      holds exactly ([safe_integer], below 2^53 in absolute value);
      fractional numbers are outside the model, and so are numbers and
      counters that leave that range.
    - Every stage object owns its upstream stage, so a chain is a tree of
      [stage] constructors carrying the mutable fields of each object.
    - The arrays a [Cursor] caches and hands to its caller live in a heap
      of arrays addressed by location, so that aliasing between the cache
      and a returned array is visible.  The arrays private to one stage
      ([Source.list], [Sort.list], the buffer of [toArray]) are held by
      value.
    - The backing collection is a pure [collection] record; every call made
      to it is appended to a trace of [event]s.
    - The loops of the code (re-issuing [source.nextObject] from inside a
      callback) are recursions on a fuel counter; [OutOfFuel] means the
      fuel ran out.
    - A [throw] aborts the request: the model answers [Thrown] and says
      nothing about the state that is left behind. *)

From stdpp Require Import list strings.
From Stdlib Require Import ZArith Lia DecimalString Sorted.

Set Warnings "-register-all,-notation-incompatible-prefix".

Set Default Proof Using "Type".

(** ** JavaScript values *)

Inductive value : Type :=
| VUndefined
| VNull
| VBool (b : bool)
| VNum (n : Z)
| VStr (s : string)
| VObj (fields : list (string * value))
| VError (message : string).

(** [if (v)] *)
Definition truthy (v : value) : bool :=
  match v with
  | VUndefined | VNull => false
  | VBool b => b
  | VNum n => negb (n =? 0)%Z
  | VStr s => negb (String.eqb s "")
  | VObj _ | VError _ => true
  end.

(** An argument that is either plain data or a function ([typeof x ==
    'function']); functions cannot be stored inside [value]. *)
Inductive jsarg (F : Type) : Type :=
| Data (v : value)
| Func (f : F).
Arguments Data {F} v.
Arguments Func {F} f.

Definition truthy_arg {F} (a : jsarg F) : bool :=
  match a with
  | Data v => truthy v
  | Func _ => true
  end.

Definition predicate := value -> value.
Definition mapping := value -> value.
Definition comparator := value -> value -> Z.

(** [String(v)], as string concatenation applies it.  A number is printed
    with all its digits, as JavaScript prints the integers below 10^21 in
    absolute value. *)
Definition to_string (v : value) : string :=
  match v with
  | VUndefined => "undefined"
  | VNull => "null"
  | VBool true => "true"
  | VBool false => "false"
  | VNum n => NilZero.string_of_int (Z.to_int n)
  | VStr s => s
  | VObj _ => "[object Object]"
  | VError message => "Error: " ++ message
  end.

(** [new Error(prefix + x)] *)
Definition new_Error (prefix : string) (x : value) : value :=
  VError (prefix ++ to_string x).

(** The TypeError of [source.nextObject] and [source.rewind] when [source]
    is [undefined]. *)
Definition TypeError (property : string) : value :=
  VError ("Cannot read property '" ++ property ++ "' of undefined").

(** [obj[field]] on an item. *)
Fixpoint get_field (fields : list (string * value)) (field : string) : value :=
  match fields with
  | [] => VUndefined
  | (k, v) :: rest => if String.eqb k field then v else get_field rest field
  end.

Definition item_get (item : value) (field : string) : value :=
  match item with
  | VObj fields => get_field fields field
  | _ => VUndefined
  end.

(** ** The backing collection and the trace of calls made to it *)

(** The arguments [(err, item)] a callback is invoked with.  [callback()]
    is [(VUndefined, VUndefined)], [callback(err)] is [(err, VUndefined)]. *)
Definition cbargs : Type := value * value.

Definition EOF : cbargs := (VUndefined, VUndefined).

Record collection : Type := {
  (** [collection.index(cb)]: [cb(err, list)]; [None] is a missing list.
      Each call delivers a fresh array. *)
  collection_index : value * option (list value);
  (** [collection.read(id, cb)]: [cb(err, item)] *)
  collection_read : value -> cbargs;
}.

Inductive event : Type :=
| EvIndex
| EvRead (id : value).

Definition trace := list event.

(** ** The monad of requests: state passing, exceptions and fuel *)

Inductive result (A : Type) : Type :=
| OutOfFuel
| Thrown (error : value)
| Done (a : A).
Arguments OutOfFuel {A}.
Arguments Thrown {A} error.
Arguments Done {A} a.

Definition St (S A : Type) : Type := S -> result (A * S).

Definition ret {S A} (a : A) : St S A := fun s => Done (a, s).

Definition bind {S A B} (m : St S A) (k : A -> St S B) : St S B :=
  fun s => match m s with
           | OutOfFuel => OutOfFuel
           | Thrown e => Thrown e
           | Done (a, s') => k a s'
           end.

Definition out_of_fuel {S A} : St S A := fun _ => OutOfFuel.

Definition throw {S A} (e : value) : St S A := fun _ => Thrown e.

(** Stage requests pass the trace of backend calls. *)
Definition M : Type -> Type := St trace.

Declare Scope js_scope.
Delimit Scope js_scope with js.
Notation "x <- m ;; k" := (bind m (fun x => k))
  (at level 100, m at next level, right associativity) : js_scope.
Notation "' pat <- m ;; k" := (bind m (fun x => let 'pat := x in k))
  (at level 100, pat pattern, m at next level, right associativity) : js_scope.
Open Scope js_scope.

(** ** Array.prototype.sort *)

(** [insert_sorted cmp x l] puts [x] in front of the first element that
    the comparator does not order before it. *)
Fixpoint insert_sorted (cmp : comparator) (x : value) (l : list value) : list value :=
  match l with
  | [] => [x]
  | y :: l' => if (cmp x y <=? 0)%Z then x :: l else y :: insert_sorted cmp x l'
  end.

(** [list.sort(cmp)] as a stable sort (ECMAScript 2019): an element moves
    behind a later one only when the comparator orders the later one
    first.  ECMAScript fixes the result of [sort] only for a comparator
    that is [consistent] on the elements of the list, and this is the
    result it fixes; for any other comparator the order is left to the
    engine, and the properties below say nothing about it. *)
Definition js_sort (cmp : comparator) (l : list value) : list value :=
  foldr (fun x acc => insert_sorted cmp x acc) [] l.

(** [list.shift()] *)
Definition shift (l : list value) : value * list value :=
  match l with
  | [] => (VUndefined, [])
  | x :: l' => (x, l')
  end.

(** ** Stages *)

(** [Undefined] is the value [undefined] found where a stage is expected
    (a [source] property that was never set). *)
Inductive stage : Type :=
| Undefined
| Source (list : option (list value))
| Condition (source : stage) (condition : jsarg predicate)
| Sort (source : stage) (sorter : comparator) (list : option (list value))
| Offset (source : stage) (offset : Z) (ready : bool)
| Limit (source : stage) (limit : Z) (rest : Z)
| Projection (source : stage) (projection : jsarg mapping).

(** [!this.source] *)
Definition no_source (source : stage) : bool :=
  match source with
  | Undefined => true
  | _ => false
  end.

(** [X.prototype.rewind] for every stage [X]: Source, Sort, Offset and
    Limit have their own, Condition and Projection inherit
    Proto.prototype.rewind, which Offset and Limit call as well.  Every
    stage object has a [rewind], so the test [if (this.source.rewind)]
    succeeds on every stage object and throws on [undefined]. *)
Fixpoint rewind (s : stage) : result stage :=
  let Proto_rewind (source : stage) : result stage :=
    if no_source source then Thrown (VError "no source") else rewind source in
  match s with
  | Undefined => Thrown (TypeError "rewind")
  | Source _ => Done (Source None)
  | Condition source condition =>
      match Proto_rewind source with
      | Done source' => Done (Condition source' condition)
      | Thrown e => Thrown e
      | OutOfFuel => OutOfFuel
      end
  | Sort source sorter _ =>
      match rewind source with
      | Done source' => Done (Sort source' sorter None)
      | Thrown e => Thrown e
      | OutOfFuel => OutOfFuel
      end
  | Offset source offset _ =>
      match Proto_rewind source with
      | Done source' => Done (Offset source' offset false)
      | Thrown e => Thrown e
      | OutOfFuel => OutOfFuel
      end
  | Limit source limit _ =>
      match Proto_rewind source with
      | Done source' => Done (Limit source' limit limit)
      | Thrown e => Thrown e
      | OutOfFuel => OutOfFuel
      end
  | Projection source projection =>
      match Proto_rewind source with
      | Done source' => Done (Projection source' projection)
      | Thrown e => Thrown e
      | OutOfFuel => OutOfFuel
      end
  end.

Section Stages.

Variable coll : collection.

Definition call_index : M (value * option (list value)) :=
  fun t => Done (collection_index coll, t ++ [EvIndex]).

Definition call_read (id : value) : M cbargs :=
  fun t => Done (collection_read coll id, t ++ [EvRead id]).

(** What a stage request delivers: the callback arguments and the stage
    object after the request. *)
Definition pull : Type := stage -> M (cbargs * stage).

(** Source.prototype.nextObject once [this.list] is set. *)
Definition Source_serve (list : list value) : M (cbargs * stage) :=
  match list with
  | [] => ret (EOF, Source (Some []))
  | id :: list' =>
      r <- call_read id ;;
      ret (r, Source (Some list'))
  end.

(** Source.prototype.nextObject.  The call [self.nextObject(callback)]
    made after the keys arrived finds [this.list] set. *)
Definition Source_nextObject (list : option (list value)) : M (cbargs * stage) :=
  match list with
  | Some l => Source_serve l
  | None =>
      '(err, list) <- call_index ;;
      if truthy err then ret ((err, VUndefined), Source None)
      else Source_serve (default [] list)
  end.

(** The callback [next] of Condition.prototype.nextObject, entered by
    [source.nextObject(next)]; delivers the upstream stage as it is left. *)
Fixpoint Condition_next (fuel : nat) (up : pull) (condition : predicate)
    (source : stage) : M (cbargs * stage) :=
  match fuel with
  | O => out_of_fuel
  | S fuel' =>
      '((err, item), source') <- up source ;;
      if truthy err then ret ((err, VUndefined), source')
      else if negb (truthy item) then ret (EOF, source')
      else if truthy (condition item) then ret ((VNull, item), source')
      else Condition_next fuel' up condition source'
  end.

(** The callback [iterator] of Offset.prototype.nextObject, entered by
    [source.nextObject(iterator)] with [rest] still to discard; delivers
    the upstream stage and the new value of [this.ready]. *)
Fixpoint Offset_iterator (fuel : nat) (up : pull) (rest : Z)
    (source : stage) : M (cbargs * stage * bool) :=
  match fuel with
  | O => out_of_fuel
  | S fuel' =>
      '((err, item), source') <- up source ;;
      if truthy err then ret ((err, VUndefined), source', false)
      else if negb (truthy item) then ret (EOF, source', false)
      else if (rest - 1 >? 0)%Z then Offset_iterator fuel' up (rest - 1) source'
      else
        '(r, source'') <- up source' ;;
        ret (r, source'', true)
  end.

(** The callback [iterator] of the module function [toArray], entered by
    [source.nextObject(iterator)] with the buffer so far. *)
Fixpoint toArray_iterator (fuel : nat) (up : pull) (buf : list value)
    (source : stage) : M (value * option (list value) * stage) :=
  match fuel with
  | O => out_of_fuel
  | S fuel' =>
      '((err, item), source') <- up source ;;
      if truthy err then ret (err, None, source')
      else if negb (truthy item) then ret (VNull, Some buf, source')
      else toArray_iterator fuel' up (buf ++ [item]) source'
  end.

(** [X.prototype.nextObject] for every stage [X].  The counter of a Limit
    stage is decremented exactly, as [this.rest--] is on the integers
    JavaScript holds exactly. *)
Fixpoint nextObject (fuel : nat) (s : stage) : M (cbargs * stage) :=
  match fuel with
  | O => out_of_fuel
  | S fuel' =>
      match s with
      | Undefined => throw (TypeError "nextObject")
      | Source list => Source_nextObject list
      | Condition source condition =>
          match condition with
          | Data v =>
              ret ((new_Error "invalid condition: " v, VUndefined), s)
          | Func f =>
              '(r, source') <- Condition_next fuel' (nextObject fuel') f source ;;
              ret (r, Condition source' condition)
          end
      | Sort source sorter (Some list) =>
          let '(item, list') := shift list in
          ret ((VNull, item), Sort source sorter (Some list'))
      | Sort source sorter None =>
          '(err, list, source') <- toArray_iterator fuel' (nextObject fuel') [] source ;;
          if truthy err then ret ((err, VUndefined), Sort source' sorter None)
          else
            let '(item, list') := shift (js_sort sorter (default [] list)) in
            ret ((VNull, item), Sort source' sorter (Some list'))
      | Offset source offset ready =>
          if ready || (offset <=? 0)%Z then
            '(r, source') <- nextObject fuel' source ;;
            ret (r, Offset source' offset ready)
          else
            '(r, source', ready') <- Offset_iterator fuel' (nextObject fuel') offset source ;;
            ret (r, Offset source' offset ready')
      | Limit source limit rest =>
          if (rest >? 0)%Z then
            '(r, source') <- nextObject fuel' source ;;
            ret (r, Limit source' limit (rest - 1))
          else ret (EOF, Limit source limit (rest - 1))
      | Projection source projection =>
          match projection with
          | Data v =>
              ret ((new_Error "invalid projection: " v, VUndefined), s)
          | Func f =>
              '((err, item), source') <- nextObject fuel' source ;;
              let s' := Projection source' projection in
              if truthy err then ret ((err, VUndefined), s')
              else if negb (truthy item) then ret (EOF, s')
              else ret ((VNull, f item), s')
          end
      end
  end.

(** The module function [toArray(source, callback)]. *)
Definition toArray (fuel : nat) (source : stage) : M (value * option (list value) * stage) :=
  toArray_iterator fuel (nextObject fuel) [] source.

End Stages.

(** ** The heap of arrays and the monad of cursor requests *)

Definition loc := nat.

Record world : Type := {
  heap : list (list value);
  log : trace;
}.

Definition W : Type -> Type := St world.

Definition lift {A} (m : M A) : W A :=
  fun w => match m (log w) with
           | OutOfFuel => OutOfFuel
           | Thrown e => Thrown e
           | Done (a, t) => Done (a, {| heap := heap w; log := t |})
           end.

(** A new array object with the given elements. *)
Definition alloc (a : list value) : W loc :=
  fun w => Done (length (heap w), {| heap := heap w ++ [a]; log := log w |}).

(** The elements of the array [l]. *)
Definition array_elements (w : world) (l : loc) : list value :=
  default [] (heap w !! l).

Definition contents (l : loc) : W (list value) :=
  fun w => Done (array_elements w l, w).

(** [[].concat(x)]: a new array with the elements of the array [x], or
    with the single element [x] when [x] is [undefined]. *)
Definition concat_empty (x : option loc) : W loc :=
  match x with
  | Some l => a <- contents l ;; alloc a
  | None => alloc [VUndefined]
  end.

(** The holder of the array [l] mutates it in place ([push], [pop],
    [a[i] = x], [sort], ...): its elements become [a]. *)
Definition array_mutate (l : loc) (a : list value) (w : world) : world :=
  {| heap := <[l := a]> (heap w); log := log w |}.

(** ** Cursor *)

Record Cursor : Type := {
  (** [this.source], the head of the chain *)
  source : stage;
  _index : option loc;
  _toArray : option loc;
}.

Definition set_source (self : Cursor) (head : stage) : Cursor :=
  {| source := head; _index := _index self; _toArray := _toArray self |}.

(** [this.source === this._source].  [this._source] is the Source object
    the constructor made; no other Source object is ever made for the
    cursor, and every chaining method wraps the head, so the head is that
    object exactly when it is a Source. *)
Definition is_original_Source (head : stage) : bool :=
  match head with
  | Source _ => true
  | _ => false
  end.

Section Cursors.

Variable coll : collection.

(** The parsers of op/condition_op.js, op/projection_op.js and
    op/sort_op.js are parameters of the cursor.  The sorter is taken to be
    a comparator. *)
Variable ConditionOp_parser : jsarg predicate -> jsarg predicate.
Variable ProjectionOp_parser : jsarg mapping -> jsarg mapping.
Variable SortOp_parser : jsarg comparator -> comparator.

(** [new Cursor(collection, condition, projection)] *)
Definition Cursor_new (condition : jsarg predicate) (projection : jsarg mapping) : Cursor :=
  let source := Source None in
  let source :=
    if truthy_arg condition then
      let condition := ConditionOp_parser condition in
      if truthy_arg condition then Condition source condition else source
    else source in
  let source :=
    if truthy_arg projection then
      let projection := ProjectionOp_parser projection in
      if truthy_arg projection then Projection source projection else source
    else source in
  {| source := source; _index := None; _toArray := None |}.

(** find.js, [find(condition, projection)] *)
Definition find (condition : jsarg predicate) (projection : jsarg mapping) : Cursor :=
  Cursor_new condition projection.

(** Proto.prototype.nextObject, which Cursor inherits. *)
Definition Cursor_nextObject (fuel : nat) (self : Cursor) : W (cbargs * Cursor) :=
  if no_source (source self) then throw (VError "no source")
  else
    '(r, head) <- lift (nextObject coll fuel (source self)) ;;
    ret (r, set_source self head).

(** Proto.prototype.rewind, which Cursor inherits. *)
Definition Cursor_rewind (self : Cursor) : result Cursor :=
  if no_source (source self) then Thrown (VError "no source")
  else
    match rewind (source self) with
    | Done head => Done (set_source self head)
    | Thrown e => Thrown e
    | OutOfFuel => OutOfFuel
    end.

(** Cursor.prototype.index.  The array the backend delivers enters the
    heap when the cursor keeps it ([self._index = list]); a missing list
    is kept as [undefined], and [[].concat(undefined)] is [[undefined]]. *)
Definition Cursor_index (self : Cursor) : W (value * option loc * Cursor) :=
  match _index self with
  | Some _ =>
      list <- concat_empty (_index self) ;;
      ret (VNull, Some list, self)
  | None =>
      '(err, list) <- lift (call_index coll) ;;
      if truthy err then ret (err, None, self)
      else
        stored <- match list with
                  | Some a => l <- alloc a ;; ret (Some l)
                  | None => ret None
                  end ;;
        list <- concat_empty stored ;;
        ret (VNull, Some list,
             {| source := source self; _index := stored; _toArray := _toArray self |})
  end.

(** Cursor.prototype.toArray.  The buffer of the module function
    [toArray] enters the heap when the cursor keeps it
    ([self._toArray = list]). *)
Definition Cursor_toArray (fuel : nat) (self : Cursor) : W (value * option loc * Cursor) :=
  match _toArray self with
  | Some _ =>
      list <- concat_empty (_toArray self) ;;
      ret (VNull, Some list, self)
  | None =>
      '(err, list, head) <- lift (toArray coll fuel (source self)) ;;
      if truthy err then ret (err, None, set_source self head)
      else
        stored <- match list with
                  | Some a => l <- alloc a ;; ret (Some l)
                  | None => ret None
                  end ;;
        list <- concat_empty stored ;;
        ret (VNull, Some list,
             {| source := head; _index := _index self; _toArray := stored |})
  end.

(** Cursor.prototype.count: [getlist] is [this.index] while the head of
    the chain is the original Source, [this.toArray] otherwise. *)
Definition Cursor_count (fuel : nat) (self : Cursor) : W (cbargs * Cursor) :=
  '(err, list, self') <-
    (if is_original_Source (source self) then Cursor_index self
     else Cursor_toArray fuel self) ;;
  if truthy err then ret ((err, VUndefined), self')
  else
    match list with
    | Some l =>
        a <- contents l ;;
        ret ((VNull, VNum (Z.of_nat (length a))), self')
    | None => throw (TypeError "length")
    end.

(** Cursor.prototype.sort, offset, limit *)
Definition Cursor_sort (order : jsarg comparator) (self : Cursor) : Cursor :=
  set_source self (Sort (source self) (SortOp_parser order) None).

Definition Cursor_offset (offset : Z) (self : Cursor) : Cursor :=
  set_source self (Offset (source self) offset false).

Definition Cursor_limit (limit : Z) (self : Cursor) : Cursor :=
  set_source self (Limit (source self) limit limit).

(** find.js, [count(condition, callback)] *)
Definition count (fuel : nat) (condition : jsarg predicate) : W cbargs :=
  '(r, _) <- Cursor_count fuel (find condition (Data VUndefined)) ;;
  ret r.

End Cursors.

(** ** The query-spec parsers and a storage backend *)

(** Modelled from the spec: the exact-value equality of an equality map,
    [a === b] on primitive values.  Objects are equal only to themselves
    as references, which a value does not record: never equal here. *)
Definition strict_equal (a b : value) : bool :=
  match a, b with
  | VUndefined, VUndefined => true
  | VNull, VNull => true
  | VBool x, VBool y => Bool.eqb x y
  | VNum x, VNum y => (x =? y)%Z
  | VStr x, VStr y => String.eqb x y
  | _, _ => false
  end.

(** Modelled from the spec: the values an equality map supports; a
    nested structure is not one. *)
Definition is_primitive (v : value) : bool :=
  match v with
  | VObj _ | VError _ => false
  | _ => true
  end.

(** The number a comparator answers with: negative, zero or positive. *)
Definition Z_of_comparison (c : comparison) : Z :=
  match c with
  | Lt => (-1)%Z
  | Eq => 0%Z
  | Gt => 1%Z
  end.

(** Modelled from the spec: the natural ordering of a sort object,
    numeric for numbers, lexicographic for strings; the spec orders no
    other pairs of values, they compare as ties. *)
Definition natural_compare (a b : value) : Z :=
  match a, b with
  | VNum x, VNum y => Z_of_comparison (x ?= y)%Z
  | VStr x, VStr y => Z_of_comparison (String.compare x y)
  | _, _ => 0%Z
  end.

(** Modelled from the spec: the directions of a sort object.  [1] keeps
    the result of a comparison, [-1] reverses it; anything else is no
    direction and orders nothing. *)
Definition directed (direction : value) (c : Z) : Z :=
  match direction with
  | VNum 1 => c
  | VNum (-1) => (- c)%Z
  | _ => 0%Z
  end.

(** Modelled from the spec: the comparison on one field of a sort
    object. *)
Definition compare_field (fd : string * value) (a b : value) : Z :=
  directed (snd fd) (natural_compare (item_get a (fst fd)) (item_get b (fst fd))).

(** Modelled from the spec: the comparator of a sort object, which
    [SortOp.parser] (op/sort_op.js, not among the sources) makes: the
    fields in declared order, a later field consulted only on a tie of the
    earlier ones. *)
Fixpoint compare_fields (order : list (string * value)) (a b : value) : Z :=
  match order with
  | [] => 0%Z
  | fd :: order' =>
      let c := compare_field fd a b in
      if (c =? 0)%Z then compare_fields order' a b else c
  end.

(** The parsers and a storage backend, none of which is among the sources. *)
Module Modelled.

(** Modelled from the spec: [ConditionOp.parser] of op/condition_op.js,
    which is not among the sources.  A function is its own predicate; a
    condition object is an equality map, all fields of which must match; an
    argument that is neither, or an equality map with a nested structure
    for a value, cannot be normalized and is handed back, not callable. *)
Definition ConditionOp_parser (condition : jsarg predicate) : jsarg predicate :=
  match condition with
  | Func f => Func f
  | Data (VObj fields) =>
      if forallb (fun kv => is_primitive (snd kv)) fields then
        Func (fun item =>
                VBool (forallb (fun kv => strict_equal (item_get item (fst kv)) (snd kv))
                               fields))
      else condition
  | Data _ => condition
  end.

(** Modelled from the spec: [ProjectionOp.parser] of op/projection_op.js,
    which is not among the sources.  A function is its own mapping; a
    projection object is a whitelist, its mapping copies the retained
    fields into a new item; any other argument is handed back, not
    callable. *)
Definition ProjectionOp_parser (projection : jsarg mapping) : jsarg mapping :=
  match projection with
  | Func f => Func f
  | Data (VObj fields) =>
      Func (fun item =>
              match item with
              | VObj item_fields =>
                  VObj (filter (fun kv => Is_true (truthy (get_field fields (fst kv))))
                               item_fields)
              | _ => VObj []
              end)
  | Data _ => projection
  end.

(** Modelled from the spec: [SortOp.parser] of op/sort_op.js, which is not
    among the sources.  A function is its own comparator; a sort object
    maps fields to directions and compares by [compare_fields]; any other
    argument orders nothing. *)
Definition SortOp_parser (order : jsarg comparator) : comparator :=
  match order with
  | Func f => f
  | Data (VObj fields) => compare_fields fields
  | Data _ => fun _ _ => 0%Z
  end.

(** Modelled from the spec: a storage backend (the storage mixins are not
    among the sources) holding the items of [store] under their ids:
    [index] lists the ids, [read] fails with a not-found error for an id
    that is absent. *)
Definition memory_storage (store : list (string * value)) : collection :=
  {| collection_index := (VNull, Some (map (fun kv => VStr (fst kv)) store));
     collection_read := fun id =>
       match id with
       | VStr k =>
           match List.find (fun kv => String.eqb (fst kv) k) store with
           | Some kv => (VNull, snd kv)
           | None => (VError ("not found: " ++ k), VUndefined)
           end
       | _ => (VError "not found", VUndefined)
       end |}.

End Modelled.

(** ** Callers, and the vocabulary of the properties *)

(** The collection keeps [items] under [ids]: [index] delivers the ids and
    no error, and reading each id delivers its item and no error.  Items
    are objects, hence truthy. *)
Definition holds (coll : collection) (ids items : list value) : Prop :=
  truthy (fst (collection_index coll)) = false /\
  snd (collection_index coll) = Some ids /\
  Forall2 (fun id item =>
             truthy (fst (collection_read coll id)) = false /\
             snd (collection_read coll id) = item /\
             truthy item = true) ids items.

(** How a sequence of requests ends: with the end of the sequence, or with
    an error. *)
Inductive ending : Type :=
| Ends
| Fails (err : value).

(** [streams up s t xs e s' t']: starting from the stage [s] and the trace
    [t], successive requests [up] deliver the items [xs] one by one and
    then end as [e]; the request that ends the sequence leaves [s'] and
    [t']. *)
Inductive streams (up : pull) : stage -> trace -> list value -> ending -> stage -> trace -> Prop :=
| streams_end s t err item s' t' :
    up s t = Done ((err, item), s', t') ->
    truthy err = false -> truthy item = false ->
    streams up s t [] Ends s' t'
| streams_fail s t err item s' t' :
    up s t = Done ((err, item), s', t') ->
    truthy err = true ->
    streams up s t [] (Fails err) s' t'
| streams_item s t err item s1 t1 xs e s' t' :
    up s t = Done ((err, item), s1, t1) ->
    truthy err = false -> truthy item = true ->
    streams up s1 t1 xs e s' t' ->
    streams up s t (item :: xs) e s' t'.

(** The answer signals the end of the sequence: no error and no item. *)
Definition is_EOS (r : cbargs) : Prop :=
  truthy (fst r) = false /\ truthy (snd r) = false.

(** The answer delivers an item. *)
Definition delivers_item (r : cbargs) : bool :=
  negb (truthy (fst r)) && truthy (snd r).

(** How many of the answers deliver an item. *)
Definition served (rs : list cbargs) : nat :=
  length (List.filter delivers_item rs).


(** No [undefined] stands where the chain expects a stage. *)
Fixpoint defined (s : stage) : bool :=
  match s with
  | Undefined => false
  | Source _ => true
  | Condition source _ | Sort source _ _ | Offset source _ _
  | Limit source _ _ | Projection source _ => defined source
  end.

(** The request did not throw, and the stage it leaves is [defined]. *)
Definition never_thrown {A} (stage_of : A -> stage) (r : result (A * trace)) : Prop :=
  match r with
  | Thrown _ => False
  | OutOfFuel => True
  | Done (a, _) => defined (stage_of a) = true
  end.

Definition safe_pull (up : pull) : Prop :=
  forall s t, defined s = true -> never_thrown snd (up s t).

(** How many stages stand between a stage and its Source. *)
Fixpoint depth (s : stage) : nat :=
  match s with
  | Undefined | Source _ => 0
  | Condition source _ | Sort source _ _ | Offset source _ _
  | Limit source _ _ | Projection source _ => S (depth source)
  end.

(** A bound on the number of items a stage can still deliver: the keys a
    Source has left (all keys of the collection before it fetched them),
    the items a Sort stage has left in its buffer. *)
Fixpoint budget (coll : collection) (s : stage) : nat :=
  match s with
  | Undefined => 0
  | Source (Some l) => length l
  | Source None => length (default [] (snd (collection_index coll)))
  | Sort _ _ (Some l) => length l
  | Condition source _ | Sort source _ None | Offset source _ _
  | Limit source _ _ | Projection source _ => budget coll source
  end.

(** The request [up s t] is answered; the stage it leaves is of the same
    shape and can deliver no more than before, and fewer when the answer
    is an item. *)
Definition answered (coll : collection) (up : pull) (s : stage) (t : trace) : Prop :=
  exists r s' t',
    up s t = Done (r, s', t') /\
    defined s' = true /\ depth s' = depth s /\
    budget coll s' <= budget coll s /\
    (delivers_item r = true -> budget coll s' < budget coll s).

(** [up] answers every request to a stage of depth [d] that can deliver
    at most [b] items. *)
Definition productive (coll : collection) (up : pull) (d b : nat) : Prop :=
  forall s t,
    defined s = true -> depth s = d -> budget coll s <= b -> answered coll up s t.

(** The cached arrays of a cursor exist in the heap. *)
Definition cursor_wf (self : Cursor) (w : world) : Prop :=
  (forall l, _index self = Some l -> l < length (heap w)) /\
  (forall l, _toArray self = Some l -> l < length (heap w)).

(** The kinds of field values the natural ordering compares. *)
Inductive kind : Type := KNum | KStr.

Definition has_kind (k : kind) (v : value) : bool :=
  match k, v with
  | KNum, VNum _ => true
  | KStr, VStr _ => true
  | _, _ => false
  end.

(** Each field of the sort object holds, in [item], a value of the kind
    [kinds] gives for the field. *)
Definition conforms (kinds : string -> kind) (order : list (string * value))
    (item : value) : bool :=
  forallb (fun fd => has_kind (kinds (fst fd)) (item_get item (fst fd))) order.

(** [a] may stand before [b] in the order of the sort object. *)
Definition ordered_by (order : list (string * value)) (a b : value) : Prop :=
  (compare_fields order a b <= 0)%Z.

(** The field [fd] of the sort object holds, in [item], a value of the
    kind [kinds] gives for it. *)
Definition field_conforms (kinds : string -> kind) (fd : string * value)
    (item : value) : Prop :=
  has_kind (kinds (fst fd)) (item_get item (fst fd)) = true.

(** [w'] has the arrays of [w], unchanged, and possibly new ones. *)
Definition extends (w w' : world) : Prop :=
  exists h', heap w' = heap w ++ h'.

(** A memo, once set, is the same after the call. *)
Definition keeps_memos (self self' : Cursor) : Prop :=
  (forall lc, _toArray self = Some lc -> _toArray self' = Some lc) /\
  (forall lc, _index self = Some lc -> _index self' = Some lc).

Section Callers.

Variable coll : collection.
Variable SortOp_parser : jsarg comparator -> comparator.

(** A caller that issues [n] requests to a stage, each after the previous
    one was answered, and collects the answers. *)
Fixpoint nextObjects (fuel n : nat) (s : stage) : M (list cbargs * stage) :=
  match n with
  | O => ret ([], s)
  | S n' =>
      '(r, s') <- nextObject coll fuel s ;;
      '(rs, s'') <- nextObjects fuel n' s' ;;
      ret (r :: rs, s'')
  end.

(** The same caller, on a cursor. *)
Fixpoint Cursor_nextObjects (fuel n : nat) (self : Cursor) : W (list cbargs * Cursor) :=
  match n with
  | O => ret ([], self)
  | S n' =>
      '(r, self') <- Cursor_nextObject coll fuel self ;;
      '(rs, self'') <- Cursor_nextObjects fuel n' self' ;;
      ret (r :: rs, self'')
  end.

(** The methods of a cursor. *)
Inductive method : Type :=
| MNextObject
| MRewind
| MIndex
| MToArray
| MCount
| MSort (order : jsarg comparator)
| MOffset (offset : Z)
| MLimit (limit : Z).

(** The methods that restructure or reset the chain. *)
Definition restructures (m : method) : bool :=
  match m with
  | MRewind | MSort _ | MOffset _ | MLimit _ => true
  | _ => false
  end.

(** A caller that invokes one method of a cursor and drops what the
    callback receives. *)
Definition call (fuel : nat) (m : method) (self : Cursor) : W Cursor :=
  match m with
  | MNextObject => '(_, self') <- Cursor_nextObject coll fuel self ;; ret self'
  | MRewind =>
      fun w => match Cursor_rewind self with
               | Done self' => Done (self', w)
               | Thrown e => Thrown e
               | OutOfFuel => OutOfFuel
               end
  | MIndex => '(_, self') <- Cursor_index coll self ;; ret self'
  | MToArray => '(_, self') <- Cursor_toArray coll fuel self ;; ret self'
  | MCount => '(_, self') <- Cursor_count coll fuel self ;; ret self'
  | MSort order => ret (Cursor_sort SortOp_parser order self)
  | MOffset offset => ret (Cursor_offset offset self)
  | MLimit limit => ret (Cursor_limit limit self)
  end.

(** A caller that invokes the methods [ms] one after the other. *)
Fixpoint calls (fuel : nat) (ms : list method) (self : Cursor) : W Cursor :=
  match ms with
  | [] => ret self
  | m :: ms' =>
      self' <- call fuel m self ;;
      calls fuel ms' self'
  end.

End Callers.

(** An absent argument. *)
Definition absent {F} : jsarg F := Data VUndefined.

(** ** More of cursor.js and find.js, and their callers in webapi.js *)

(** The parameters WebapiMethods.prototype.find and count read from
    [params].  [limit] and [offset] are numbers (as a JSON body has them)
    or absent. *)
Record find_params : Type := {
  params_condition : jsarg predicate;
  params_projection : jsarg mapping;
  params_limit : option Z;
  params_offset : option Z;
  params_sort : jsarg comparator;
}.

(** [if (params.limit) cursor.limit(params.limit)]: the cursor is wrapped
    when the number is there and is not zero. *)
Definition when_given (n : option Z) (wrap : Z -> Cursor -> Cursor) (cursor : Cursor)
    : Cursor :=
  match n with
  | Some n => if (n =? 0)%Z then cursor else wrap n cursor
  | None => cursor
  end.

(** What a WebapiMethods method hands to [next]: a status code, or the
    object [{data: list}] or [{count: count}]. *)
Inductive response : Type :=
| SendStatus (code : Z)
| SendData (data : loc)
| SendCount (count : value).

Section Terminals.

Variable coll : collection.
Variable ConditionOp_parser : jsarg predicate -> jsarg predicate.
Variable ProjectionOp_parser : jsarg mapping -> jsarg mapping.
Variable SortOp_parser : jsarg comparator -> comparator.

(** The callback [iterator] of Cursor.prototype.each, entered by
    [this.nextObject(iterator)]: it hands the arguments to the caller's
    callback and asks again while there is no error and there is an item.
    Delivers the arguments the caller's callback received, in order. *)
Fixpoint each_iterator (fuel : nat) (up : Cursor -> W (cbargs * Cursor))
    (self : Cursor) : W (list cbargs * Cursor) :=
  match fuel with
  | O => out_of_fuel
  | S fuel' =>
      '((err, item), self') <- up self ;;
      if negb (truthy err) && truthy item then
        '(rs, self'') <- each_iterator fuel' up self' ;;
        ret ((err, item) :: rs, self'')
      else ret ([(err, item)], self')
  end.

(** Cursor.prototype.each *)
Definition Cursor_each (fuel : nat) (self : Cursor) : W (list cbargs * Cursor) :=
  each_iterator fuel (Cursor_nextObject coll fuel) self.

(** find.js, [findOne(condition, callback)] *)
Definition findOne (fuel : nat) (condition : jsarg predicate) : W cbargs :=
  '(err, list, _) <-
    Cursor_toArray coll fuel
      (Cursor_limit 1 (find ConditionOp_parser ProjectionOp_parser condition absent)) ;;
  if truthy err then ret (err, VUndefined)
  else
    match list with
    | Some l =>
        a <- contents l ;;
        match a with
        | item :: _ => ret (VNull, item)
        | [] => ret EOF
        end
    | None => ret EOF
    end.

(** webapi.js, WebapiMethods.prototype.find: the cursor is wrapped by
    [limit], then [offset], then [sort]. *)
Definition WebapiMethods_find (fuel : nat) (params : find_params) : W response :=
  let cursor :=
    find ConditionOp_parser ProjectionOp_parser
         (params_condition params) (params_projection params) in
  let cursor := when_given (params_limit params) Cursor_limit cursor in
  let cursor := when_given (params_offset params) Cursor_offset cursor in
  let cursor :=
    if truthy_arg (params_sort params)
    then Cursor_sort SortOp_parser (params_sort params) cursor
    else cursor in
  '(err, list, _) <- Cursor_toArray coll fuel cursor ;;
  if truthy err then ret (SendStatus 500)
  else
    match list with
    | Some l => ret (SendData l)
    | None => throw (TypeError "length")
    end.

(** webapi.js, WebapiMethods.prototype.count *)
Definition WebapiMethods_count (fuel : nat) (params : find_params) : W response :=
  '(err, n) <- count coll ConditionOp_parser ProjectionOp_parser fuel
                     (params_condition params) ;;
  if truthy err then ret (SendStatus 500) else ret (SendCount n).

End Terminals.

(** [delivers up s t xs s' t']: starting from the stage [s] and the trace
    [t], [up] answers as many requests as [xs] has items, each with the
    next item of [xs], and leaves [s'] and [t']. *)
Inductive delivers (up : pull) : stage -> trace -> list value -> stage -> trace -> Prop :=
| delivers_nil s t : delivers up s t [] s t
| delivers_cons s t err item s1 t1 xs s' t' :
    up s t = Done ((err, item), s1, t1) ->
    truthy err = false -> truthy item = true ->
    delivers up s1 t1 xs s' t' ->
    delivers up s t (item :: xs) s' t'.

(** Reading each of [ids] delivers the matching one of [items]. *)
Definition reads (coll : collection) (ids items : list value) : Prop :=
  Forall2 (fun id item =>
             truthy (fst (collection_read coll id)) = false /\
             snd (collection_read coll id) = item /\
             truthy item = true) ids items.

(** The head of the chain is of the same kind of stage. *)
Definition same_kind (s s' : stage) : Prop :=
  no_source s' = no_source s /\ is_original_Source s' = is_original_Source s.

(** The integers JavaScript holds exactly (Number.isSafeInteger): on them
    [rest--] is exact and [String] prints every digit. *)
Definition safe_integer (n : Z) : Prop := (- 2 ^ 53 < n < 2 ^ 53)%Z.


(** [cmp] is a consistent comparison function for the elements of [l], as
    ECMAScript asks of the argument of Array.prototype.sort: [a = a];
    [a = b] implies [b = a]; and [=], [<] and [>] are transitive, where
    [a < b], [a = b], [a > b] stand for [cmp a b] negative, zero,
    positive. *)
Definition consistent (cmp : comparator) (l : list value) : Prop :=
  forall a b c, In a l -> In b l -> In c l ->
    cmp a a = 0%Z /\
    (cmp a b = 0 -> cmp b a = 0)%Z /\
    (cmp a b = 0 -> cmp b c = 0 -> cmp a c = 0)%Z /\
    (cmp a b < 0 -> cmp b c < 0 -> cmp a c < 0)%Z /\
    (cmp a b > 0 -> cmp b c > 0 -> cmp a c > 0)%Z.

(** The natural ordering of field values in the words of the
    specification, numeric for numbers and lexicographic for strings,
    strict and not strict. *)
Definition value_lt (u v : value) : Prop :=
  match u, v with
  | VNum x, VNum y => (x < y)%Z
  | VStr x, VStr y => String.compare x y = Lt
  | _, _ => False
  end.

Definition value_le (u v : value) : Prop :=
  match u, v with
  | VNum x, VNum y => (x <= y)%Z
  | VStr x, VStr y => String.compare x y <> Gt
  | _, _ => False
  end.

(** Every direction of the sort object is [1] or [-1]. *)
Definition directions (order : list (string * value)) : Prop :=
  Forall (fun fd => snd fd = VNum 1 \/ snd fd = VNum (-1)) order.

(** [a] may stand before [b] in the order a sort object asks for, in the
    words of the specification: on the first field, [a] has the smaller
    value when the direction is ascending, the greater when it is
    descending; or the two have the same value there and the remaining
    fields decide. *)
Fixpoint precedes (order : list (string * value)) (a b : value) : Prop :=
  match order with
  | [] => True
  | (field, direction) :: order' =>
      match direction with
      | VNum 1 => value_lt (item_get a field) (item_get b field)
      | VNum (-1) => value_lt (item_get b field) (item_get a field)
      | _ => False
      end \/
      (item_get a field = item_get b field /\ precedes order' a b)
  end.



(** ** The collection of the example scenario *)

Definition example_item (s : string) (decimal : Z) : value :=
  VObj [("string", VStr s); ("decimal", VNum decimal)].

Definition example_store : list (string * value) :=
  [("foo", example_item "FOO" 123); ("bar", example_item "BAR" 111);
   ("baz", example_item "BAZ" 999); ("qux", example_item "QUX" 123)].

Definition example_ids : list value := map (fun kv => VStr (fst kv)) example_store.
Definition example_items : list value := map snd example_store.

Definition example_collection : collection := Modelled.memory_storage example_store.

Definition empty_world : world := {| heap := []; log := [] |}.

Definition example_find : jsarg predicate -> jsarg mapping -> Cursor :=
  find Modelled.ConditionOp_parser Modelled.ProjectionOp_parser.

(** The cursor [find()] and the world after its first [toArray]. *)
Definition example_cursor_after : Cursor :=
  {| source := Source (Some []); _index := None; _toArray := Some 0 |}.

Definition example_world_after : world :=
  {| heap := [example_items; example_items];
     log := EvIndex :: map EvRead example_ids |}.

(** The predicate [decimal == 123]. *)
Definition example_predicate : predicate :=
  fun item => VBool (strict_equal (item_get item "decimal") (VNum 123)).

(** A sort object, and the kinds of its fields. *)
Definition example_order : list (string * value) :=
  [("decimal", VNum 1); ("string", VNum (-1))].

Definition example_kinds (field : string) : kind :=
  if String.eqb field "decimal" then KNum else KStr.


(** A collection whose [index] lists a key that cannot be read. *)
Definition flaky_collection : collection :=
  {| collection_index := (VNull, Some [VStr "foo"; VStr "gone"; VStr "qux"]);
     collection_read := collection_read example_collection |}.

(** The predicate [decimal == n]. *)
Definition decimal_is (n : Z) : predicate :=
  fun item => VBool (strict_equal (item_get item "decimal") (VNum n)).

(** The projection to the field [string], into a new item. *)
Definition example_projection : mapping :=
  fun item => VObj [("string", item_get item "string")].

(** The mapping to the value of the field [decimal]. *)
Definition example_decimal : mapping :=
  fun item => item_get item "decimal".

(** A collection one of whose items has the [decimal] zero. *)
Definition zero_collection : collection :=
  Modelled.memory_storage
    [("foo", example_item "FOO" 123); ("nil", example_item "NIL" 0);
     ("qux", example_item "QUX" 123)].

(** A sort object with one descending field. *)
Definition example_descending : list (string * value) :=
  [("decimal", VNum (-1))].

(** The parameters of a request to WebapiMethods.prototype.find that
    gives a limit, an offset and a sort object. *)
Definition example_params : find_params :=
  {| params_condition := absent; params_projection := absent;
     params_limit := Some 3%Z; params_offset := Some 1%Z;
     params_sort := Data (VObj example_descending) |}.

(** A collection whose [index] lists a key that cannot be read, with
    keys behind it whose items are not in the order of their [decimal]. *)
Definition torn_collection : collection :=
  {| collection_index := (VNull, Some [VStr "foo"; VStr "gone"; VStr "baz"; VStr "bar"]);
     collection_read := collection_read example_collection |}.

(** * Properties *)

(** ** Requests in sequence *)

(** Unfolds one monadic step whose first request is known. *)
Ltac step_with H := unfold bind; rewrite H; cbn [ret bind].

Section StageFacts.

Variable coll : collection.

(** [toArray] hands over exactly what the chain streams: all the items
    when the sequence ends, the error alone when it fails. *)
Lemma toArray_iterator_streams up s t xs e s' t' :
  streams up s t xs e s' t' ->
  forall fuel buf, length xs < fuel ->
  toArray_iterator fuel up buf s t =
    Done (match e with
          | Ends => (VNull, Some (buf ++ xs))
          | Fails err => (err, None)
          end, s', t').
Proof.
  induction 1 as [s t err item s' t' Hup He Hi
                 |s t err item s' t' Hup He
                 |s t err item s1 t1 xs e s' t' Hup He Hi _ IH];
    intros [|fuel] buf Hfuel; cbn [length] in Hfuel; try lia; cbn [toArray_iterator].
  - step_with Hup. rewrite He, Hi. cbn. by rewrite app_nil_r.
  - step_with Hup. by rewrite He.
  - step_with Hup. rewrite He, Hi. cbn [negb].
    rewrite IH by lia. by rewrite <- app_assoc.
Qed.

(** Conversely, whatever [toArray] hands over was streamed by the chain,
    and the chain was left as the last request left it. *)
Lemma toArray_iterator_inv up fuel :
  forall buf s t err list s' t',
  toArray_iterator fuel up buf s t = Done (err, list, s', t') ->
  exists xs e,
    streams up s t xs e s' t' /\
    match e with
    | Ends => err = VNull /\ list = Some (buf ++ xs)
    | Fails x => err = x /\ list = None
    end.
Proof.
  induction fuel as [|fuel IH]; intros buf s t err list s' t' H; [done|].
  cbn [toArray_iterator] in H. unfold bind in H.
  destruct (up s t) as [| |[[[e i] s1] t1]] eqn:Hup; try done.
  destruct (truthy e) eqn:He.
  - inv H. exists [], (Fails err). split; [|done]. by eapply streams_fail.
  - destruct (truthy i) eqn:Hi; cbn [negb] in H.
    + apply IH in H as (xs & e' & Hs & Hres).
      exists (i :: xs), e'. split; [by eapply streams_item|].
      destruct e'; [|done]. by rewrite <- app_assoc in Hres.
    + inv H. exists [], Ends. rewrite app_nil_r. split; [|done].
      by eapply streams_end.
Qed.

(** What reading the keys [ids] appends to the trace. *)
Lemma Source_streams ids items :
  Forall2 (fun id item =>
             truthy (fst (collection_read coll id)) = false /\
             snd (collection_read coll id) = item /\
             truthy item = true) ids items ->
  forall fuel t, 0 < fuel ->
  streams (nextObject coll fuel) (Source (Some ids)) t items Ends
          (Source (Some [])) (t ++ map EvRead ids).
Proof.
  induction 1 as [|id item ids items (He & Hi & Ht) _ IH]; intros [|fuel] t Hfuel; try lia.
  - apply streams_end with (err := VUndefined) (item := VUndefined); [|done..].
    cbn. by rewrite app_nil_r.
  - destruct (collection_read coll id) as [e i] eqn:Hread. cbn in He, Hi. subst i.
    eapply streams_item with (err := e); [|done|done|].
    + cbn. unfold bind, call_read. by rewrite Hread.
    + cbn [map]. replace (t ++ EvRead id :: map EvRead ids)
        with ((t ++ [EvRead id]) ++ map EvRead ids) by by rewrite <- app_assoc.
      apply IH. lia.
Qed.

(** A fresh Source first asks for the keys, then answers as a Source that
    has them. *)
Lemma Source_None_nextObject err ids fuel t :
  collection_index coll = (err, Some ids) -> truthy err = false ->
  nextObject coll fuel (Source None) t =
  nextObject coll fuel (Source (Some ids)) (t ++ [EvIndex]).
Proof.
  intros Hindex He. destruct fuel as [|fuel]; [done|].
  cbn. unfold bind, call_index. rewrite Hindex. cbn. by rewrite He.
Qed.

Lemma Source_None_streams ids items :
  holds coll ids items ->
  forall fuel t, 0 < fuel ->
  streams (nextObject coll fuel) (Source None) t items Ends
          (Source (Some [])) (t ++ EvIndex :: map EvRead ids).
Proof.
  intros (He & Hl & Hreads) fuel t Hfuel.
  pose proof (Source_streams _ _ Hreads fuel (t ++ [EvIndex]) Hfuel) as Hs.
  rewrite <- app_assoc in Hs. cbn [app] in Hs.
  destruct (collection_index coll) as [e l] eqn:Hindex. cbn in He, Hl. subst l.
  inversion Hs as [? ? ? ? ? ? Hup|? ? ? ? ? ? Hup|? ? ? ? ? ? ? ? ? ? Hup]; subst;
    rewrite <- (Source_None_nextObject e) in Hup by done.
  - by eapply streams_end.
  - by eapply streams_item.
Qed.

(** Every item of a stream is truthy. *)
Lemma streams_truthy up s t xs e s' t' :
  streams up s t xs e s' t' -> Forall (fun x => truthy x = true) xs.
Proof. induction 1; by constructor. Qed.

(** *** Condition *)

(** With fuel for every upstream item, the answer of [next] does not depend
    on the fuel. *)
Lemma Condition_next_fuel up p s t xs e s' t' :
  streams up s t xs e s' t' ->
  forall f1 f2, length xs < f1 -> length xs < f2 ->
  Condition_next f1 up p s t = Condition_next f2 up p s t.
Proof.
  induction 1 as [s t err item s' t' Hup He Hi
                 |s t err item s' t' Hup He
                 |s t err item s1 t1 xs e s' t' Hup He Hi _ IH];
    intros [|f1] [|f2] H1 H2; cbn [length] in *; try lia;
    cbn [Condition_next]; step_with Hup; rewrite He; try rewrite Hi; try done.
  cbn [negb]. destruct (truthy (p item)); [done|].
  apply IH; lia.
Qed.

(** A Condition stage streams the upstream items that satisfy the
    predicate, in upstream order, and ends as the upstream ends, leaving
    the upstream where its last request left it. *)
Lemma Condition_streams fuel p s t xs e s' t' :
  streams (nextObject coll fuel) s t xs e s' t' ->
  length xs < fuel ->
  streams (nextObject coll (S fuel)) (Condition s (Func p)) t
          (List.filter (fun x => truthy (p x)) xs) e
          (Condition s' (Func p)) t'.
Proof.
  remember (nextObject coll fuel) as up eqn:Hdef.
  assert (forall s t, nextObject coll (S fuel) (Condition s (Func p)) t =
            bind (Condition_next fuel up p s)
                 (fun '(r, s') => ret (r, Condition s' (Func p))) t) as Hstep
    by (intros; by subst up).
  clear Hdef.
  induction 1 as [s t err item s' t' Hup He Hi
                 |s t err item s' t' Hup He
                 |s t err item s1 t1 xs e s' t' Hup He Hi Hs IH];
    intros Hfuel; cbn [length List.filter] in *;
    (destruct fuel as [|fuel]; [lia|]).
  - apply streams_end with (err := VUndefined) (item := VUndefined); [|done..].
    rewrite Hstep. cbn [Condition_next]. step_with Hup. by rewrite He, Hi.
  - apply streams_fail with (item := VUndefined); [|done].
    rewrite Hstep. cbn [Condition_next]. step_with Hup. by rewrite He.
  - specialize (IH ltac:(lia)).
    destruct (truthy (p item)) eqn:Hp.
    + apply streams_item with (err := VNull) (s1 := Condition s1 (Func p)) (t1 := t1);
        [|done..].
      rewrite Hstep. cbn [Condition_next]. step_with Hup. by rewrite He, Hi, Hp.
    + assert (nextObject coll (S (S fuel)) (Condition s (Func p)) t =
              nextObject coll (S (S fuel)) (Condition s1 (Func p)) t1) as Heq.
      { rewrite !Hstep. unfold bind.
        assert (Condition_next (S fuel) up p s t = Condition_next fuel up p s1 t1)
          as -> by (cbn [Condition_next]; step_with Hup; by rewrite He, Hi, Hp).
        by rewrite (Condition_next_fuel _ p _ _ _ _ _ _ Hs fuel (S fuel)) by lia. }
      inversion IH as [? ? ? ? ? ? Hc|? ? ? ? ? ? Hc|? ? ? ? ? ? ? ? ? ? Hc]; subst;
        rewrite <- Heq in Hc.
      * by eapply streams_end.
      * by eapply streams_fail.
      * by eapply streams_item.
Qed.

(** *** Limit *)

(** Once the limit is used up, a request answers with the end of the
    sequence at once: the upstream stage and the trace are left alone. *)
Lemma Limit_exhausted fuel s limit rest t :
  (rest <= 0)%Z ->
  nextObject coll (S fuel) (Limit s limit rest) t =
  Done (EOF, Limit s limit (rest - 1), t).
Proof.
  intros Hrest. cbn [nextObject].
  by replace (rest >? 0)%Z with false by lia.
Qed.

(** A Limit stage streams the first [rest] upstream items. *)
Lemma Limit_streams fuel limit s t xs e s' t' :
  streams (nextObject coll fuel) s t xs e s' t' ->
  forall rest, (0 <= rest)%Z ->
  exists s2 t2 rest',
    streams (nextObject coll (S fuel)) (Limit s limit rest) t
            (take (Z.to_nat rest) xs)
            (if decide (Z.to_nat rest <= length xs) then Ends else e)
            (Limit s2 limit rest') t2.
Proof.
  induction 1 as [s t err item s' t' Hup He Hi
                 |s t err item s' t' Hup He
                 |s t err item s1 t1 xs e s' t' Hup He Hi _ IH];
    intros rest Hrest.
  - rewrite take_nil. case_decide.
    + exists s, t, (rest - 1)%Z.
      apply streams_end with (err := VUndefined) (item := VUndefined); [|done..].
      apply Limit_exhausted. cbn [length] in *. lia.
    + exists s', t', (rest - 1)%Z.
      apply streams_end with (err := err) (item := item); [|done..].
      cbn [nextObject]. cbn [length] in *.
      replace (rest >? 0)%Z with true by lia. by step_with Hup.
  - rewrite take_nil. case_decide.
    + exists s, t, (rest - 1)%Z.
      apply streams_end with (err := VUndefined) (item := VUndefined); [|done..].
      apply Limit_exhausted. cbn [length] in *. lia.
    + exists s', t', (rest - 1)%Z.
      apply streams_fail with (item := item); [|done].
      cbn [nextObject]. cbn [length] in *.
      replace (rest >? 0)%Z with true by lia. by step_with Hup.
  - destruct (decide (rest = 0%Z)) as [->|Hne].
    + exists s, t, (-1)%Z. cbn.
      apply streams_end with (err := VUndefined) (item := VUndefined); [|done..].
      by apply Limit_exhausted.
    + destruct (IH (rest - 1)%Z ltac:(lia)) as (s2 & t2 & rest' & IH').
      exists s2, t2, rest'.
      replace (Z.to_nat rest) with (S (Z.to_nat (rest - 1))) by lia.
      cbn [take length].
      replace (if decide (S (Z.to_nat (rest - 1)) <= S (length xs)) then Ends else e)
        with (if decide (Z.to_nat (rest - 1) <= length xs) then Ends else e)
        by (repeat case_decide; done || lia).
      apply streams_item with (err := err) (s1 := Limit s1 limit (rest - 1)) (t1 := t1);
        [|done..].
      cbn [nextObject]. replace (rest >? 0)%Z with true by lia. by step_with Hup.
Qed.

(** A caller's requests past the limit all meet the end of the sequence;
    only the counter of the Limit stage moves. *)
Lemma Limit_exhausted_nextObjects fuel m :
  forall s limit rest t, (rest <= 0)%Z ->
  nextObjects coll (S fuel) m (Limit s limit rest) t =
  Done (replicate m EOF, Limit s limit (rest - Z.of_nat m), t).
Proof.
  induction m as [|m IH]; intros s limit rest t Hrest.
  - cbn. by rewrite Z.sub_0_r.
  - cbn [nextObjects]. unfold bind at 1. rewrite Limit_exhausted by done.
    unfold bind. rewrite IH by lia. cbn.
    by replace (rest - 1 - Z.of_nat m)%Z with (rest - Z.pos (Pos.of_succ_nat m))%Z by lia.
Qed.

(** Every request to a Limit stage that is answered moves its counter
    down by one, and no more items are served than the counter allows. *)
Lemma Limit_nextObjects_rest fuel n :
  forall s limit rest t rs s' t',
  nextObjects coll fuel n (Limit s limit rest) t = Done (rs, s', t') ->
  (exists s2, s' = Limit s2 limit (rest - Z.of_nat n)) /\
  served rs <= Z.to_nat rest.
Proof.
  induction n as [|n IH]; intros s limit rest t rs s' t' H.
  - cbn in H. inv H. split; [|cbn; lia]. exists s. by rewrite Z.sub_0_r.
  - cbn [nextObjects] in H. unfold bind at 1 in H.
    destruct fuel as [|fuel]; [done|]. cbn [nextObject] in H.
    destruct (rest >? 0)%Z eqn:Hrest.
    + unfold bind at 1 in H.
      destruct (nextObject coll fuel s t) as [| |[[r s1] t1]]; try done.
      cbn [ret] in H. unfold bind in H.
      destruct (nextObjects coll (S fuel) n (Limit s1 limit (rest - 1)) t1)
        as [| |[[rs' s3] t3]] eqn:Hn; try done.
      inv H. apply IH in Hn as [[s2 ->] Hserved]. split.
      * exists s2. f_equal. lia.
      * unfold served in *. cbn [List.filter]. destruct (delivers_item r); cbn; lia.
    + cbn [ret] in H. unfold bind in H.
      destruct (nextObjects coll (S fuel) n (Limit s limit (rest - 1)) t)
        as [| |[[rs' s3] t3]] eqn:Hn; try done.
      inv H. apply IH in Hn as [[s2 ->] Hserved]. split.
      * exists s2. f_equal. lia.
      * unfold served in *. cbn. lia.
Qed.

(** *** Requests to an exhausted stage *)

(** A stage that answers a request without changing answers every later
    request the same way. *)
Lemma nextObjects_fixed fuel s r n :
  (forall t, nextObject coll fuel s t = Done (r, s, t)) ->
  forall t, nextObjects coll fuel n s t = Done (replicate n r, s, t).
Proof.
  intros Hfix. induction n as [|n IH]; intros t; [done|].
  cbn [nextObjects]. unfold bind. by rewrite Hfix, IH.
Qed.

(** An Offset stage over a Source that has served all its keys. *)
Lemma Offset_exhausted fuel offset ready t :
  nextObject coll (S (S fuel)) (Offset (Source (Some [])) offset ready) t =
  Done (EOF, Offset (Source (Some [])) offset ready, t).
Proof. cbn [nextObject]. by destruct ready, (offset <=? 0)%Z. Qed.

(** *** Offset *)

Lemma streams_fails_truthy up s t xs err s' t' :
  streams up s t xs (Fails err) s' t' -> truthy err = true.
Proof.
  remember (Fails err) as e eqn:He. induction 1; try done.
  - by injection He as ->.
  - auto.
Qed.

(** An Offset stage that is ready, or has nothing to discard, hands every
    request through. *)
Lemma Offset_pass_streams fuel offset ready s t xs e s' t' :
  streams (nextObject coll fuel) s t xs e s' t' ->
  ready || (offset <=? 0)%Z = true ->
  streams (nextObject coll (S fuel)) (Offset s offset ready) t xs e
          (Offset s' offset ready) t'.
Proof.
  intros Hs Hpass.
  induction Hs as [s t err item s' t' Hup He Hi
                  |s t err item s' t' Hup He
                  |s t err item s1 t1 xs e s' t' Hup He Hi _ IH].
  - apply streams_end with (err := err) (item := item); [|done..].
    cbn [nextObject]. rewrite Hpass. by step_with Hup.
  - apply streams_fail with (item := item); [|done].
    cbn [nextObject]. rewrite Hpass. by step_with Hup.
  - apply streams_item with (err := err) (s1 := Offset s1 offset ready) (t1 := t1);
      [|done..].
    cbn [nextObject]. rewrite Hpass. by step_with Hup.
Qed.

(** The first request to an Offset stage with [rest] items to discard: it
    drops [rest] upstream items and answers with the next one, or with the
    ending of the upstream if that comes first. *)
Lemma Offset_iterator_streams up s t xs e s' t' :
  streams up s t xs e s' t' ->
  forall fuel (rest : Z), (0 < rest)%Z -> length xs < fuel ->
  exists r s2 t2 ready,
    Offset_iterator fuel up rest s t = Done (r, s2, ready, t2) /\
    match drop (Z.to_nat rest) xs with
    | x :: xs' =>
        truthy (fst r) = false /\ snd r = x /\ ready = true /\
        streams up s2 t2 xs' e s' t'
    | [] =>
        s2 = s' /\ t2 = t' /\
        match e with
        | Ends => truthy (fst r) = false /\ truthy (snd r) = false
        | Fails err => fst r = err
        end
    end.
Proof.
  induction 1 as [s t err item s' t' Hup He Hi
                 |s t err item s' t' Hup He
                 |s t err item s1 t1 xs e s' t' Hup He Hi Hs IH];
    intros [|fuel] rest Hrest Hfuel; cbn [length] in Hfuel; try lia;
    cbn [Offset_iterator]; step_with Hup; rewrite He; try rewrite Hi; cbn [negb].
  - exists EOF, s', t', false. by rewrite drop_nil.
  - exists (err, VUndefined), s', t', false. by rewrite drop_nil.
  - replace (Z.to_nat rest) with (S (Z.to_nat (rest - 1))) by lia. cbn [drop].
    destruct (rest - 1 >? 0)%Z eqn:Hmore.
    + apply IH; lia.
    + replace (Z.to_nat (rest - 1)) with 0 by lia. rewrite drop_0.
      inversion Hs as [? ? err' item' ? ? Hup'|? ? err' item' ? ? Hup'
                      |? ? err' item' s2 t2 ? ? ? ? Hup']; subst;
        step_with Hup'.
      * by exists (err', item'), s', t', true.
      * by exists (err', item'), s', t', true.
      * by exists (err', item'), s2, t2, true.
Qed.

(** An Offset stage streams the upstream items after the first [offset]
    ones. *)
Lemma Offset_streams fuel offset s t xs e s' t' :
  streams (nextObject coll fuel) s t xs e s' t' ->
  length xs < fuel ->
  exists ready',
    streams (nextObject coll (S fuel)) (Offset s offset false) t
            (drop (Z.to_nat offset) xs) e (Offset s' offset ready') t'.
Proof.
  intros Hs Hfuel.
  destruct (decide (offset <= 0)%Z) as [Hle|Hgt].
  - exists false. replace (Z.to_nat offset) with 0 by lia. rewrite drop_0.
    apply Offset_pass_streams; [done|]. cbn. lia.
  - destruct (Offset_iterator_streams _ _ _ _ _ _ _ Hs fuel offset ltac:(lia) Hfuel)
      as ([err item] & s2 & t2 & ready & Hit & Hres).
    assert (nextObject coll (S fuel) (Offset s offset false) t =
            Done ((err, item), Offset s2 offset ready, t2)) as Hstep.
    { cbn [nextObject]. replace (offset <=? 0)%Z with false by lia. cbn [orb].
      by step_with Hit. }
    assert (Forall (fun x => truthy x = true) (drop (Z.to_nat offset) xs)) as Hall
      by (apply Forall_drop; by eapply streams_truthy).
    destruct (drop (Z.to_nat offset) xs) as [|x xs'].
    + destruct Hres as (-> & -> & Hres). exists ready.
      destruct e as [|err']; cbn in Hres.
      * destruct Hres. by eapply streams_end.
      * subst err'. eapply streams_fail; [done|]. by eapply streams_fails_truthy.
    + destruct Hres as (He & Hx & -> & Hrest). cbn in He, Hx. subst x.
      inv Hall. exists true.
      eapply streams_item; [done..|]. by apply Offset_pass_streams.
Qed.

(** *** Sort *)

Lemma insert_sorted_Permutation cmp x l : insert_sorted cmp x l ≡ₚ x :: l.
Proof.
  induction l as [|y l IH]; cbn; [done|].
  destruct (cmp x y <=? 0)%Z; [done|]. rewrite IH. apply Permutation_swap.
Qed.

Lemma js_sort_Permutation cmp l : js_sort cmp l ≡ₚ l.
Proof.
  induction l as [|x l IH]; cbn; [done|].
  unfold js_sort in IH. by rewrite insert_sorted_Permutation, IH.
Qed.

(** A Sort stage with its buffer serves the buffer, one item a request,
    and asks nothing of its upstream. *)
Lemma Sort_serving fuel s cmp l :
  Forall (fun x => truthy x = true) l ->
  forall t,
  streams (nextObject coll (S fuel)) (Sort s cmp (Some l)) t l Ends
          (Sort s cmp (Some [])) t.
Proof.
  induction 1 as [|x l Hx _ IH]; intros t.
  - by apply streams_end with (err := VNull) (item := VUndefined).
  - by apply streams_item with (err := VNull) (s1 := Sort s cmp (Some l)) (t1 := t).
Qed.

(** The first request to a Sort stage drains the upstream to its end,
    sorts what it delivered and serves the first item of the sorted
    buffer. *)
Lemma Sort_first_request fuel cmp s t xs s' t' :
  streams (nextObject coll fuel) s t xs Ends s' t' ->
  length xs < fuel ->
  nextObject coll (S fuel) (Sort s cmp None) t =
  Done ((VNull, fst (shift (js_sort cmp xs))),
        Sort s' cmp (Some (snd (shift (js_sort cmp xs)))), t').
Proof.
  intros Hs Hfuel. cbn [nextObject].
  pose proof (toArray_iterator_streams _ _ _ _ _ _ _ Hs fuel [] Hfuel) as Hdrain.
  step_with Hdrain. cbn -[js_sort shift]. by destruct (shift (js_sort cmp xs)).
Qed.

(** A Sort stage streams the upstream items in sorted order. *)
Lemma Sort_streams fuel cmp s t xs s' t' :
  streams (nextObject coll fuel) s t xs Ends s' t' ->
  length xs < fuel ->
  streams (nextObject coll (S fuel)) (Sort s cmp None) t (js_sort cmp xs) Ends
          (Sort s' cmp (Some [])) t'.
Proof.
  intros Hs Hfuel.
  pose proof (Sort_first_request fuel cmp _ _ _ _ _ Hs Hfuel) as Hfirst.
  assert (Forall (fun x => truthy x = true) (js_sort cmp xs)) as Hall.
  { rewrite js_sort_Permutation. by eapply streams_truthy. }
  destruct (js_sort cmp xs) as [|x l]; cbn in Hfirst.
  - by eapply streams_end.
  - inv Hall. eapply streams_item; [done..|]. by apply Sort_serving.
Qed.

(** *** No request throws on a chain that is [defined] *)

Lemma Condition_next_safe up p :
  safe_pull up ->
  forall fuel s t, defined s = true -> never_thrown snd (Condition_next fuel up p s t).
Proof.
  intros Hup. induction fuel as [|fuel IH]; intros s t Hs; [done|].
  cbn [Condition_next]. unfold bind. specialize (Hup s t Hs).
  destruct (up s t) as [| |[[[err item] s1] t1]]; try done. cbn in Hup.
  destruct (truthy err); [done|]. destruct (truthy item); cbn [negb]; [|done].
  destruct (truthy (p item)); [done|]. by apply IH.
Qed.

Lemma Offset_iterator_safe up :
  safe_pull up ->
  forall fuel rest s t,
  defined s = true ->
  never_thrown (fun a => snd (fst a)) (Offset_iterator fuel up rest s t).
Proof.
  intros Hup. induction fuel as [|fuel IH]; intros rest s t Hs; [done|].
  cbn [Offset_iterator]. unfold bind at 1. pose proof (Hup s t Hs) as H1.
  destruct (up s t) as [| |[[[err item] s1] t1]]; try done. cbn in H1.
  destruct (truthy err); [done|]. destruct (truthy item); cbn [negb]; [|done].
  destruct (rest - 1 >? 0)%Z; [by apply IH|].
  unfold bind. pose proof (Hup s1 t1 H1) as H2.
  by destruct (up s1 t1) as [| |[[r s2] t2]].
Qed.

Lemma toArray_iterator_safe up :
  safe_pull up ->
  forall fuel buf s t,
  defined s = true -> never_thrown snd (toArray_iterator fuel up buf s t).
Proof.
  intros Hup. induction fuel as [|fuel IH]; intros buf s t Hs; [done|].
  cbn [toArray_iterator]. unfold bind. specialize (Hup s t Hs).
  destruct (up s t) as [| |[[[err item] s1] t1]]; try done. cbn in Hup.
  destruct (truthy err); [done|]. destruct (truthy item); cbn [negb]; [|done].
  by apply IH.
Qed.

Lemma nextObject_safe fuel : safe_pull (nextObject coll fuel).
Proof.
  induction fuel as [|fuel IH]; intros s t Hs; [done|].
  destruct s as [|list|s c|s cmp list|s offset ready|s limit rest|s c];
    cbn [defined] in Hs; cbn [nextObject]; try done.
  - destruct list as [[|id l]|]; cbn; try done.
    unfold bind, call_index. destruct (collection_index coll) as [e [l|]]; cbn;
      destruct (truthy e); try done; by destruct l.
  - destruct c as [v|f]; [done|]. unfold bind.
    pose proof (Condition_next_safe _ f IH fuel s t Hs) as H.
    by destruct (Condition_next fuel (nextObject coll fuel) f s t) as [| |[[r s1] t1]].
  - destruct list as [l|]; [by destruct (shift l)|]. unfold bind.
    pose proof (toArray_iterator_safe _ IH fuel [] s t Hs) as H.
    destruct (toArray_iterator fuel (nextObject coll fuel) [] s t)
      as [| |[[[e l] s1] t1]]; try done.
    destruct (truthy e); [done|]. by destruct (shift _).
  - destruct (ready || (offset <=? 0)%Z); unfold bind.
    + pose proof (IH s t Hs) as H.
      by destruct (nextObject coll fuel s t) as [| |[[r s1] t1]].
    + pose proof (Offset_iterator_safe _ IH fuel offset s t Hs) as H.
      by destruct (Offset_iterator fuel (nextObject coll fuel) offset s t)
        as [| |[[[r s1] ready'] t1]].
  - destruct (rest >? 0)%Z; [|done]. unfold bind.
    pose proof (IH s t Hs) as H.
    by destruct (nextObject coll fuel s t) as [| |[[r s1] t1]].
  - destruct c as [v|f]; [done|]. unfold bind.
    pose proof (IH s t Hs) as H.
    destruct (nextObject coll fuel s t) as [| |[[[e i] s1] t1]]; try done.
    destruct (truthy e); [done|]. by destruct (truthy i).
Qed.

Lemma defined_has_source s : defined s = true -> no_source s = false.
Proof. by destruct s. Qed.

Lemma rewind_safe s :
  defined s = true -> exists s', rewind s = Done s' /\ defined s' = true.
Proof.
  induction s as [|list|s IH c|s IH cmp list|s IH offset ready|s IH limit rest|s IH c];
    cbn [defined]; intros Hs; try done; cbn [rewind];
    try (rewrite (defined_has_source s Hs));
    try (destruct (IH Hs) as (s' & -> & Hs')); eauto.
Qed.

(** *** Every request to a [defined] chain is answered *)

(** Closes the side conditions of an answer that is at hand. *)
Ltac close_answer :=
  repeat split; cbn [defined depth budget length];
  repeat match goal with H : collection_index _ = _ |- _ => rewrite H end;
  cbn [fst snd]; try done; try lia;
  try (unfold delivers_item, EOF; cbn [fst snd];
       repeat match goal with H : truthy _ = _ |- _ => rewrite H end;
       cbn; try done; intros; try lia).

Ltac answer := eexists _, _, _; split; [reflexivity|]; close_answer.

Lemma delivers_item_error err item :
  truthy err = true -> delivers_item (err, item) = false.
Proof. intros H. unfold delivers_item. cbn. by rewrite H. Qed.

Lemma delivers_item_item err item :
  truthy err = false -> truthy item = true -> delivers_item (err, item) = true.
Proof. intros He Hi. unfold delivers_item. cbn. by rewrite He, Hi. Qed.

Lemma Condition_next_answers up p d b :
  productive coll up d b ->
  forall fuel s t,
  defined s = true -> depth s = d -> budget coll s <= b ->
  budget coll s < fuel ->
  answered coll (Condition_next fuel up p) s t.
Proof.
  intros Hup. induction fuel as [|fuel IH]; intros s t Hs Hd Hb Hfuel; [lia|].
  destruct (Hup s t Hs Hd Hb) as ([err item] & s1 & t1 & Hpull & Hs1 & Hd1 & Hb1 & Hlt).
  unfold answered. cbn [Condition_next]. step_with Hpull.
  destruct (truthy err) eqn:He; [answer|].
  destruct (truthy item) eqn:Hi; cbn [negb]; [|answer].
  specialize (Hlt (delivers_item_item _ _ He Hi)).
  destruct (truthy (p item)).
  - answer.
  - destruct (IH s1 t1 Hs1 ltac:(lia) ltac:(lia) ltac:(lia))
      as (r & s2 & t2 & Hrun & Hs2 & Hd2 & Hb2 & Hlt2).
    exists r, s2, t2. split; [done|]. split; [done|]. split; [lia|]. split; [lia|].
    intros Hr. specialize (Hlt2 Hr). lia.
Qed.

Lemma Offset_iterator_answers up d b :
  productive coll up d b ->
  forall fuel rest s t,
  defined s = true -> depth s = d -> budget coll s <= b ->
  budget coll s < fuel ->
  exists r s' ready t',
    Offset_iterator fuel up rest s t = Done (r, s', ready, t') /\
    defined s' = true /\ depth s' = depth s /\
    budget coll s' <= budget coll s /\
    (delivers_item r = true -> budget coll s' < budget coll s).
Proof.
  intros Hup. induction fuel as [|fuel IH]; intros rest s t Hs Hd Hb Hfuel; [lia|].
  destruct (Hup s t Hs Hd Hb) as ([err item] & s1 & t1 & Hpull & Hs1 & Hd1 & Hb1 & Hlt).
  cbn [Offset_iterator]. step_with Hpull.
  destruct (truthy err) eqn:He; [eexists _, _, _, _; split; [done|]; close_answer|].
  destruct (truthy item) eqn:Hi; cbn [negb];
    [|eexists _, _, _, _; split; [done|]; close_answer].
  specialize (Hlt (delivers_item_item _ _ He Hi)).
  destruct (rest - 1 >? 0)%Z.
  - destruct (IH (rest - 1)%Z s1 t1 Hs1 ltac:(lia) ltac:(lia) ltac:(lia))
      as (r & s2 & ready & t2 & Hrun & Hs2 & Hd2 & Hb2 & Hlt2).
    exists r, s2, ready, t2. split; [done|]. split; [done|]. split; [lia|].
    split; [lia|]. intros Hr. specialize (Hlt2 Hr). lia.
  - destruct (Hup s1 t1 Hs1 ltac:(lia) ltac:(lia))
      as (r & s2 & t2 & Hpull2 & Hs2 & Hd2 & Hb2 & _).
    step_with Hpull2. exists r, s2, true, t2. split; [done|]. split; [done|].
    split; [lia|]. split; [lia|]. intros _. lia.
Qed.

Lemma toArray_iterator_answers up d b :
  productive coll up d b ->
  forall fuel buf s t,
  defined s = true -> depth s = d -> budget coll s <= b ->
  budget coll s < fuel ->
  exists err list s' t',
    toArray_iterator fuel up buf s t = Done (err, list, s', t') /\
    defined s' = true /\ depth s' = depth s /\
    budget coll s' <= budget coll s /\
    (truthy err = false ->
     exists buf', list = Some buf' /\
                  length buf' + budget coll s' <= length buf + budget coll s).
Proof.
  intros Hup. induction fuel as [|fuel IH]; intros buf s t Hs Hd Hb Hfuel; [lia|].
  destruct (Hup s t Hs Hd Hb) as ([err item] & s1 & t1 & Hpull & Hs1 & Hd1 & Hb1 & Hlt).
  cbn [toArray_iterator]. step_with Hpull.
  destruct (truthy err) eqn:He.
  { eexists _, _, _, _. split; [done|]. repeat split; try done. by rewrite He. }
  destruct (truthy item) eqn:Hi; cbn [negb].
  - specialize (Hlt (delivers_item_item _ _ He Hi)).
    destruct (IH (buf ++ [item]) s1 t1 Hs1 ltac:(lia) ltac:(lia) ltac:(lia))
      as (e & l & s2 & t2 & Hrun & Hs2 & Hd2 & Hb2 & Hbuf).
    exists e, l, s2, t2. repeat split; try done; try lia.
    intros Hok. destruct (Hbuf Hok) as (buf' & -> & Hlen). exists buf'.
    split; [done|]. rewrite length_app in Hlen. cbn in Hlen. lia.
  - eexists _, _, _, _. split; [done|]. repeat split; try done.
    intros _. exists buf. split; [done|]. lia.
Qed.

Lemma js_sort_length cmp l : length (js_sort cmp l) = length l.
Proof. apply Permutation_length, js_sort_Permutation. Qed.

(** With fuel for the depth of the chain and for the items it can still
    deliver, a request to a [defined] chain is answered. *)
Lemma nextObject_answers fuel :
  forall s t,
  defined s = true -> depth s + budget coll s < fuel ->
  answered coll (nextObject coll fuel) s t.
Proof.
  induction fuel as [|fuel IH]; intros s t Hs Hfuel; [lia|].
  assert (forall d b, d + b < fuel -> productive coll (nextObject coll fuel) d b)
    as Hup.
  { intros d b Hdb s0 t0 Hs0 Hd0 Hb0. apply IH; [done|lia]. }
  unfold answered.
  destruct s as [|list|s c|s cmp list|s offset ready|s limit rest|s c];
    cbn [defined depth budget] in *; try done; cbn [nextObject].
  - (* Source *)
    destruct list as [[|id l]|]; cbn [Source_nextObject Source_serve].
    + answer.
    + unfold bind, call_read. cbn [ret]. answer.
    + unfold bind, call_index.
      destruct (collection_index coll) as [e list] eqn:Hindex.
      cbn [fst snd] in *. destruct (truthy e) eqn:He; [answer|].
      destruct (default [] list) as [|id l] eqn:Hl; cbn [Source_serve].
      * answer.
      * unfold bind, call_read. cbn [ret]. answer.
  - (* Condition *)
    destruct c as [v|f]; [answer|].
    destruct (Condition_next_answers _ f _ _ (Hup (depth s) (budget coll s) ltac:(lia))
                fuel s t Hs eq_refl ltac:(lia) ltac:(lia))
      as (r & s1 & t1 & Hrun & Hs1 & Hd1 & Hb1 & Hlt).
    step_with Hrun. answer.
  - (* Sort *)
    destruct list as [l|].
    + destruct l as [|x l]; cbn [shift]; answer.
    + destruct (toArray_iterator_answers _ _ _ (Hup (depth s) (budget coll s) ltac:(lia))
                  fuel [] s t Hs eq_refl ltac:(lia) ltac:(lia))
        as (e & l & s1 & t1 & Hrun & Hs1 & Hd1 & Hb1 & Hbuf).
      step_with Hrun. destruct (truthy e) eqn:He; [answer|].
      destruct (Hbuf eq_refl) as (buf' & -> & Hlen). cbn [length] in Hlen.
      pose proof (js_sort_length cmp buf') as Hsl.
      cbn [default from_option id].
      destruct (js_sort cmp buf') as [|x rest]; cbn [shift length] in *; answer.
  - (* Offset *)
    destruct (ready || (offset <=? 0)%Z).
    + destruct (IH s t Hs ltac:(lia)) as (r & s1 & t1 & Hrun & Hs1 & Hd1 & Hb1 & Hlt).
      step_with Hrun. answer.
    + destruct (Offset_iterator_answers _ _ _ (Hup (depth s) (budget coll s) ltac:(lia))
                  fuel offset s t Hs eq_refl ltac:(lia) ltac:(lia))
        as (r & s1 & ready' & t1 & Hrun & Hs1 & Hd1 & Hb1 & Hlt).
      step_with Hrun. answer.
  - (* Limit *)
    destruct (rest >? 0)%Z; [|answer].
    destruct (IH s t Hs ltac:(lia)) as (r & s1 & t1 & Hrun & Hs1 & Hd1 & Hb1 & Hlt).
    step_with Hrun. answer.
  - (* Projection *)
    destruct c as [v|f]; [answer|].
    destruct (IH s t Hs ltac:(lia))
      as ([err item] & s1 & t1 & Hrun & Hs1 & Hd1 & Hb1 & Hlt).
    step_with Hrun. destruct (truthy err) eqn:He; [answer|].
    destruct (truthy item) eqn:Hi; cbn [negb]; [|answer].
    specialize (Hlt (delivers_item_item _ _ He Hi)). answer.
Qed.

(** And so is [toArray]. *)
Lemma toArray_answers fuel s t :
  defined s = true -> depth s + budget coll s < fuel ->
  exists err list s' t',
    toArray coll fuel s t = Done (err, list, s', t') /\ defined s' = true.
Proof.
  intros Hs Hfuel.
  assert (productive coll (nextObject coll fuel) (depth s) (budget coll s)) as Hup.
  { intros s0 t0 Hs0 Hd0 Hb0. apply nextObject_answers; [done|lia]. }
  destruct (toArray_iterator_answers _ _ _ Hup fuel [] s t Hs eq_refl ltac:(lia)
              ltac:(lia)) as (e & l & s1 & t1 & Hrun & Hs1 & _).
  by exists e, l, s1, t1.
Qed.

End StageFacts.

(** ** The order of a sort object *)

Section Ordering.

Lemma String_compare_refl s : String.compare s s = Eq.
Proof.
  induction s as [|a s IH]; cbn; [done|].
  unfold Ascii.compare. by rewrite N.compare_refl.
Qed.

Lemma Ascii_compare_lt_trans a b c :
  Ascii.compare a b = Lt -> Ascii.compare b c = Lt -> Ascii.compare a c = Lt.
Proof.
  unfold Ascii.compare. rewrite !N.compare_lt_iff. apply N.lt_trans.
Qed.

Lemma String_compare_lt_trans a :
  forall b c,
  String.compare a b = Lt -> String.compare b c = Lt -> String.compare a c = Lt.
Proof.
  induction a as [|x a IH]; intros [|y b] [|z c]; cbn; try done.
  destruct (Ascii.compare x y) eqn:Hxy; try done;
    destruct (Ascii.compare y z) eqn:Hyz; try done; intros Hab Hbc.
  - apply Ascii.compare_eq_iff in Hxy as ->. rewrite Hyz. by eapply IH.
  - apply Ascii.compare_eq_iff in Hxy as ->. by rewrite Hyz.
  - apply Ascii.compare_eq_iff in Hyz as <-. by rewrite Hxy.
  - by rewrite (Ascii_compare_lt_trans x y z).
Qed.

Lemma natural_compare_antisym u v : natural_compare v u = (- natural_compare u v)%Z.
Proof.
  destruct u, v; cbn; try done.
  - rewrite Z.compare_antisym. by destruct (n ?= n0)%Z.
  - rewrite String.compare_antisym. by destruct (String.compare s s0).
Qed.

Lemma natural_compare_eq k u v :
  has_kind k u = true -> has_kind k v = true ->
  natural_compare u v = 0%Z -> u = v.
Proof.
  destruct k, u, v; cbn; try done; intros _ _.
  - destruct (n ?= n0)%Z eqn:H; try done. by apply Z.compare_eq in H as ->.
  - destruct (String.compare s s0) eqn:H; try done.
    by apply String.compare_eq_iff in H as ->.
Qed.

Lemma natural_compare_lt_trans k u v w :
  has_kind k u = true -> has_kind k v = true -> has_kind k w = true ->
  (natural_compare u v < 0)%Z -> (natural_compare v w < 0)%Z ->
  (natural_compare u w < 0)%Z.
Proof.
  destruct k, u, v, w; cbn; try done; intros _ _ _.
  - destruct (n ?= n0)%Z eqn:H1; try done. destruct (n0 ?= n1)%Z eqn:H2; try done.
    intros _ _. replace (n ?= n1)%Z with Lt; [done|].
    symmetry. apply Z.compare_lt_iff.
    change (n < n0)%Z in H1. change (n0 < n1)%Z in H2. lia.
  - destruct (String.compare s s0) eqn:H1; try done.
    destruct (String.compare s0 s1) eqn:H2; try done.
    by rewrite (String_compare_lt_trans s s0 s1).
Qed.

(** On values of one kind the natural ordering is transitive, and a tie
    of the ends of a chain is a tie of all its links. *)
Lemma natural_compare_trans k u v w :
  has_kind k u = true -> has_kind k v = true -> has_kind k w = true ->
  (natural_compare u v <= 0)%Z -> (natural_compare v w <= 0)%Z ->
  (natural_compare u w <= 0)%Z /\
  (natural_compare u w = 0%Z -> natural_compare u v = 0%Z /\ natural_compare v w = 0%Z).
Proof.
  intros Hu Hv Hw Huv Hvw.
  destruct (decide (natural_compare u v = 0%Z)) as [Euv|Nuv].
  { apply (natural_compare_eq k) in Euv as <-; [|done..]. split; [done|].
    intros E. split; [|done]. pose proof (natural_compare_antisym u u). lia. }
  destruct (decide (natural_compare v w = 0%Z)) as [Evw|Nvw].
  { apply (natural_compare_eq k) in Evw as <-; [|done..]. split; [done|]. lia. }
  pose proof (natural_compare_lt_trans k u v w Hu Hv Hw ltac:(lia) ltac:(lia)).
  lia.
Qed.

Variable kinds : string -> kind.

Lemma compare_field_antisym fd a b : compare_field fd b a = (- compare_field fd a b)%Z.
Proof.
  unfold compare_field, directed.
  rewrite (natural_compare_antisym (item_get a (fst fd))).
  destruct (snd fd) as [| | |[|[]|[]]| | |]; lia.
Qed.

Lemma compare_field_trans fd a b c :
  field_conforms kinds fd a -> field_conforms kinds fd b -> field_conforms kinds fd c ->
  (compare_field fd a b <= 0)%Z -> (compare_field fd b c <= 0)%Z ->
  (compare_field fd a c <= 0)%Z /\
  (compare_field fd a c = 0%Z ->
   compare_field fd a b = 0%Z /\ compare_field fd b c = 0%Z).
Proof.
  unfold field_conforms, compare_field, directed. intros Ha Hb Hc.
  pose proof (natural_compare_trans _ _ _ _ Ha Hb Hc) as Hup.
  pose proof (natural_compare_trans _ _ _ _ Hc Hb Ha) as Hdown.
  rewrite (natural_compare_antisym (item_get b (fst fd)) (item_get c (fst fd))),
          (natural_compare_antisym (item_get a (fst fd)) (item_get b (fst fd))),
          (natural_compare_antisym (item_get a (fst fd)) (item_get c (fst fd)))
    in Hdown.
  destruct (snd fd) as [| | |[|[]|[]]| | |]; lia.
Qed.

Lemma conforms_cons fd order item :
  conforms kinds (fd :: order) item = true <->
  field_conforms kinds fd item /\ conforms kinds order item = true.
Proof. unfold conforms, field_conforms. cbn. by rewrite andb_true_iff. Qed.

Lemma compare_fields_antisym order a b :
  compare_fields order b a = (- compare_fields order a b)%Z.
Proof.
  induction order as [|fd order IH]; cbn; [done|].
  rewrite (compare_field_antisym fd a b).
  destruct (Z.eqb_spec (compare_field fd a b) 0) as [->|Hne]; cbn; [done|].
  destruct (Z.eqb_spec (- compare_field fd a b) 0); lia.
Qed.

Lemma compare_fields_trans order a b c :
  conforms kinds order a = true -> conforms kinds order b = true ->
  conforms kinds order c = true ->
  ordered_by order a b -> ordered_by order b c -> ordered_by order a c.
Proof.
  unfold ordered_by. induction order as [|fd order IH]; cbn [compare_fields]; [done|].
  rewrite !conforms_cons. intros [Ha Ha'] [Hb Hb'] [Hc Hc'] Hab Hbc.
  destruct (Z.eqb_spec (compare_field fd a b) 0) as [Eab|Nab];
    destruct (Z.eqb_spec (compare_field fd b c) 0) as [Ebc|Nbc];
    destruct (compare_field_trans fd a b c Ha Hb Hc ltac:(lia) ltac:(lia)) as [Hle Htie];
    destruct (Z.eqb_spec (compare_field fd a c) 0) as [Eac|Nac]; try lia.
  by apply IH.
Qed.

(** [insert_sorted] keeps a sorted list sorted. *)
Lemma insert_sorted_sorted order x l :
  conforms kinds order x = true ->
  Forall (fun item => conforms kinds order item = true) l ->
  StronglySorted (ordered_by order) l ->
  StronglySorted (ordered_by order) (insert_sorted (compare_fields order) x l).
Proof.
  intros Hx. induction l as [|y l IH]; intros Hl Hsorted; cbn.
  - by repeat constructor.
  - inversion Hl as [|? ? Hy Hl']; subst.
    inversion Hsorted as [|? ? Hs Hyl]; subst.
    destruct (Z.leb_spec (compare_fields order x y) 0) as [Hxy|Hyx].
    + constructor; [by constructor|]. constructor; [done|].
      rewrite Forall_forall in Hyl, Hl'. apply Forall_forall. intros z Hz.
      apply (compare_fields_trans order x y z); auto.
    + constructor; [by apply IH|].
      rewrite insert_sorted_Permutation. constructor; [|done].
      unfold ordered_by. rewrite (compare_fields_antisym order x y). lia.
Qed.

Lemma js_sort_sorted order l :
  Forall (fun item => conforms kinds order item = true) l ->
  StronglySorted (ordered_by order) (js_sort (compare_fields order) l).
Proof.
  induction 1 as [|x l Hx Hl IH]; [constructor|].
  change (js_sort (compare_fields order) (x :: l))
    with (insert_sorted (compare_fields order) x (js_sort (compare_fields order) l)).
  apply insert_sorted_sorted; [done| |done].
  by rewrite js_sort_Permutation.
Qed.

Lemma StronglySorted_weaken (R R' : value -> value -> Prop) l :
  (forall a b, R a b -> R' a b) -> StronglySorted R l -> StronglySorted R' l.
Proof.
  intros HR. induction 1 as [|x l _ IH Hx]; constructor; [done|].
  eapply Forall_impl; [exact Hx|]. intros b Hb. by apply HR.
Qed.

End Ordering.

(** ** Cursors *)

Section CursorFacts.

Variable coll : collection.
Variable ConditionOp_parser : jsarg predicate -> jsarg predicate.
Variable ProjectionOp_parser : jsarg mapping -> jsarg mapping.
Variable SortOp_parser : jsarg comparator -> comparator.

Local Abbreviation find := (find ConditionOp_parser ProjectionOp_parser).

(** [toArray] on a cursor without a memo: a stream that ends is stored in
    a new array and a copy of it is handed over; a stream that fails hands
    over the error and stores nothing. *)
Lemma Cursor_toArray_streams fuel self w xs e s' t' :
  _toArray self = None ->
  streams (nextObject coll fuel) (source self) (log w) xs e s' t' ->
  length xs < fuel ->
  Cursor_toArray coll fuel self w =
  match e with
  | Ends =>
      Done (VNull, Some (S (length (heap w))),
            {| source := s'; _index := _index self;
               _toArray := Some (length (heap w)) |},
            {| heap := heap w ++ [xs; xs]; log := t' |})
  | Fails err =>
      Done (err, None, set_source self s', {| heap := heap w; log := t' |})
  end.
Proof.
  intros Hmemo Hs Hfuel. unfold Cursor_toArray. rewrite Hmemo.
  unfold bind at 1. unfold lift, toArray.
  rewrite (toArray_iterator_streams _ _ _ _ _ _ _ Hs fuel [] Hfuel).
  destruct e as [|err].
  - cbn. unfold array_elements. cbn.
    rewrite lookup_app_r by done. rewrite Nat.sub_diag. cbn.
    rewrite length_app. cbn. rewrite Nat.add_1_r.
    by rewrite <- app_assoc.
  - by rewrite (streams_fails_truthy _ _ _ _ _ _ _ Hs).
Qed.

(** The elements of the array [toArray] hands over, read in the world it
    leaves. *)
Lemma array_elements_fresh (h : list (list value)) (xs : list value) t :
  array_elements {| heap := h ++ [xs; xs]; log := t |} (S (length h)) = xs.
Proof.
  unfold array_elements. cbn.
  rewrite lookup_app_r by lia. by replace (S (length h) - length h) with 1 by lia.
Qed.

(** The chain [find] builds with no projection. *)
Lemma find_source condition :
  source (find condition absent) =
  if truthy_arg condition then
    if truthy_arg (ConditionOp_parser condition)
    then Condition (Source None) (ConditionOp_parser condition)
    else Source None
  else Source None.
Proof. unfold find, Cursor_new. cbn. by repeat case_match. Qed.

Lemma find_memo condition projection :
  _toArray (find condition projection) = None /\
  _index (find condition projection) = None.
Proof. done. Qed.

(** [count] on the bare Source: one [index] call, and the number of keys. *)
Lemma Cursor_count_keys fuel self w err ids :
  source self = Source None -> _index self = None ->
  collection_index coll = (err, Some ids) -> truthy err = false ->
  Cursor_count coll fuel self w =
  Done ((VNull, VNum (Z.of_nat (length ids))),
        {| source := Source None; _index := Some (length (heap w));
           _toArray := _toArray self |},
        {| heap := heap w ++ [ids; ids]; log := log w ++ [EvIndex] |}).
Proof.
  intros Hsrc Hmemo Hindex He. unfold Cursor_count, Cursor_index.
  rewrite Hsrc, Hmemo. cbn [is_original_Source].
  unfold bind, lift, call_index. rewrite Hindex. cbn. rewrite He. cbn.
  unfold array_elements. cbn.
  rewrite !(list_lookup_middle (heap w) [] ids) by done. cbn.
  rewrite length_app. cbn. rewrite Nat.add_1_r.
  rewrite <- app_assoc. cbn.
  rewrite lookup_app_r by lia.
  by replace (S (length (heap w)) - length (heap w)) with 1 by lia.
Qed.

(** [count] on a longer chain reports the length of what [toArray] hands
    over, or its error. *)
Lemma Cursor_count_toArray fuel self w err list self' w' :
  is_original_Source (source self) = false ->
  Cursor_toArray coll fuel self w = Done (err, list, self', w') ->
  Cursor_count coll fuel self w =
  if truthy err then Done ((err, VUndefined), self', w')
  else match list with
       | Some l => Done ((VNull, VNum (Z.of_nat (length (array_elements w' l)))),
                         self', w')
       | None => Thrown (TypeError "length")
       end.
Proof.
  intros Hsrc Harr. unfold Cursor_count. rewrite Hsrc.
  step_with Harr. by destruct (truthy err), list.
Qed.

(** A Condition stage whose condition is not a function answers every
    request with the error and asks nothing of its upstream. *)
Lemma Condition_invalid fuel s v t :
  nextObject coll (S fuel) (Condition s (Data v)) t =
  Done ((new_Error "invalid condition: " v, VUndefined), Condition s (Data v), t).
Proof. done. Qed.

Lemma Projection_invalid fuel s v t :
  nextObject coll (S fuel) (Projection s (Data v)) t =
  Done ((new_Error "invalid projection: " v, VUndefined), Projection s (Data v), t).
Proof. done. Qed.

(** *** The memo of [toArray] and [index] *)

Lemma array_elements_new (h : list (list value)) a t :
  array_elements {| heap := h ++ [a]; log := t |} (length h) = a.
Proof. unfold array_elements. cbn. by rewrite list_lookup_middle. Qed.

Lemma array_elements_old w (h' : list (list value)) t l :
  l < length (heap w) ->
  array_elements {| heap := heap w ++ h'; log := t |} l = array_elements w l.
Proof. intros Hl. unfold array_elements. cbn. by rewrite lookup_app_l. Qed.

Lemma array_elements_mutate_ne l l' a w :
  l <> l' -> array_elements (array_mutate l a w) l' = array_elements w l'.
Proof.
  intros Hne. unfold array_elements, array_mutate. cbn.
  by rewrite list_lookup_insert_ne.
Qed.

Lemma array_elements_mutate l a w :
  l < length (heap w) -> array_elements (array_mutate l a w) l = a.
Proof.
  intros Hl. unfold array_elements, array_mutate. cbn.
  by rewrite list_lookup_insert_eq.
Qed.

(** With a memo, [toArray] copies it into a new array and neither runs the
    chain nor needs fuel. *)
Lemma Cursor_toArray_cached fuel self w lc :
  _toArray self = Some lc ->
  Cursor_toArray coll fuel self w =
  Done (VNull, Some (length (heap w)), self,
        {| heap := heap w ++ [array_elements w lc]; log := log w |}).
Proof. intros Hmemo. unfold Cursor_toArray. by rewrite Hmemo. Qed.

Lemma Cursor_index_cached self w lc :
  _index self = Some lc ->
  Cursor_index coll self w =
  Done (VNull, Some (length (heap w)), self,
        {| heap := heap w ++ [array_elements w lc]; log := log w |}).
Proof. intros Hmemo. unfold Cursor_index. by rewrite Hmemo. Qed.

(** After [toArray] handed over an array, the cursor holds a memo: an
    array of its own with the same elements. *)
Lemma Cursor_toArray_memo fuel self w err l1 c1 w1 :
  cursor_wf self w ->
  Cursor_toArray coll fuel self w = Done (err, Some l1, c1, w1) ->
  err = VNull /\
  l1 < length (heap w1) /\
  exists lc, _toArray c1 = Some lc /\ lc < length (heap w1) /\ lc <> l1 /\
             array_elements w1 lc = array_elements w1 l1.
Proof.
  intros [_ Hwf] H. unfold Cursor_toArray in H.
  destruct (_toArray self) as [lc|] eqn:Hmemo.
  - cbn in H. inv H. specialize (Hwf lc eq_refl). cbn.
    rewrite length_app. cbn. split; [done|]. split; [lia|].
    exists lc. rewrite Hmemo. split; [done|]. split; [lia|]. split; [lia|].
    rewrite array_elements_new. by apply array_elements_old.
  - unfold bind at 1 in H. unfold lift, toArray in H.
    destruct (toArray_iterator fuel (nextObject coll fuel) [] (source self) (log w))
      as [| |[[[e list] s'] t']] eqn:Harr; try done.
    apply toArray_iterator_inv in Harr as (xs & ending & Hs & Hres).
    destruct ending as [|x].
    + destruct Hres as [-> ->]. cbn in H. inv H. cbn.
      rewrite !length_app. cbn. split; [done|]. split; [lia|].
      exists (length (heap w)). split; [done|]. split; [lia|]. split; [lia|].
      unfold array_elements. cbn.
      rewrite !(list_lookup_middle (heap w) [] xs) by done. cbn.
      rewrite lookup_app_l by (rewrite length_app; cbn; lia).
      rewrite (list_lookup_middle (heap w) [] xs) by done.
      by rewrite (list_lookup_middle (heap w ++ [xs]) [] xs)
        by (rewrite length_app; cbn; lia).
    + destruct Hres as [-> ->]. rewrite (streams_fails_truthy _ _ _ _ _ _ _ Hs) in H.
      by inv H.
Qed.

(** The same for [index], when the backend delivered a list of keys. *)
Lemma Cursor_index_memo self w err l1 c1 w1 :
  cursor_wf self w ->
  is_Some (snd (collection_index coll)) ->
  Cursor_index coll self w = Done (err, Some l1, c1, w1) ->
  err = VNull /\
  l1 < length (heap w1) /\
  exists lc, _index c1 = Some lc /\ lc < length (heap w1) /\ lc <> l1 /\
             array_elements w1 lc = array_elements w1 l1.
Proof.
  intros [Hwf _] [ids Hids] H. unfold Cursor_index in H.
  destruct (_index self) as [lc|] eqn:Hmemo.
  - cbn in H. inv H. specialize (Hwf lc eq_refl). cbn.
    rewrite length_app. cbn. split; [done|]. split; [lia|].
    exists lc. rewrite Hmemo. split; [done|]. split; [lia|]. split; [lia|].
    rewrite array_elements_new. by apply array_elements_old.
  - unfold bind at 1 in H. unfold lift, call_index in H.
    destruct (collection_index coll) as [e list]. cbn in Hids. subst list.
    cbn in H. destruct (truthy e); [by inv H|]. cbn in H. inv H. cbn.
    rewrite !length_app. cbn. split; [done|]. split; [lia|].
    exists (length (heap w)). split; [done|]. split; [lia|]. split; [lia|].
    unfold array_elements. cbn.
    rewrite !(list_lookup_middle (heap w) [] ids) by done. cbn.
    rewrite lookup_app_l by (rewrite length_app; cbn; lia).
    rewrite (list_lookup_middle (heap w) [] ids) by done.
    by rewrite (list_lookup_middle (heap w ++ [ids]) [] ids)
      by (rewrite length_app; cbn; lia).
Qed.

(** The methods that restructure or reset the chain leave the memos and
    the world alone. *)
Lemma restructuring_call_frame fuel m self w self' w' :
  restructures m = true ->
  call coll SortOp_parser fuel m self w = Done (self', w') ->
  _toArray self' = _toArray self /\ _index self' = _index self /\ w' = w.
Proof.
  intros Hm H. destruct m; try done; cbn in H.
  - unfold Cursor_rewind in H.
    destruct (no_source (source self)); [done|].
    destruct (rewind (source self)); try done. by inv H.
  - by inv H.
  - by inv H.
  - by inv H.
Qed.

(** *** What a method call leaves of the heap and of the memos *)

Lemma extends_same_heap w w' : heap w' = heap w -> extends w w'.
Proof. intros H. exists []. by rewrite app_nil_r. Qed.

Lemma extends_refl w : extends w w.
Proof. by apply extends_same_heap. Qed.

Lemma extends_trans w1 w2 w3 : extends w1 w2 -> extends w2 w3 -> extends w1 w3.
Proof.
  intros [h1 H1] [h2 H2]. exists (h1 ++ h2). by rewrite H2, H1, app_assoc.
Qed.

Lemma extends_elements w w' l :
  extends w w' -> l < length (heap w) -> array_elements w' l = array_elements w l.
Proof.
  intros [h' Hh] Hl. unfold array_elements. by rewrite Hh, lookup_app_l.
Qed.

Lemma Cursor_toArray_frame fuel self w r self' w' :
  Cursor_toArray coll fuel self w = Done (r, self', w') ->
  extends w w' /\ keeps_memos self self'.
Proof.
  unfold Cursor_toArray, keeps_memos. destruct (_toArray self) as [lc|] eqn:Hmemo.
  - cbn. intros H. inv H. split; [by eexists|]. by rewrite Hmemo.
  - unfold bind at 1, lift.
    destruct (toArray coll fuel (source self) (log w)) as [| |[[[e list] s'] t']];
      try done.
    destruct (truthy e).
    + intros H. inv H. split; [by apply extends_same_heap|done].
    + destruct list; cbn; intros H; inv H; cbn;
        (split; [eexists; cbn; by rewrite <- ?app_assoc|done]).
Qed.

Lemma Cursor_index_frame self w r self' w' :
  Cursor_index coll self w = Done (r, self', w') ->
  extends w w' /\ keeps_memos self self'.
Proof.
  unfold Cursor_index, keeps_memos. destruct (_index self) as [lc|] eqn:Hmemo.
  - cbn. intros H. inv H. split; [by eexists|]. by rewrite Hmemo.
  - unfold bind at 1, lift, call_index.
    destruct (collection_index coll) as [e list]. cbn.
    destruct (truthy e).
    + intros H. inv H. split; [by apply extends_same_heap|done].
    + destruct list; cbn; intros H; inv H; cbn;
        (split; [eexists; cbn; by rewrite <- ?app_assoc|done]).
Qed.

Lemma Cursor_count_frame fuel self w r self' w' :
  Cursor_count coll fuel self w = Done (r, self', w') ->
  extends w w' /\ keeps_memos self self'.
Proof.
  unfold Cursor_count. unfold bind at 1.
  destruct (is_original_Source (source self)).
  - destruct (Cursor_index coll self w) as [| |[[[e list] c1] w1]] eqn:Hget; try done.
    apply Cursor_index_frame in Hget.
    destruct (truthy e); [by intros H; inv H|].
    destruct list; [|done]. cbn. by intros H; inv H.
  - destruct (Cursor_toArray coll fuel self w) as [| |[[[e list] c1] w1]] eqn:Hget;
      try done.
    apply Cursor_toArray_frame in Hget.
    destruct (truthy e); [by intros H; inv H|].
    destruct list; [|done]. cbn. by intros H; inv H.
Qed.

Lemma call_frame fuel m self w self' w' :
  call coll SortOp_parser fuel m self w = Done (self', w') ->
  extends w w' /\ keeps_memos self self'.
Proof.
  destruct m; cbn [call].
  - unfold Cursor_nextObject. destruct (no_source (source self)); [done|].
    unfold bind, lift.
    destruct (nextObject coll fuel (source self) (log w)) as [| |[[r s'] t']]; try done.
    intros H. inv H. split; [by apply extends_same_heap|done].
  - unfold Cursor_rewind. destruct (no_source (source self)); [done|].
    destruct (rewind (source self)); try done.
    intros H. inv H. split; [by apply extends_same_heap|done].
  - unfold bind.
    destruct (Cursor_index coll self w) as [| |[[r c1] w1]] eqn:Hget; try done.
    intros H. inv H. by eapply Cursor_index_frame.
  - unfold bind.
    destruct (Cursor_toArray coll fuel self w) as [| |[[r c1] w1]] eqn:Hget; try done.
    intros H. inv H. by eapply Cursor_toArray_frame.
  - unfold bind.
    destruct (Cursor_count coll fuel self w) as [| |[[r c1] w1]] eqn:Hget; try done.
    intros H. inv H. by eapply Cursor_count_frame.
  - intros H. inv H. split; [by apply extends_same_heap|done].
  - intros H. inv H. split; [by apply extends_same_heap|done].
  - intros H. inv H. split; [by apply extends_same_heap|done].
Qed.

Lemma calls_frame fuel ms :
  forall self w self' w',
  calls coll SortOp_parser fuel ms self w = Done (self', w') ->
  extends w w' /\ keeps_memos self self'.
Proof.
  induction ms as [|m ms IH]; intros self w self' w' H.
  - inv H. split; [apply extends_refl|done].
  - cbn [calls] in H. unfold bind in H.
    destruct (call coll SortOp_parser fuel m self w) as [| |[c1 w1]] eqn:Hcall; try done.
    apply call_frame in Hcall as [Hext [Ha Hi]].
    apply IH in H as [Hext' [Ha' Hi']].
    split; [by eapply extends_trans|]. split; eauto.
Qed.

(** *** No method throws on a cursor whose chain is [defined] *)

Lemma Cursor_toArray_safe fuel self w :
  defined (source self) = true ->
  match Cursor_toArray coll fuel self w with
  | Thrown _ => False
  | OutOfFuel => True
  | Done (err, list, self', _) =>
      defined (source self') = true /\ (truthy err = false -> is_Some list)
  end.
Proof.
  intros Hs. unfold Cursor_toArray. destruct (_toArray self); [by cbn; eauto|].
  unfold bind at 1. unfold lift, toArray.
  pose proof (toArray_iterator_safe _ (nextObject_safe coll fuel) fuel []
                (source self) (log w) Hs) as H.
  destruct (toArray_iterator fuel (nextObject coll fuel) [] (source self) (log w))
    as [| |[[[e l] s1] t1]]; try done. cbn in H.
  destruct (truthy e) eqn:He; [cbn; by rewrite He|].
  destruct l; cbn; eauto.
Qed.

Lemma Cursor_index_safe self w :
  match Cursor_index coll self w with
  | Thrown _ => False
  | OutOfFuel => True
  | Done (err, list, self', _) =>
      source self' = source self /\ (truthy err = false -> is_Some list)
  end.
Proof.
  unfold Cursor_index. destruct (_index self); [by cbn; eauto|].
  unfold bind at 1. unfold lift, call_index.
  destruct (collection_index coll) as [e l]. cbn.
  destruct (truthy e) eqn:He; [cbn; by rewrite He|].
  destruct l; cbn; eauto.
Qed.

Lemma call_safe fuel m self w :
  defined (source self) = true ->
  match call coll SortOp_parser fuel m self w with
  | Thrown _ => False
  | OutOfFuel => True
  | Done (self', _) => defined (source self') = true
  end.
Proof.
  intros Hs. destruct m; cbn [call]; try done.
  - unfold Cursor_nextObject. rewrite (defined_has_source _ Hs).
    unfold bind, lift.
    pose proof (nextObject_safe coll fuel (source self) (log w) Hs) as H.
    by destruct (nextObject coll fuel (source self) (log w)) as [| |[[r s1] t1]].
  - unfold Cursor_rewind. rewrite (defined_has_source _ Hs).
    by destruct (rewind_safe _ Hs) as (s' & -> & Hs').
  - unfold bind. pose proof (Cursor_index_safe self w) as H.
    destruct (Cursor_index coll self w) as [| |[[[e l] c1] w1]]; try done.
    destruct H as [Hsrc _]. cbn. by rewrite Hsrc.
  - unfold bind. pose proof (Cursor_toArray_safe fuel self w Hs) as H.
    destruct (Cursor_toArray coll fuel self w) as [| |[[[e l] c1] w1]]; try done.
    by destruct H.
  - unfold bind at 1. unfold Cursor_count. unfold bind at 1.
    destruct (is_original_Source (source self)).
    + pose proof (Cursor_index_safe self w) as H.
      destruct (Cursor_index coll self w) as [| |[[[e l] c1] w1]]; try done.
      destruct H as [Hsrc Hl]. destruct (truthy e); [cbn; by rewrite Hsrc|].
      destruct (Hl eq_refl) as [l' ->]. cbn. by rewrite Hsrc.
    + pose proof (Cursor_toArray_safe fuel self w Hs) as H.
      destruct (Cursor_toArray coll fuel self w) as [| |[[[e l] c1] w1]]; try done.
      destruct H as [Hsrc Hl]. destruct (truthy e); [done|].
      by destruct (Hl eq_refl) as [l' ->].
Qed.

Lemma calls_safe fuel ms :
  forall self w,
  defined (source self) = true ->
  match calls coll SortOp_parser fuel ms self w with
  | Thrown _ => False
  | OutOfFuel => True
  | Done (self', _) => defined (source self') = true
  end.
Proof.
  induction ms as [|m ms IH]; intros self w Hs; [done|].
  cbn [calls]. unfold bind. pose proof (call_safe fuel m self w Hs) as H.
  destruct (call coll SortOp_parser fuel m self w) as [| |[c1 w1]]; try done.
  by apply IH.
Qed.

Lemma find_defined condition projection :
  defined (source (find condition projection)) = true.
Proof. unfold find, Cursor_new. cbn. by repeat case_match. Qed.

(** *** A stage that holds something that is no function *)


(** *** Every request to a cursor whose chain is [defined] is answered *)

Lemma Cursor_nextObject_answers fuel self w :
  defined (source self) = true ->
  depth (source self) + budget coll (source self) < fuel ->
  exists r self' w', Cursor_nextObject coll fuel self w = Done (r, self', w').
Proof.
  intros Hs Hfuel. unfold Cursor_nextObject. rewrite (defined_has_source _ Hs).
  destruct (nextObject_answers coll fuel (source self) (log w) Hs Hfuel)
    as (r & s' & t' & Hrun & _).
  unfold bind, lift. rewrite Hrun. by eexists _, _, _.
Qed.

Lemma Cursor_toArray_answers fuel self w :
  defined (source self) = true ->
  depth (source self) + budget coll (source self) < fuel ->
  exists err list self' w', Cursor_toArray coll fuel self w = Done (err, list, self', w').
Proof.
  intros Hs Hfuel. unfold Cursor_toArray.
  destruct (_toArray self); [by eexists _, _, _, _|].
  destruct (toArray_answers coll fuel (source self) (log w) Hs Hfuel)
    as (e & l & s' & t' & Hrun & _).
  unfold bind at 1. unfold lift. rewrite Hrun.
  destruct (truthy e); [by eexists _, _, _, _|].
  destruct l; cbn; by eexists _, _, _, _.
Qed.

(** *** The memos of a cursor made by [find] always exist in the heap *)

Lemma cursor_wf_extends self w w' :
  cursor_wf self w -> extends w w' -> cursor_wf self w'.
Proof.
  intros [Hi Ha] [h' Hh]. split; intros l Hl; rewrite Hh, length_app.
  - specialize (Hi l Hl). lia.
  - specialize (Ha l Hl). lia.
Qed.

Lemma Cursor_toArray_wf fuel self w r self' w' :
  cursor_wf self w ->
  Cursor_toArray coll fuel self w = Done (r, self', w') ->
  cursor_wf self' w'.
Proof.
  intros Hwf. unfold Cursor_toArray. destruct (_toArray self) as [lc|] eqn:Hmemo.
  - cbn. intros H. inv H. eapply cursor_wf_extends; [done|]. by eexists.
  - unfold bind at 1, lift.
    destruct (toArray coll fuel (source self) (log w)) as [| |[[[e list] s'] t']];
      try done.
    destruct Hwf as [Hi Ha]. destruct (truthy e).
    + intros H. inv H. by split.
    + destruct list; cbn; intros H; inv H; split; cbn; intros l' Hl;
        rewrite ?length_app; cbn; try done; try (specialize (Hi l' Hl); lia).
      inv Hl. lia.
Qed.

Lemma Cursor_index_wf self w r self' w' :
  cursor_wf self w ->
  Cursor_index coll self w = Done (r, self', w') ->
  cursor_wf self' w'.
Proof.
  intros Hwf. unfold Cursor_index. destruct (_index self) as [lc|] eqn:Hmemo.
  - cbn. intros H. inv H. eapply cursor_wf_extends; [done|]. by eexists.
  - unfold bind at 1, lift, call_index.
    destruct (collection_index coll) as [e list]. cbn.
    destruct Hwf as [Hi Ha]. destruct (truthy e).
    + intros H. inv H. by split.
    + destruct list; cbn; intros H; inv H; split; cbn; intros l' Hl;
        rewrite ?length_app; cbn; try done; try (specialize (Ha l' Hl); lia).
      inv Hl. lia.
Qed.

Lemma call_wf fuel m self w self' w' :
  cursor_wf self w ->
  call coll SortOp_parser fuel m self w = Done (self', w') ->
  cursor_wf self' w'.
Proof.
  intros Hwf. destruct m; cbn [call].
  - unfold Cursor_nextObject. destruct (no_source (source self)); [done|].
    unfold bind, lift.
    destruct (nextObject coll fuel (source self) (log w)) as [| |[[r s'] t']]; try done.
    intros H. by inv H.
  - unfold Cursor_rewind. destruct (no_source (source self)); [done|].
    destruct (rewind (source self)); try done. intros H. by inv H.
  - unfold bind.
    destruct (Cursor_index coll self w) as [| |[[r c1] w1]] eqn:Hget; try done.
    intros H. inv H. by eapply Cursor_index_wf.
  - unfold bind.
    destruct (Cursor_toArray coll fuel self w) as [| |[[r c1] w1]] eqn:Hget; try done.
    intros H. inv H. by eapply Cursor_toArray_wf.
  - unfold bind at 1. unfold Cursor_count. unfold bind at 1.
    destruct (is_original_Source (source self)).
    + destruct (Cursor_index coll self w) as [| |[[[e list] c1] w1]] eqn:Hget; try done.
      apply Cursor_index_wf in Hget; [|done].
      destruct (truthy e); [by intros H; inv H|].
      destruct list; [|done]. cbn. by intros H; inv H.
    + destruct (Cursor_toArray coll fuel self w) as [| |[[[e list] c1] w1]] eqn:Hget;
        try done.
      apply Cursor_toArray_wf in Hget; [|done].
      destruct (truthy e); [by intros H; inv H|].
      destruct list; [|done]. cbn. by intros H; inv H.
  - intros H. by inv H.
  - intros H. by inv H.
  - intros H. by inv H.
Qed.

Lemma calls_wf fuel ms :
  forall self w self' w',
  cursor_wf self w ->
  calls coll SortOp_parser fuel ms self w = Done (self', w') ->
  cursor_wf self' w'.
Proof.
  induction ms as [|m ms IH]; intros self w self' w' Hwf H.
  - by inv H.
  - cbn [calls] in H. unfold bind in H.
    destruct (call coll SortOp_parser fuel m self w) as [| |[c1 w1]] eqn:Hcall; try done.
    eapply IH; [|done]. by eapply call_wf.
Qed.

Lemma find_wf condition projection w : cursor_wf (find condition projection) w.
Proof. by split. Qed.

End CursorFacts.

Lemma example_holds : holds example_collection example_ids example_items.
Proof. repeat split; repeat constructor. Defined.

(** ** The properties the specification states *)

Section Claims.

Variable coll : collection.
Variable ConditionOp_parser : jsarg predicate -> jsarg predicate.
Variable ProjectionOp_parser : jsarg mapping -> jsarg mapping.
Variable SortOp_parser : jsarg comparator -> comparator.

Local Abbreviation find := (find ConditionOp_parser ProjectionOp_parser).

(** C1.  On a collection that keeps [items] under [ids], for every
    condition argument (also an absent one) [find(condition).count()] and
    [find(condition).toArray()] answer with the same error slot, and when
    there is no error the number [count] reports is the length of the
    array [toArray] hands over.  On the key-count path (the head of the
    chain is still the original Source) [count] makes one [index] call and
    no [read], and reports the number of items [toArray] materializes. *)
Theorem count_is_toArray_length ids items condition fuel w :
  holds coll ids items ->
  length ids + 2 <= fuel ->
  exists err list c1 w1 n c2 w2,
    Cursor_toArray coll fuel (find condition absent) w = Done (err, list, c1, w1) /\
    Cursor_count coll fuel (find condition absent) w = Done ((err, n), c2, w2) /\
    (truthy err = false ->
     exists l, list = Some l /\
               n = VNum (Z.of_nat (length (array_elements w1 l)))) /\
    (is_original_Source (source (find condition absent)) = true ->
     truthy err = false /\
     log w2 = log w ++ [EvIndex] /\
     n = VNum (Z.of_nat (length items)) /\
     exists l, list = Some l /\ array_elements w1 l = items).
Proof.
  intros Hholds Hfuel.
  pose proof Hholds as (He & Hl & Hreads).
  pose proof (Forall2_length _ _ _ Hreads) as Hlen.
  destruct (collection_index coll) as [e l0] eqn:Hindex. cbn in He, Hl. subst l0.
  pose proof (Source_None_streams coll ids items Hholds) as Hsrc.
  destruct (find_memo ConditionOp_parser ProjectionOp_parser condition absent)
    as [Hmemo Hmemo'].
  pose proof (find_source ConditionOp_parser ProjectionOp_parser condition) as Hhead.
  assert (source (find condition absent) = Source None \/
          (exists p, source (find condition absent) = Condition (Source None) (Func p)) \/
          (exists v, source (find condition absent) = Condition (Source None) (Data v)))
    as [Hcase|[[p Hcase]|[v Hcase]]].
  { rewrite Hhead. destruct (truthy_arg condition); [|by left].
    destruct (truthy_arg (ConditionOp_parser condition)); [|by left].
    destruct (ConditionOp_parser condition); eauto. }
  - (* the bare Source: the key-count path *)
    epose proof (Cursor_toArray_streams coll fuel (find condition absent) w items Ends
                   (Source (Some [])) _ Hmemo) as Harr.
    rewrite Hcase in Harr. specialize (Harr (Hsrc fuel (log w) ltac:(lia)) ltac:(lia)).
    pose proof (Cursor_count_keys coll fuel _ w e ids Hcase Hmemo' Hindex He) as Hcnt.
    eexists _, _, _, _, _, _, _. split; [exact Harr|]. split; [exact Hcnt|].
    split; [|intros _; split; [done|]; split; [done|]; split; [by rewrite Hlen|]];
      eexists; (split; [done|]); rewrite array_elements_fresh; by rewrite ?Hlen.
  - (* a Condition stage: count materializes *)
    destruct fuel as [|fuel]; [lia|].
    pose proof (Condition_streams coll fuel p _ _ _ _ _ _
                  (Hsrc fuel (log w) ltac:(lia)) ltac:(lia)) as Hs.
    epose proof (Cursor_toArray_streams coll (S fuel) (find condition absent) w _ Ends
                   _ _ Hmemo) as Harr.
    rewrite Hcase in Harr. specialize (Harr Hs).
    assert (length (List.filter (fun x => truthy (p x)) items) <= length items)
      as Hfl by apply List.filter_length_le.
    specialize (Harr ltac:(lia)).
    pose proof (Cursor_count_toArray coll (S fuel) _ w _ _ _ _
                  ltac:(by rewrite Hcase) Harr) as Hcnt.
    cbn [truthy] in Hcnt.
    eexists _, _, _, _, _, _, _. split; [exact Harr|]. split; [exact Hcnt|].
    split; [by eauto|]. by rewrite Hcase.
  - (* a condition that is no function: both report the error *)
    destruct fuel as [|fuel]; [lia|].
    assert (streams (nextObject coll (S fuel)) (Condition (Source None) (Data v)) (log w)
              [] (Fails (new_Error "invalid condition: " v))
              (Condition (Source None) (Data v)) (log w)) as Hs
      by by eapply streams_fail.
    epose proof (Cursor_toArray_streams coll (S fuel) (find condition absent) w _ _
                   _ _ Hmemo) as Harr.
    rewrite Hcase in Harr. specialize (Harr Hs ltac:(cbn; lia)). cbn beta iota in Harr.
    pose proof (Cursor_count_toArray coll (S fuel) _ w _ _ _ _
                  ltac:(by rewrite Hcase) Harr) as Hcnt.
    cbn [truthy new_Error] in Hcnt.
    eexists _, _, _, _, _, _, _. split; [exact Harr|]. split; [exact Hcnt|].
    split; [done|]. by rewrite Hcase.
Qed.

(** C2.  For every predicate function [p] (which the parser hands back
    as it is), [find(p).toArray()] hands over the items of the collection
    that satisfy [p], in enumeration order.  Over any upstream stage, the
    Condition stage streams the matching upstream items in order and ends
    as the upstream ends: with the end of the sequence, or with the
    upstream error, the upstream left as its failing request left it.
    One round of [next]: an error is handed on at once, the end of the
    sequence is signalled, a match is delivered, anything else is
    discarded and the upstream is asked again. *)
Theorem Condition_yields_the_matches ids items (p : predicate) fuel w :
  holds coll ids items ->
  ConditionOp_parser (Func p) = Func p ->
  length ids + 2 <= fuel ->
  (exists l c' w',
     Cursor_toArray coll fuel (find (Func p) absent) w = Done (VNull, Some l, c', w') /\
     array_elements w' l = List.filter (fun x => truthy (p x)) items) /\
  (forall f s t xs e s' t',
     streams (nextObject coll f) s t xs e s' t' -> length xs < f ->
     streams (nextObject coll (S f)) (Condition s (Func p)) t
             (List.filter (fun x => truthy (p x)) xs) e (Condition s' (Func p)) t') /\
  (forall (up : pull) f s t err item s1 t1,
     up s t = Done ((err, item), s1, t1) ->
     Condition_next (S f) up p s t =
     if truthy err then Done ((err, VUndefined), s1, t1)
     else if negb (truthy item) then Done (EOF, s1, t1)
     else if truthy (p item) then Done ((VNull, item), s1, t1)
     else Condition_next f up p s1 t1).
Proof.
  intros Hholds Hparse Hfuel. split; [|split].
  - pose proof Hholds as (_ & _ & Hreads).
    pose proof (Forall2_length _ _ _ Hreads) as Hlen.
    destruct fuel as [|fuel]; [lia|].
    pose proof (Condition_streams coll fuel p _ _ _ _ _ _
                  (Source_None_streams coll ids items Hholds fuel (log w) ltac:(lia))
                  ltac:(lia)) as Hs.
    assert (length (List.filter (fun x => truthy (p x)) items) <= length items)
      as Hfl by apply List.filter_length_le.
    epose proof (Cursor_toArray_streams coll (S fuel) (find (Func p) absent) w _ Ends
                   _ _ eq_refl) as Harr.
    rewrite find_source in Harr. cbn [truthy_arg] in Harr. rewrite Hparse in Harr.
    specialize (Harr Hs ltac:(lia)).
    eexists _, _, _. split; [exact Harr|]. apply array_elements_fresh.
  - intros. by apply Condition_streams.
  - intros up f s t err item s1 t1 Hup. cbn [Condition_next]. step_with Hup.
    by repeat case_match.
Qed.

(** C3.  On a collection that keeps the [N] items [items], for every
    [k >= 0], [find().offset(k).toArray()] hands over the items from
    position [k] on, [max(0, N - k)] of them, with no error; every request
    made after that signals the end of the sequence.  When [k >= N], every
    request to the fresh chain signals the end of the sequence. *)
Theorem Offset_yields_the_tail ids items (k : Z) fuel w :
  holds coll ids items ->
  (0 <= k)%Z ->
  length ids + 2 <= fuel ->
  (exists l c' w',
     Cursor_toArray coll fuel (Cursor_offset k (find absent absent)) w =
       Done (VNull, Some l, c', w') /\
     array_elements w' l = drop (Z.to_nat k) items /\
     Z.of_nat (length (array_elements w' l)) = Z.max 0 (Z.of_nat (length items) - k) /\
     forall n t, exists rs,
       nextObjects coll fuel n (source c') t = Done (rs, source c', t) /\
       Forall is_EOS rs) /\
  ((Z.of_nat (length items) <= k)%Z ->
   forall n t, exists rs s' t',
     nextObjects coll fuel (S n) (source (Cursor_offset k (find absent absent))) t =
       Done (rs, s', t') /\
     Forall is_EOS rs).
Proof.
  intros Hholds Hk Hfuel.
  pose proof Hholds as (_ & _ & Hreads).
  pose proof (Forall2_length _ _ _ Hreads) as Hlen.
  destruct fuel as [|[|fuel]]; [lia..|].
  assert (forall t, exists ready',
            streams (nextObject coll (S (S fuel))) (Offset (Source None) k false) t
                    (drop (Z.to_nat k) items) Ends
                    (Offset (Source (Some [])) k ready')
                    (t ++ EvIndex :: map EvRead ids)) as Hs.
  { intros t. apply Offset_streams; [|lia].
    apply Source_None_streams; [done|lia]. }
  assert (forall ready' n t, exists rs,
            nextObjects coll (S (S fuel)) n (Offset (Source (Some [])) k ready') t =
              Done (rs, Offset (Source (Some [])) k ready', t) /\
            Forall is_EOS rs) as Hafter.
  { intros ready' n t. exists (replicate n EOF). split.
    - apply nextObjects_fixed. intros. apply Offset_exhausted.
    - by apply Forall_replicate. }
  split.
  - destruct (Hs (log w)) as [ready' Hs'].
    epose proof (Cursor_toArray_streams coll (S (S fuel))
                   (Cursor_offset k (find absent absent)) w _ Ends _ _ eq_refl Hs') as Harr.
    rewrite length_drop in Harr. specialize (Harr ltac:(lia)).
    eexists _, _, _. split; [exact Harr|]. rewrite array_elements_fresh.
    split; [done|]. split; [rewrite length_drop; lia|]. apply Hafter.
  - intros HkN n t. destruct (Hs t) as [ready' Hs'].
    rewrite drop_ge in Hs' by lia.
    inversion Hs' as [? ? err item ? ? Hfirst He Hi| |]; subst.
    destruct (Hafter ready' n (t ++ EvIndex :: map EvRead ids)) as (rs & Hrest & HEOS).
    exists ((err, item) :: rs), (Offset (Source (Some [])) k ready'),
           (t ++ EvIndex :: map EvRead ids).
    split; [|by constructor].
    change (source (Cursor_offset k (find absent absent)))
      with (Offset (Source None) k false).
    cbn [nextObjects]. unfold bind at 1. rewrite Hfirst. cbn beta iota.
    unfold bind. by rewrite Hrest.
Qed.

(** C4.  On a collection that keeps the [N] items [items], for every
    [k >= 0], [find().limit(k).toArray()] hands over the first [min(N, k)]
    items, in their order.  Over any upstream stage, a Limit stage serves
    at most [k] items, and once [k] requests were made every later request
    signals the end of the sequence and leaves the upstream stage and the
    trace of backend calls as they are. *)
Theorem Limit_yields_the_prefix ids items (k : Z) fuel w :
  holds coll ids items ->
  (0 <= k)%Z ->
  length ids + 2 <= fuel ->
  (exists l c' w',
     Cursor_toArray coll fuel (Cursor_limit k (find absent absent)) w =
       Done (VNull, Some l, c', w') /\
     array_elements w' l = take (Z.to_nat k) items /\
     Z.of_nat (length (array_elements w' l)) = Z.min (Z.of_nat (length items)) k) /\
  (forall f n s t rs s' t',
     nextObjects coll f n (Limit s k k) t = Done (rs, s', t') ->
     served rs <= Z.to_nat k /\
     ((k <= Z.of_nat n)%Z ->
      exists s2,
        s' = Limit s2 k (k - Z.of_nat n) /\
        forall f' m,
          nextObjects coll (S f') m s' t' =
          Done (replicate m EOF, Limit s2 k (k - Z.of_nat n - Z.of_nat m), t'))).
Proof.
  intros Hholds Hk Hfuel.
  pose proof Hholds as (_ & _ & Hreads).
  pose proof (Forall2_length _ _ _ Hreads) as Hlen.
  split.
  - destruct fuel as [|fuel]; [lia|].
    destruct (Limit_streams coll fuel k _ _ _ _ _ _
                (Source_None_streams coll ids items Hholds fuel (log w) ltac:(lia))
                k Hk) as (s2 & t2 & rest' & Hs).
    assert ((if decide (Z.to_nat k <= length items) then Ends else Ends) = Ends) as Hend
      by by case_decide.
    rewrite Hend in Hs.
    epose proof (Cursor_toArray_streams coll (S fuel)
                   (Cursor_limit k (find absent absent)) w _ Ends _ _ eq_refl Hs) as Harr.
    rewrite length_take in Harr. specialize (Harr ltac:(lia)).
    eexists _, _, _. split; [exact Harr|]. rewrite array_elements_fresh.
    split; [done|]. rewrite length_take. lia.
  - intros f n s t rs s' t' Hn.
    apply Limit_nextObjects_rest in Hn as [[s2 ->] Hserved].
    split; [done|]. intros Hkn. exists s2. split; [done|]. intros f' m.
    apply Limit_exhausted_nextObjects. lia.
Qed.

(** C6.  When [toArray] has handed over an array [l1], a second [toArray]
    on the same cursor, with no [rewind] between, hands over another array
    [l2] whose elements are those [l1] had when it was handed over,
    whatever the caller has done to [l1] since; the second call makes no
    backend call.  Mutating [l2] leaves [l1] as it is, and the memo of the
    cursor is a third array, which neither mutation reaches. *)
Theorem toArray_twice fuel fuel' self w err l1 c1 w1 :
  cursor_wf self w ->
  Cursor_toArray coll fuel self w = Done (err, Some l1, c1, w1) ->
  forall a1,
  exists l2 w2,
    Cursor_toArray coll fuel' c1 (array_mutate l1 a1 w1) = Done (VNull, Some l2, c1, w2) /\
    array_elements w2 l2 = array_elements w1 l1 /\
    l2 <> l1 /\
    log w2 = log w1 /\
    (forall a2, array_elements (array_mutate l2 a2 w2) l1 = a1) /\
    (exists lc, _toArray c1 = Some lc /\ lc <> l1 /\ lc <> l2 /\
       forall a2, array_elements (array_mutate l2 a2 w2) lc = array_elements w1 l1).
Proof.
  intros Hwf Hfirst a1.
  destruct (Cursor_toArray_memo coll fuel self w err l1 c1 w1 Hwf Hfirst)
    as (_ & Hl1 & lc & Hmemo & Hlc & Hne & Hsame).
  rewrite (Cursor_toArray_cached coll fuel' c1 _ lc Hmemo).
  eexists _, _. split; [done|].
  assert (length (heap (array_mutate l1 a1 w1)) = length (heap w1)) as Hlen
    by (cbn; apply length_insert).
  rewrite Hlen.
  assert (array_elements (array_mutate l1 a1 w1) lc = array_elements w1 l1) as Hcopy
    by (rewrite array_elements_mutate_ne by done; done).
  rewrite Hcopy.
  split; [rewrite <- Hlen; apply array_elements_new|].
  split; [lia|]. split; [done|]. split.
  - intros a2. rewrite array_elements_mutate_ne by lia.
    rewrite (array_elements_old (array_mutate l1 a1 w1)) by (rewrite Hlen; lia).
    by apply array_elements_mutate.
  - exists lc. split; [done|]. split; [done|]. split; [lia|].
    intros a2. rewrite array_elements_mutate_ne by lia.
    rewrite (array_elements_old (array_mutate l1 a1 w1)) by (rewrite Hlen; lia).
    done.
Qed.

(** C8.  When [toArray] reports an error, it hands over no list: the
    chain delivered some items and then the error, which is handed over as
    the stage reported it; the chain and the trace are left as the failing
    request left them; the heap and the memos are as before, the memo of
    [toArray] still unset.  Whenever the chain fails after any number of
    items, [toArray] reports that error; and with fuel for the chain
    [toArray] always answers. *)
Theorem toArray_reports_the_error_alone fuel self w :
  (forall err list c1 w1,
     Cursor_toArray coll fuel self w = Done (err, list, c1, w1) ->
     truthy err = true ->
     list = None /\
     _toArray self = None /\ _toArray c1 = None /\ _index c1 = _index self /\
     heap w1 = heap w /\
     exists xs,
       streams (nextObject coll fuel) (source self) (log w) xs (Fails err)
               (source c1) (log w1)) /\
  (forall xs err s' t',
     _toArray self = None ->
     streams (nextObject coll fuel) (source self) (log w) xs (Fails err) s' t' ->
     length xs < fuel ->
     Cursor_toArray coll fuel self w =
     Done (err, None, set_source self s', {| heap := heap w; log := t' |})) /\
  (defined (source self) = true ->
   depth (source self) + budget coll (source self) < fuel ->
   exists err list c1 w1, Cursor_toArray coll fuel self w = Done (err, list, c1, w1)).
Proof.
  split; [|split].
  - intros err list c1 w1 H Herr. unfold Cursor_toArray in H.
    destruct (_toArray self) as [lc|] eqn:Hmemo; [cbn in H; by inv H|].
    unfold bind at 1 in H. unfold lift, toArray in H.
    destruct (toArray_iterator fuel (nextObject coll fuel) [] (source self) (log w))
      as [| |[[[e list'] s'] t']] eqn:Harr; try done.
    apply toArray_iterator_inv in Harr as (xs & ending & Hs & Hres).
    destruct ending as [|x]; destruct Hres as [-> ->].
    + cbn in H. by inv H.
    + rewrite (streams_fails_truthy _ _ _ _ _ _ _ Hs) in H. inv H. cbn.
      repeat split; try done. by exists xs.
  - intros xs err s' t' Hmemo Hs Hfuel.
    by rewrite (Cursor_toArray_streams coll fuel self w xs (Fails err) s' t').
  - apply Cursor_toArray_answers.
Qed.

(** C9.  [rewind], [sort], [offset] and [limit] change neither memo nor
    anything else outside the chain.  Once [toArray] has handed over an
    array, after any further method calls on the cursor (restructuring or
    not) [toArray] hands over a new array with the same elements, keeps
    the cursor as it is and makes no backend call.  The same holds for
    [index] on a backend whose [index] delivers a list. *)
Theorem memo_outlives_restructuring :
  (forall fuel m self w self' w',
     restructures m = true ->
     call coll SortOp_parser fuel m self w = Done (self', w') ->
     _toArray self' = _toArray self /\ _index self' = _index self /\ w' = w) /\
  (forall fuel self w err l c1 w1 ms fuel1 c2 w2 fuel2,
     cursor_wf self w ->
     Cursor_toArray coll fuel self w = Done (err, Some l, c1, w1) ->
     calls coll SortOp_parser fuel1 ms c1 w1 = Done (c2, w2) ->
     exists l' w',
       Cursor_toArray coll fuel2 c2 w2 = Done (VNull, Some l', c2, w') /\
       array_elements w' l' = array_elements w1 l /\
       log w' = log w2) /\
  (forall self w err l c1 w1 ms fuel1 c2 w2,
     cursor_wf self w ->
     is_Some (snd (collection_index coll)) ->
     Cursor_index coll self w = Done (err, Some l, c1, w1) ->
     calls coll SortOp_parser fuel1 ms c1 w1 = Done (c2, w2) ->
     exists l' w',
       Cursor_index coll c2 w2 = Done (VNull, Some l', c2, w') /\
       array_elements w' l' = array_elements w1 l /\
       log w' = log w2).
Proof.
  split; [|split].
  - intros. by eapply restructuring_call_frame.
  - intros fuel self w err l c1 w1 ms fuel1 c2 w2 fuel2 Hwf Hfirst Hcalls.
    destruct (Cursor_toArray_memo coll fuel self w err l c1 w1 Hwf Hfirst)
      as (_ & Hl & lc & Hmemo & Hlc & Hne & Hsame).
    apply calls_frame in Hcalls as [Hext [Hkeep _]].
    rewrite (Cursor_toArray_cached coll fuel2 c2 w2 lc (Hkeep lc Hmemo)).
    eexists _, _. split; [done|]. split; [|done].
    rewrite array_elements_new. rewrite <- Hsame. by apply extends_elements.
  - intros self w err l c1 w1 ms fuel1 c2 w2 Hwf Hlist Hfirst Hcalls.
    destruct (Cursor_index_memo coll self w err l c1 w1 Hwf Hlist Hfirst)
      as (_ & Hl & lc & Hmemo & Hlc & Hne & Hsame).
    apply calls_frame in Hcalls as [Hext [_ Hkeep]].
    rewrite (Cursor_index_cached coll c2 w2 lc (Hkeep lc Hmemo)).
    eexists _, _. split; [done|]. split; [|done].
    rewrite array_elements_new. rewrite <- Hsame. by apply extends_elements.
Qed.

(** C10.  The chain of a cursor made by [find] has a stage at its head,
    and so has the chain after any sequence of method calls; no call in
    the sequence throws, in particular not [nextObject] or [rewind] for
    want of a source: [rewind] succeeds, and [nextObject] is answered
    whenever it has fuel for the chain. *)
Theorem find_cursor_always_has_a_source condition projection ms fuel w :
  no_source (source (find condition projection)) = false /\
  match calls coll SortOp_parser fuel ms (find condition projection) w with
  | Thrown _ => False
  | OutOfFuel => True
  | Done (c', w') =>
      no_source (source c') = false /\
      (forall fuel' e, Cursor_nextObject coll fuel' c' w' <> Thrown e) /\
      (forall fuel',
         depth (source c') + budget coll (source c') < fuel' ->
         exists r c'' w'', Cursor_nextObject coll fuel' c' w' = Done (r, c'', w'')) /\
      (exists c'', Cursor_rewind c' = Done c'')
  end.
Proof.
  pose proof (find_defined ConditionOp_parser ProjectionOp_parser condition projection)
    as Hdef.
  split; [by apply defined_has_source|].
  pose proof (calls_safe coll SortOp_parser fuel ms _ w Hdef) as H.
  destruct (calls coll SortOp_parser fuel ms (find condition projection) w)
    as [| |[c' w']]; try done.
  split; [by apply defined_has_source|]. split.
  - intros fuel' e Hthrow.
    pose proof (call_safe coll SortOp_parser fuel' MNextObject c' w' H) as Hsafe.
    cbn [call] in Hsafe. unfold bind in Hsafe. by rewrite Hthrow in Hsafe.
  - split; [intros fuel' Hfuel; by apply Cursor_nextObject_answers|].
    unfold Cursor_rewind. rewrite (defined_has_source _ H).
    destruct (rewind_safe _ H) as (s' & -> & _). by eexists.
Qed.




End Claims.

(** ** Sort objects *)

(** On numbers the natural ordering is the numeric one. *)
Lemma natural_compare_numbers x y :
  (natural_compare (VNum x) (VNum y) <= 0)%Z <-> (x <= y)%Z.
Proof.
  cbn. destruct (Z.compare_spec x y); cbn; lia.
Qed.

(** The natural ordering of the model is the one the specification
    words: numeric on numbers, lexicographic on strings. *)
Lemma natural_compare_value_lt k u v :
  has_kind k u = true -> has_kind k v = true ->
  (natural_compare u v < 0)%Z -> value_lt u v.
Proof.
  destruct k, u, v; try done; cbn.
  - destruct (Z.compare_spec n n0); cbn; lia.
  - destruct (String.compare s s0); cbn; (done || lia).
Qed.

Lemma value_lt_le u v : value_lt u v -> value_le u v.
Proof.
  destruct u, v; try done; cbn; [lia|]. by intros ->.
Qed.

Lemma value_le_refl k u : has_kind k u = true -> value_le u u.
Proof.
  destruct k, u; try done; cbn; [lia|]. by rewrite String_compare_refl.
Qed.

Lemma value_lt_irrefl u : ~ value_lt u u.
Proof.
  destruct u; cbn; try (by intros []); [lia|]. by rewrite String_compare_refl.
Qed.

Lemma StronglySorted_impl (P : value -> Prop) (R R' : value -> value -> Prop) l :
  Forall P l ->
  (forall a b, P a -> P b -> R a b -> R' a b) ->
  StronglySorted R l -> StronglySorted R' l.
Proof.
  intros HP Himpl. induction 1 as [|a l Hsorted IH Hall]; [constructor|].
  inversion HP as [|? ? Pa Pl]; subst. constructor; [by apply IH|].
  clear IH Hsorted HP. induction Hall as [|b l Hab _ IH]; [constructor|].
  inversion Pl; subst. constructor; [by apply Himpl|by apply IH].
Qed.

(** Where the comparator of a sort object lets [a] stand before [b], [a]
    precedes [b] in the order the sort object asks for. *)
Lemma ordered_by_precedes kinds order a b :
  directions order ->
  conforms kinds order a = true -> conforms kinds order b = true ->
  ordered_by order a b -> precedes order a b.
Proof.
  induction order as [|[field d] order IH]; [done|].
  intros Hd [Hfa Ha]%conforms_cons [Hfb Hb]%conforms_cons Hab.
  inversion Hd as [|? ? Hdir Hd']; subst.
  unfold field_conforms in Hfa, Hfb. unfold ordered_by in Hab.
  cbn [compare_fields] in Hab. unfold compare_field in Hab. cbn [fst snd] in *.
  cbn [precedes].
  pose proof (natural_compare_antisym (item_get a field) (item_get b field)) as Hanti.
  destruct Hdir as [-> | ->]; cbn [directed] in Hab.
  - destruct (Z.eqb_spec (natural_compare (item_get a field) (item_get b field)) 0)
      as [Heq|Hne].
    + right. split; [by eapply natural_compare_eq|by apply IH].
    + left. eapply natural_compare_value_lt; [done..|lia].
  - destruct (Z.eqb_spec (- natural_compare (item_get a field) (item_get b field)) 0)
      as [Heq|Hne].
    + right. split; [eapply natural_compare_eq; [done..|lia]|by apply IH].
    + left. eapply natural_compare_value_lt; [done..|lia].
Qed.

(** On items whose sorted fields each hold values of one kind, the
    comparator of a sort object is a consistent comparison function. *)
Lemma compare_fields_consistent kinds order l :
  Forall (fun item => conforms kinds order item = true) l ->
  consistent (compare_fields order) l.
Proof.
  rewrite List.Forall_forall. intros Hl a b c Ha%Hl Hb%Hl Hc%Hl.
  pose proof (compare_fields_antisym order a a).
  pose proof (compare_fields_antisym order a b).
  pose proof (compare_fields_antisym order a c).
  pose proof (compare_fields_antisym order b c).
  pose proof (compare_fields_trans kinds order a b c Ha Hb Hc).
  pose proof (compare_fields_trans kinds order c b a Hc Hb Ha).
  pose proof (compare_fields_trans kinds order c a b Hc Ha Hb).
  pose proof (compare_fields_trans kinds order a c b Ha Hc Hb).
  unfold ordered_by in *. lia.
Qed.

(** C5.  With the sort-object comparator of the model of [SortOp.parser],
    on a collection that keeps [items], each field of the sort object
    holding values of one kind (numbers or strings) in all items:
    [find().sort(order).toArray()] hands over a permutation of [items],
    sorted by the comparator, which is a consistent comparison function
    on the items.  With directions [1] and [-1], every item of the result
    precedes every later one in the order the sort object asks for:
    smaller first on an ascending field, greater first on a descending
    one, by [<] on numbers and lexicographically on strings, a later
    field deciding only between items that have the same value in the
    earlier ones.  So for a single ascending field the field is
    non-decreasing along the result, for a single descending field
    non-increasing, and items with the same value in the first field are
    ordered by the remaining fields.  The first request to the Sort stage
    reads the whole collection, sorts the buffer and serves its first
    item; the later requests serve the rest of the buffer and make no
    backend call. *)
Theorem Sort_yields_the_items_in_order
    coll ConditionOp_parser ProjectionOp_parser ids items order kinds fuel w :
  holds coll ids items ->
  Forall (fun item => conforms kinds order item = true) items ->
  length ids + 2 <= fuel ->
  let cursor :=
    Cursor_sort Modelled.SortOp_parser (Data (VObj order))
                (find ConditionOp_parser ProjectionOp_parser absent absent) in
  (exists l c' w',
     Cursor_toArray coll fuel cursor w = Done (VNull, Some l, c', w') /\
     array_elements w' l = js_sort (compare_fields order) items /\
     Permutation (array_elements w' l) items /\
     StronglySorted (ordered_by order) (array_elements w' l) /\
     consistent (compare_fields order) items /\
     (directions order ->
      StronglySorted (precedes order) (array_elements w' l)) /\
     (forall field, order = [(field, VNum 1)] ->
        StronglySorted
          (fun a b => value_le (item_get a field) (item_get b field))
          (array_elements w' l)) /\
     (forall field, order = [(field, VNum (-1))] ->
        StronglySorted
          (fun a b => value_le (item_get b field) (item_get a field))
          (array_elements w' l)) /\
     (forall field direction order',
        order = (field, direction) :: order' -> directions order ->
        StronglySorted
          (fun a b => item_get a field = item_get b field -> precedes order' a b)
          (array_elements w' l))) /\
  (exists first rest,
     shift (js_sort (compare_fields order) items) = (first, rest) /\
     nextObject coll fuel (source cursor) (log w) =
       Done ((VNull, first),
             Sort (Source (Some [])) (compare_fields order) (Some rest),
             log w ++ EvIndex :: map EvRead ids) /\
     forall t,
       streams (nextObject coll fuel)
               (Sort (Source (Some [])) (compare_fields order) (Some rest)) t
               rest Ends
               (Sort (Source (Some [])) (compare_fields order) (Some [])) t).
Proof.
  intros Hholds Hkinds Hfuel cursor.
  pose proof Hholds as (_ & _ & Hreads).
  pose proof (Forall2_length _ _ _ Hreads) as Hlen.
  destruct fuel as [|fuel]; [lia|].
  pose proof (Source_None_streams coll ids items Hholds fuel (log w) ltac:(lia)) as Hsrc.
  pose proof (js_sort_Permutation (compare_fields order) items) as Hperm.
  pose proof (js_sort_sorted kinds order items Hkinds) as Hsorted.
  assert (Forall (fun item => conforms kinds order item = true)
            (js_sort (compare_fields order) items)) as Hkinds'
    by (by rewrite Hperm).
  assert (directions order ->
          StronglySorted (precedes order) (js_sort (compare_fields order) items))
    as Hprecedes.
  { intros Hd. eapply StronglySorted_impl; [exact Hkinds'| |exact Hsorted].
    intros a b Ha Hb. by apply ordered_by_precedes with (kinds := kinds). }
  split.
  - pose proof (Sort_streams coll fuel (compare_fields order) _ _ _ _ _ Hsrc ltac:(lia))
      as Hs.
    epose proof (Cursor_toArray_streams coll (S fuel) cursor w _ Ends _ _ eq_refl Hs)
      as Harr.
    rewrite (Permutation_length Hperm) in Harr. specialize (Harr ltac:(lia)).
    eexists _, _, _. split; [exact Harr|]. rewrite array_elements_fresh.
    split; [done|]. split; [done|]. split; [done|].
    split; [by eapply compare_fields_consistent|]. split; [done|].
    split; [|split].
    + intros field ->.
      eapply StronglySorted_impl;
        [exact Hkinds'| |apply Hprecedes; repeat constructor; by left].
      intros a b [Ha _]%conforms_cons _ [Hlt|[Heq _]]; cbn [fst snd] in *.
      * by apply value_lt_le.
      * rewrite <- Heq. by eapply value_le_refl.
    + intros field ->.
      eapply StronglySorted_impl;
        [exact Hkinds'| |apply Hprecedes; repeat constructor; by right].
      intros a b [Ha _]%conforms_cons _ [Hlt|[Heq _]]; cbn [fst snd] in *.
      * by apply value_lt_le.
      * rewrite <- Heq. by eapply value_le_refl.
    + intros field direction order' -> Hd.
      eapply StronglySorted_weaken; [|by apply Hprecedes].
      intros a b Hab Htie. cbn [precedes] in Hab. rewrite Htie in Hab.
      destruct Hab as [Hlt|[_ Hrest]]; [|done].
      inversion Hd as [|? ? [Hdir|Hdir] _]; cbn [snd] in Hdir; subst;
        by apply value_lt_irrefl in Hlt.
  - destruct (shift (js_sort (compare_fields order) items)) as [first rest] eqn:Hshift.
    exists first, rest. split; [done|]. split.
    + change (source cursor) with (Sort (Source None) (compare_fields order) None).
      rewrite (Sort_first_request coll fuel (compare_fields order) _ _ _ _ _ Hsrc)
        by lia.
      by rewrite Hshift.
    + intros t. apply Sort_serving.
      assert (Forall (fun x => truthy x = true) (js_sort (compare_fields order) items))
        as Hall.
      { rewrite Hperm. by eapply streams_truthy. }
      destruct (js_sort (compare_fields order) items) as [|x l']; cbn in Hshift.
      * by inv Hshift.
      * inv Hshift. by inv Hall.
Qed.

(** ** The properties on the collection of the example scenario *)

Lemma count_is_toArray_length_example :
  holds example_collection example_ids example_items /\
  length example_ids + 2 <= 6 /\
  exists err list c1 w1 n c2 w2,
    Cursor_toArray example_collection 6
      (example_find (Data (VObj [("decimal", VNum 123)])) absent) empty_world =
      Done (err, list, c1, w1) /\
    Cursor_count example_collection 6
      (example_find (Data (VObj [("decimal", VNum 123)])) absent) empty_world =
      Done ((err, n), c2, w2) /\
    (truthy err = false ->
     exists l, list = Some l /\
               n = VNum (Z.of_nat (length (array_elements w1 l)))) /\
    (is_original_Source
       (source (example_find (Data (VObj [("decimal", VNum 123)])) absent)) = true ->
     truthy err = false /\
     log w2 = log empty_world ++ [EvIndex] /\
     n = VNum (Z.of_nat (length example_items)) /\
     exists l, list = Some l /\ array_elements w1 l = example_items).
Proof.
  split; [exact example_holds|]. split; [cbn; lia|].
  apply (count_is_toArray_length example_collection Modelled.ConditionOp_parser
           Modelled.ProjectionOp_parser example_ids example_items).
  - exact example_holds.
  - cbn. lia.
Defined.

Lemma Condition_yields_the_matches_example :
  holds example_collection example_ids example_items /\
  Modelled.ConditionOp_parser (Func example_predicate) = Func example_predicate /\
  length example_ids + 2 <= 6 /\
  exists l c' w',
    Cursor_toArray example_collection 6 (example_find (Func example_predicate) absent)
      empty_world = Done (VNull, Some l, c', w') /\
    array_elements w' l =
      List.filter (fun x => truthy (example_predicate x)) example_items.
Proof.
  split; [exact example_holds|]. split; [reflexivity|]. split; [cbn; lia|].
  apply (Condition_yields_the_matches example_collection Modelled.ConditionOp_parser
           Modelled.ProjectionOp_parser example_ids example_items example_predicate
           6 empty_world).
  - exact example_holds.
  - reflexivity.
  - cbn. lia.
Defined.

Lemma Offset_yields_the_tail_example :
  holds example_collection example_ids example_items /\
  (0 <= 2)%Z /\
  length example_ids + 2 <= 6 /\
  exists l c' w',
    Cursor_toArray example_collection 6 (Cursor_offset 2 (example_find absent absent))
      empty_world = Done (VNull, Some l, c', w') /\
    array_elements w' l = drop (Z.to_nat 2) example_items /\
    Z.of_nat (length (array_elements w' l)) =
      Z.max 0 (Z.of_nat (length example_items) - 2) /\
    forall n t, exists rs,
      nextObjects example_collection 6 n (source c') t = Done (rs, source c', t) /\
      Forall is_EOS rs.
Proof.
  split; [exact example_holds|]. split; [lia|]. split; [cbn; lia|].
  apply (Offset_yields_the_tail example_collection Modelled.ConditionOp_parser
           Modelled.ProjectionOp_parser example_ids example_items 2 6 empty_world).
  - exact example_holds.
  - lia.
  - cbn. lia.
Defined.

Lemma Limit_yields_the_prefix_example :
  holds example_collection example_ids example_items /\
  (0 <= 2)%Z /\
  length example_ids + 2 <= 6 /\
  exists l c' w',
    Cursor_toArray example_collection 6 (Cursor_limit 2 (example_find absent absent))
      empty_world = Done (VNull, Some l, c', w') /\
    array_elements w' l = take (Z.to_nat 2) example_items /\
    Z.of_nat (length (array_elements w' l)) =
      Z.min (Z.of_nat (length example_items)) 2.
Proof.
  split; [exact example_holds|]. split; [lia|]. split; [cbn; lia|].
  apply (Limit_yields_the_prefix example_collection Modelled.ConditionOp_parser
           Modelled.ProjectionOp_parser example_ids example_items 2 6 empty_world).
  - exact example_holds.
  - lia.
  - cbn. lia.
Defined.

Lemma Sort_yields_the_items_in_order_example :
  holds example_collection example_ids example_items /\
  Forall (fun item => conforms example_kinds example_order item = true) example_items /\
  length example_ids + 2 <= 6 /\
  directions example_order /\
  exists l c' w',
    Cursor_toArray example_collection 6
      (Cursor_sort Modelled.SortOp_parser (Data (VObj example_order))
                   (example_find absent absent)) empty_world =
      Done (VNull, Some l, c', w') /\
    array_elements w' l =
      [example_item "BAR" 111; example_item "QUX" 123; example_item "FOO" 123;
       example_item "BAZ" 999] /\
    Permutation (array_elements w' l) example_items /\
    StronglySorted (ordered_by example_order) (array_elements w' l) /\
    StronglySorted (precedes example_order) (array_elements w' l).
Proof.
  assert (directions example_order) as Hdirections
    by (constructor; [by left|]; constructor; [by right|]; constructor).
  split; [exact example_holds|]. split; [by repeat constructor|]. split; [cbn; lia|].
  split; [exact Hdirections|].
  destruct (Sort_yields_the_items_in_order example_collection
              Modelled.ConditionOp_parser Modelled.ProjectionOp_parser
              example_ids example_items example_order example_kinds 6 empty_world)
    as [(l & c' & w' & Harr & Hsort & Hperm & Hsorted & _ & Hprecedes & _) _].
  - exact example_holds.
  - by repeat constructor.
  - cbn. lia.
  - exists l, c', w'. split; [exact Harr|]. split; [exact Hsort|].
    split; [exact Hperm|]. split; [exact Hsorted|exact (Hprecedes Hdirections)].
Defined.

Lemma toArray_twice_example :
  cursor_wf (example_find absent absent) empty_world /\
  Cursor_toArray example_collection 6 (example_find absent absent) empty_world =
    Done (VNull, Some 1, example_cursor_after, example_world_after) /\
  forall a1,
  exists l2 w2,
    Cursor_toArray example_collection 0 example_cursor_after
      (array_mutate 1 a1 example_world_after) =
      Done (VNull, Some l2, example_cursor_after, w2) /\
    array_elements w2 l2 = array_elements example_world_after 1 /\
    l2 <> 1 /\
    log w2 = log example_world_after /\
    (forall a2, array_elements (array_mutate l2 a2 w2) 1 = a1) /\
    (exists lc, _toArray example_cursor_after = Some lc /\ lc <> 1 /\ lc <> l2 /\
       forall a2, array_elements (array_mutate l2 a2 w2) lc =
                  array_elements example_world_after 1).
Proof.
  assert (cursor_wf (example_find absent absent) empty_world) as Hwf by by split.
  split; [exact Hwf|]. split; [reflexivity|].
  apply (toArray_twice example_collection 6 0 (example_find absent absent) empty_world
           VNull 1 example_cursor_after example_world_after).
  - exact Hwf.
  - reflexivity.
Defined.

Lemma toArray_reports_the_error_alone_example :
  let failed : Cursor :=
    {| source := Source (Some [VStr "qux"]); _index := None; _toArray := None |} in
  let after : world :=
    {| heap := []; log := [EvIndex; EvRead (VStr "foo"); EvRead (VStr "gone")] |} in
  Cursor_toArray flaky_collection 6 (example_find absent absent) empty_world =
    Done (VError "not found: gone", None, failed, after) /\
  truthy (VError "not found: gone") = true /\
  _toArray failed = None /\
  heap after = heap empty_world /\
  exists xs,
    streams (nextObject flaky_collection 6) (source (example_find absent absent))
            (log empty_world) xs (Fails (VError "not found: gone"))
            (source failed) (log after).
Proof.
  intros failed after.
  assert (Cursor_toArray flaky_collection 6 (example_find absent absent) empty_world =
          Done (VError "not found: gone", None, failed, after)) as Hrun by reflexivity.
  split; [exact Hrun|]. split; [reflexivity|].
  destruct (proj1 (toArray_reports_the_error_alone flaky_collection 6
                     (example_find absent absent) empty_world)
              (VError "not found: gone") None failed after Hrun eq_refl)
    as (_ & _ & Hmemo & _ & Hheap & Hstream).
  by split; [|split].
Defined.

Lemma memo_outlives_restructuring_example :
  let ms := [MRewind; MSort (Data (VObj example_order)); MLimit 1] in
  let restructured : Cursor :=
    {| source := Limit (Sort (Source None) (compare_fields example_order) None) 1 1;
       _index := None; _toArray := Some 0 |} in
  cursor_wf (example_find absent absent) empty_world /\
  Cursor_toArray example_collection 6 (example_find absent absent) empty_world =
    Done (VNull, Some 1, example_cursor_after, example_world_after) /\
  calls example_collection Modelled.SortOp_parser 6 ms example_cursor_after
        example_world_after = Done (restructured, example_world_after) /\
  exists l' w',
    Cursor_toArray example_collection 0 restructured example_world_after =
      Done (VNull, Some l', restructured, w') /\
    array_elements w' l' = array_elements example_world_after 1 /\
    log w' = log example_world_after.
Proof.
  intros ms restructured.
  assert (cursor_wf (example_find absent absent) empty_world) as Hwf by by split.
  split; [exact Hwf|]. split; [reflexivity|]. split; [reflexivity|].
  apply (proj1 (proj2 (memo_outlives_restructuring example_collection
                         Modelled.SortOp_parser))
           6 (example_find absent absent) empty_world VNull 1 example_cursor_after
           example_world_after ms 6 restructured example_world_after 0).
  - exact Hwf.
  - reflexivity.
  - reflexivity.
Defined.



(** * More properties of the cursor and of its callers *)

(** ** Requests that deliver a prefix *)

Section MoreStageFacts.

Variable coll : collection.

Lemma delivers_streams up s t xs s1 t1 ys e s' t' :
  delivers up s t xs s1 t1 ->
  streams up s1 t1 ys e s' t' ->
  streams up s t (xs ++ ys) e s' t'.
Proof.
  induction 1 as [|s t err item s2 t2 xs s1 t1 Hup He Hi _ IH]; intros Hs; [done|].
  cbn. eapply streams_item; [done..|]. by apply IH.
Qed.

Lemma delivers_truthy up s t xs s' t' :
  delivers up s t xs s' t' -> Forall (fun x => truthy x = true) xs.
Proof. induction 1; by constructor. Qed.

(** A Source that has its keys reads them one a request, in order. *)
Lemma Source_delivers ids1 items1 ids2 :
  reads coll ids1 items1 ->
  forall fuel t, 0 < fuel ->
  delivers (nextObject coll fuel) (Source (Some (ids1 ++ ids2))) t items1
           (Source (Some ids2)) (t ++ map EvRead ids1).
Proof.
  induction 1 as [|id item ids items (He & Hi & Ht) _ IH]; intros [|fuel] t Hfuel; try lia.
  - cbn. rewrite app_nil_r. constructor.
  - destruct (collection_read coll id) as [e i] eqn:Hread. cbn in He, Hi. subst i.
    eapply delivers_cons with (err := e); [|done|done|].
    + cbn. unfold bind, call_read. by rewrite Hread.
    + cbn [map]. replace (t ++ EvRead id :: map EvRead ids)
        with ((t ++ [EvRead id]) ++ map EvRead ids) by by rewrite <- app_assoc.
      apply IH. lia.
Qed.

(** A fresh Source does the same after it asked for the keys, provided
    there is a first request. *)
Lemma Source_None_delivers err ids1 items1 ids2 :
  collection_index coll = (err, Some (ids1 ++ ids2)) -> truthy err = false ->
  reads coll ids1 items1 -> items1 <> [] ->
  forall fuel t, 0 < fuel ->
  delivers (nextObject coll fuel) (Source None) t items1
           (Source (Some ids2)) (t ++ EvIndex :: map EvRead ids1).
Proof.
  intros Hindex He Hreads Hne fuel t Hfuel.
  pose proof (Source_delivers _ _ ids2 Hreads fuel (t ++ [EvIndex]) Hfuel) as Hd.
  destruct items1 as [|item items1]; [done|].
  rewrite <- app_assoc in Hd. cbn [app] in Hd.
  inversion Hd as [|? ? ? ? ? ? ? ? ? Hup]; subst.
  rewrite <- (Source_None_nextObject coll err) in Hup by done.
  by eapply delivers_cons.
Qed.

(** [next] skips what does not match and answers with the first match. *)
Lemma Condition_next_first_match up p s t pre x s' t' :
  delivers up s t (pre ++ [x]) s' t' ->
  Forall (fun y => truthy (p y) = false) pre ->
  truthy (p x) = true ->
  forall fuel, length pre < fuel ->
  Condition_next fuel up p s t = Done ((VNull, x), s', t').
Proof.
  intros Hd Hpre Hx. revert s t Hd.
  induction Hpre as [|y pre Hy _ IH]; intros s t Hd [|fuel] Hfuel;
    cbn [length] in Hfuel; try lia; cbn [app] in Hd;
    inversion Hd as [|? ? err item s1 t1 ? ? ? Hup He Hi Hrest]; subst;
    cbn [Condition_next]; step_with Hup; rewrite He, Hi; cbn [negb].
  - inv Hrest. by rewrite Hx.
  - rewrite Hy. apply IH; [done|lia].
Qed.

(** A Limit stage with room for the whole upstream hands it through. *)
Lemma Limit_streams_within fuel limit s t xs e s' t' :
  streams (nextObject coll fuel) s t xs e s' t' ->
  forall rest, (Z.of_nat (length xs) < rest)%Z ->
  streams (nextObject coll (S fuel)) (Limit s limit rest) t xs e
          (Limit s' limit (rest - Z.of_nat (length xs) - 1)) t'.
Proof.
  induction 1 as [s t err item s' t' Hup He Hi
                 |s t err item s' t' Hup He
                 |s t err item s1 t1 xs e s' t' Hup He Hi _ IH];
    intros rest Hrest; cbn [length] in *.
  - apply streams_end with (err := err) (item := item); [|done..].
    cbn [nextObject]. replace (rest >? 0)%Z with true by lia. step_with Hup.
    by replace (rest - Z.of_nat 0 - 1)%Z with (rest - 1)%Z by lia.
  - apply streams_fail with (item := item); [|done].
    cbn [nextObject]. replace (rest >? 0)%Z with true by lia. step_with Hup.
    by replace (rest - Z.of_nat 0 - 1)%Z with (rest - 1)%Z by lia.
  - apply streams_item with (err := err) (s1 := Limit s1 limit (rest - 1)) (t1 := t1);
      [|done..|].
    + cbn [nextObject]. replace (rest >? 0)%Z with true by lia. by step_with Hup.
    + replace (rest - Z.of_nat (S (length xs)) - 1)%Z
        with (rest - 1 - Z.of_nat (length xs) - 1)%Z by lia.
      apply IH. lia.
Qed.

(** A Limit stage hands through what its upstream delivers while it has
    requests left. *)
Lemma Limit_delivers fuel limit s t xs s' t' :
  delivers (nextObject coll fuel) s t xs s' t' ->
  forall rest, (Z.of_nat (length xs) <= rest)%Z ->
  delivers (nextObject coll (S fuel)) (Limit s limit rest) t xs
           (Limit s' limit (rest - Z.of_nat (length xs))) t'.
Proof.
  induction 1 as [s t|s t err item s1 t1 xs s' t' Hup He Hi _ IH];
    intros rest Hrest; cbn [length] in *.
  - replace (rest - Z.of_nat 0)%Z with rest by lia. constructor.
  - apply delivers_cons with (err := err) (s1 := Limit s1 limit (rest - 1)) (t1 := t1);
      [|done..|].
    + cbn [nextObject]. replace (rest >? 0)%Z with true by lia. by step_with Hup.
    + replace (rest - Z.of_nat (S (length xs)))%Z
        with (rest - 1 - Z.of_nat (length xs))%Z by lia.
      apply IH. lia.
Qed.

(** A Limit stage that served all it may signals the end of the sequence
    and leaves its upstream where the last item was taken. *)
Lemma Limit_takes fuel limit s t xs s' t' :
  delivers (nextObject coll fuel) s t xs s' t' ->
  streams (nextObject coll (S fuel)) (Limit s limit (Z.of_nat (length xs))) t xs Ends
          (Limit s' limit (-1)) t'.
Proof.
  intros Hd. rewrite <- (app_nil_r xs) at 2.
  eapply delivers_streams.
  - apply Limit_delivers; [done|]. reflexivity.
  - apply streams_end with (err := VUndefined) (item := VUndefined); [|done..].
    rewrite Limit_exhausted by lia. do 4 f_equal. lia.
Qed.

(** *** Projection *)

Lemma Projection_delivers fuel f s t xs s' t' :
  delivers (nextObject coll fuel) s t xs s' t' ->
  Forall (fun x => truthy (f x) = true) xs ->
  delivers (nextObject coll (S fuel)) (Projection s (Func f)) t (map f xs)
           (Projection s' (Func f)) t'.
Proof.
  induction 1 as [s t|s t err item s1 t1 xs s' t' Hup He Hi _ IH]; intros Hf.
  - constructor.
  - inversion Hf as [|? ? Hx Hxs]; subst. cbn [map].
    apply delivers_cons with (err := VNull) (s1 := Projection s1 (Func f)) (t1 := t1);
      [|done|done|by apply IH].
    cbn [nextObject]. step_with Hup. by rewrite He, Hi.
Qed.

(** The Projection stage ends as its upstream ends. *)
Lemma Projection_ends fuel f s t e s' t' :
  streams (nextObject coll fuel) s t [] e s' t' ->
  streams (nextObject coll (S fuel)) (Projection s (Func f)) t [] e
          (Projection s' (Func f)) t'.
Proof.
  inversion 1 as [? ? err item ? ? Hup He Hi|? ? err item ? ? Hup He|]; subst.
  - apply streams_end with (err := VUndefined) (item := VUndefined); [|done..].
    cbn [nextObject]. step_with Hup. by rewrite He, Hi.
  - apply streams_fail with (item := VUndefined); [|done].
    cbn [nextObject]. step_with Hup. by rewrite He.
Qed.

Lemma streams_split up s t xs e s' t' :
  streams up s t xs e s' t' ->
  exists s1 t1, delivers up s t xs s1 t1 /\ streams up s1 t1 [] e s' t'.
Proof.
  induction 1 as [s t err item s' t' Hup He Hi
                 |s t err item s' t' Hup He
                 |s t err item s1 t1 xs e s' t' Hup He Hi _ (s2 & t2 & Hd & Hs)].
  - exists s, t. split; [constructor|]. by eapply streams_end.
  - exists s, t. split; [constructor|]. by eapply streams_fail.
  - exists s2, t2. split; [|done]. by eapply delivers_cons.
Qed.

Lemma Projection_streams fuel f s t xs e s' t' :
  streams (nextObject coll fuel) s t xs e s' t' ->
  Forall (fun x => truthy (f x) = true) xs ->
  streams (nextObject coll (S fuel)) (Projection s (Func f)) t (map f xs) e
          (Projection s' (Func f)) t'.
Proof.
  intros (s1 & t1 & Hd & Hs)%streams_split Hf.
  rewrite <- (app_nil_r (map f xs)).
  eapply delivers_streams; [by apply Projection_delivers|by apply Projection_ends].
Qed.

(** An image that is falsy reads as the end of the sequence. *)
Lemma Projection_truncates fuel f s t pre x s' t' :
  delivers (nextObject coll fuel) s t (pre ++ [x]) s' t' ->
  Forall (fun y => truthy (f y) = true) pre ->
  truthy (f x) = false ->
  streams (nextObject coll (S fuel)) (Projection s (Func f)) t (map f pre) Ends
          (Projection s' (Func f)) t'.
Proof.
  intros Hd Hpre Hx. revert s t Hd.
  induction Hpre as [|y pre Hy _ IH]; intros s t Hd; cbn [app] in Hd;
    inversion Hd as [|? ? err item s1 t1 ? ? ? Hup He Hi Hrest]; subst.
  - inv Hrest. apply streams_end with (err := VNull) (item := f x); [|done..].
    cbn [nextObject]. step_with Hup. by rewrite He, Hi.
  - cbn [map].
    apply streams_item with (err := VNull) (s1 := Projection s1 (Func f)) (t1 := t1);
      [|done|done|by apply IH].
    cbn [nextObject]. step_with Hup. by rewrite He, Hi.
Qed.

(** *** A Source before it asked for the keys *)

Lemma Source_fresh_streams err ids fuel t xs e s' t' :
  collection_index coll = (err, Some ids) -> truthy err = false ->
  streams (nextObject coll fuel) (Source (Some ids)) (t ++ [EvIndex]) xs e s' t' ->
  streams (nextObject coll fuel) (Source None) t xs e s' t'.
Proof.
  intros Hindex He.
  inversion 1 as [? ? ? ? ? ? Hup|? ? ? ? ? ? Hup|? ? ? ? ? ? ? ? ? ? Hup]; subst;
    rewrite <- (Source_None_nextObject coll err) in Hup by done.
  - by eapply streams_end.
  - by eapply streams_fail.
  - by eapply streams_item.
Qed.

(** The requests to a Source up to and with a key that cannot be read. *)
Lemma Source_fails ids1 items1 bad ids2 fuel t :
  reads coll ids1 items1 ->
  truthy (fst (collection_read coll bad)) = true ->
  0 < fuel ->
  streams (nextObject coll fuel) (Source (Some (ids1 ++ bad :: ids2))) t items1
          (Fails (fst (collection_read coll bad))) (Source (Some ids2))
          (t ++ map EvRead (ids1 ++ [bad])).
Proof.
  intros Hreads Hbad Hfuel. rewrite <- (app_nil_r items1).
  eapply delivers_streams; [by apply Source_delivers|].
  destruct fuel as [|fuel]; [lia|].
  destruct (collection_read coll bad) as [e i] eqn:Hread.
  apply streams_fail with (item := i); [|done].
  cbn. unfold bind, call_read. rewrite Hread. cbn.
  by rewrite map_app, app_assoc.
Qed.

End MoreStageFacts.

(** ** What a request leaves of a chain *)

Section Invariance.

Variable coll : collection.

Lemma same_kind_refl s : same_kind s s.
Proof. by split. Qed.

Lemma same_kind_trans s1 s2 s3 : same_kind s1 s2 -> same_kind s2 s3 -> same_kind s1 s3.
Proof. unfold same_kind. intros [? ?] [? ?]. split; congruence. Qed.

Section Loops.

Variable up : pull.
Hypothesis up_keeps :
  forall s t r s' t', up s t = Done (r, s', t') -> same_kind s s' /\ rewind s' = rewind s.

Lemma Condition_next_keeps p fuel :
  forall s t r s' t',
  Condition_next fuel up p s t = Done (r, s', t') ->
  same_kind s s' /\ rewind s' = rewind s.
Proof using up_keeps.
  induction fuel as [|fuel IH]; intros s t r s' t' H; [discriminate|].
  cbn [Condition_next] in H. unfold bind in H.
  destruct (up s t) as [| |[[[err item] s1] t1]] eqn:Hup; try discriminate.
  destruct (up_keeps _ _ _ _ _ Hup) as [Hk Hr]. cbn in H.
  destruct (truthy err); [by inv H|].
  destruct (negb (truthy item)); [by inv H|].
  destruct (truthy (p item)); [by inv H|].
  apply IH in H as [Hk' Hr']. split; [by eapply same_kind_trans|congruence].
Qed.

Lemma Offset_iterator_keeps fuel :
  forall rest s t r s' ready t',
  Offset_iterator fuel up rest s t = Done (r, s', ready, t') ->
  same_kind s s' /\ rewind s' = rewind s.
Proof using up_keeps.
  induction fuel as [|fuel IH]; intros rest s t r s' ready t' H; [discriminate|].
  cbn [Offset_iterator] in H. unfold bind in H.
  destruct (up s t) as [| |[[[err item] s1] t1]] eqn:Hup; try discriminate.
  destruct (up_keeps _ _ _ _ _ Hup) as [Hk Hr]. cbn in H.
  destruct (truthy err); [by inv H|].
  destruct (negb (truthy item)); [by inv H|].
  destruct (rest - 1 >? 0)%Z.
  - apply IH in H as [Hk' Hr']. split; [by eapply same_kind_trans|congruence].
  - destruct (up s1 t1) as [| |[[r2 s2] t2]] eqn:Hup2; try discriminate.
    destruct (up_keeps _ _ _ _ _ Hup2) as [Hk2 Hr2]. inv H.
    split; [by eapply same_kind_trans|congruence].
Qed.

Lemma toArray_iterator_keeps fuel :
  forall buf s t err list s' t',
  toArray_iterator fuel up buf s t = Done (err, list, s', t') ->
  same_kind s s' /\ rewind s' = rewind s.
Proof using up_keeps.
  induction fuel as [|fuel IH]; intros buf s t e list s' t' H; [discriminate|].
  cbn [toArray_iterator] in H. unfold bind in H.
  destruct (up s t) as [| |[[[err item] s1] t1]] eqn:Hup; try discriminate.
  destruct (up_keeps _ _ _ _ _ Hup) as [Hk Hr]. cbn in H.
  destruct (truthy err); [by inv H|].
  destruct (negb (truthy item)); [by inv H|].
  apply IH in H as [Hk' Hr']. split; [by eapply same_kind_trans|congruence].
Qed.

End Loops.

(** A request changes only what [rewind] resets: the keys a Source has
    left, the buffer of a Sort stage, the [ready] flag of an Offset stage
    and the count of a Limit stage. *)
Lemma nextObject_keeps fuel :
  forall s t r s' t',
  nextObject coll fuel s t = Done (r, s', t') ->
  same_kind s s' /\ rewind s' = rewind s.
Proof.
  induction fuel as [|fuel IH]; intros s t r s' t' H; [discriminate|].
  destruct s as [|list|source condition|source sorter list|source offset ready
                |source limit rest|source projection]; cbn [nextObject] in H.
  - discriminate.
  - assert (exists l, s' = Source l) as [l ->]; [|done].
    destruct list as [[|id l]|]; cbn in H.
    + inv H. by eexists.
    + inv H. by eexists.
    + unfold bind, call_index in H. destruct (collection_index coll) as [err list].
      destruct (truthy err); [inv H; by eexists|].
      destruct (default [] list); cbn in H; inv H; by eexists.
  - destruct condition as [v|f]; [by inv H|].
    unfold bind in H.
    destruct (Condition_next _ _ _ _ _) as [| |[[r1 s1] t1]] eqn:Hnext; try discriminate.
    apply (Condition_next_keeps _ IH) in Hnext as [[Hn _] Hr]. inv H.
    split; [done|]. cbn [rewind]. by rewrite Hn, Hr.
  - destruct list as [list|].
    + destruct (shift list). by inv H.
    + unfold bind in H.
      destruct (toArray_iterator _ _ _ _ _) as [| |[[[err list] s1] t1]] eqn:Hnext;
        try discriminate.
      apply (toArray_iterator_keeps _ IH) in Hnext as [_ Hr].
      destruct (truthy err).
      * inv H. split; [done|]. cbn [rewind]. by rewrite Hr.
      * destruct (shift _). inv H. split; [done|]. cbn [rewind]. by rewrite Hr.
  - destruct (ready || (offset <=? 0)%Z); unfold bind in H.
    + destruct (nextObject coll fuel source t) as [| |[[r1 s1] t1]] eqn:Hnext;
        try discriminate.
      apply IH in Hnext as [[Hn _] Hr]. inv H.
      split; [done|]. cbn [rewind]. by rewrite Hn, Hr.
    + destruct (Offset_iterator _ _ _ _ _) as [| |[[[r1 s1] ready1] t1]] eqn:Hnext;
        try discriminate.
      apply (Offset_iterator_keeps _ IH) in Hnext as [[Hn _] Hr]. inv H.
      split; [done|]. cbn [rewind]. by rewrite Hn, Hr.
  - destruct (rest >? 0)%Z; [|by inv H].
    unfold bind in H.
    destruct (nextObject coll fuel source t) as [| |[[r1 s1] t1]] eqn:Hnext;
      try discriminate.
    apply IH in Hnext as [[Hn _] Hr]. inv H.
    split; [done|]. cbn [rewind]. by rewrite Hn, Hr.
  - destruct projection as [v|f]; [by inv H|].
    unfold bind in H.
    destruct (nextObject coll fuel source t) as [| |[[[err item] s1] t1]] eqn:Hnext;
      try discriminate.
    apply IH in Hnext as [[Hn _] Hr]. cbn in H.
    assert (s' = Projection s1 (Func f)) as ->.
    { destruct (truthy err); [by inv H|]. destruct (negb (truthy item)); by inv H. }
    split; [done|]. cbn [rewind]. by rewrite Hn, Hr.
Qed.

Lemma nextObjects_keeps fuel n :
  forall s t rs s' t',
  nextObjects coll fuel n s t = Done (rs, s', t') ->
  same_kind s s' /\ rewind s' = rewind s.
Proof.
  induction n as [|n IH]; intros s t rs s' t' H; cbn [nextObjects] in H.
  - inv H. split; [apply same_kind_refl|done].
  - unfold bind in H.
    destruct (nextObject coll fuel s t) as [| |[[r1 s1] t1]] eqn:Hnext; try discriminate.
    apply nextObject_keeps in Hnext as [Hk Hr].
    destruct (nextObjects coll fuel n s1 t1) as [| |[[rs2 s2] t2]] eqn:Hrest;
      try discriminate.
    apply IH in Hrest as [Hk' Hr']. inv H.
    split; [by eapply same_kind_trans|congruence].
Qed.

(** What [rewind] delivers is a stage, and rewinding it changes nothing. *)
Lemma rewind_idempotent s s0 :
  rewind s = Done s0 -> no_source s0 = false /\ rewind s0 = Done s0.
Proof.
  revert s0.
  induction s as [|list|source IH condition|source IH sorter list|source IH offset ready
                 |source IH limit rest|source IH projection]; intros s0 H;
    cbn [rewind] in H; try discriminate.
  - by inv H.
  - destruct (no_source source); [discriminate|].
    destruct (rewind source) as [| |s1]; try discriminate.
    destruct (IH s1 eq_refl) as [Hn Hr]. inv H.
    split; [done|]. cbn [rewind]. by rewrite Hn, Hr.
  - destruct (rewind source) as [| |s1]; try discriminate.
    destruct (IH s1 eq_refl) as [Hn Hr]. inv H.
    split; [done|]. cbn [rewind]. by rewrite Hr.
  - destruct (no_source source); [discriminate|].
    destruct (rewind source) as [| |s1]; try discriminate.
    destruct (IH s1 eq_refl) as [Hn Hr]. inv H.
    split; [done|]. cbn [rewind]. by rewrite Hn, Hr.
  - destruct (no_source source); [discriminate|].
    destruct (rewind source) as [| |s1]; try discriminate.
    destruct (IH s1 eq_refl) as [Hn Hr]. inv H.
    split; [done|]. cbn [rewind]. by rewrite Hn, Hr.
  - destruct (no_source source); [discriminate|].
    destruct (rewind source) as [| |s1]; try discriminate.
    destruct (IH s1 eq_refl) as [Hn Hr]. inv H.
    split; [done|]. cbn [rewind]. by rewrite Hn, Hr.
Qed.

End Invariance.

(** ** Cursors, once more *)

Section MoreCursorFacts.

Variable coll : collection.

Lemma Cursor_nextObject_step fuel self w r s' t' :
  nextObject coll fuel (source self) (log w) = Done (r, s', t') ->
  Cursor_nextObject coll fuel self w =
  Done (r, set_source self s', {| heap := heap w; log := t' |}).
Proof.
  intros H. unfold Cursor_nextObject.
  destruct (source self) eqn:Hs; cbn [no_source];
    try (unfold bind, lift; by rewrite H).
  destruct fuel; discriminate.
Qed.

(** [each] hands its callback one answer for every item of the sequence
    and then the answer that ends it. *)
Lemma each_iterator_streams fuel s t xs e s' t' :
  streams (nextObject coll fuel) s t xs e s' t' ->
  forall n self w, source self = s -> log w = t -> length xs < n ->
  exists rs last,
    each_iterator n (Cursor_nextObject coll fuel) self w =
      Done (rs ++ [last], set_source self s', {| heap := heap w; log := t' |}) /\
    map snd rs = xs /\
    Forall (fun r => truthy (fst r) = false) rs /\
    match e with
    | Ends => is_EOS last
    | Fails err => fst last = err /\ truthy err = true
    end.
Proof.
  induction 1 as [s t err item s' t' Hup He Hi
                 |s t err item s' t' Hup He
                 |s t err item s1 t1 xs e s' t' Hup He Hi _ IH];
    intros [|n] self w Hs Ht Hn; cbn [length] in Hn; try lia; subst s t;
    cbn [each_iterator]; unfold bind at 1;
    rewrite (Cursor_nextObject_step _ _ _ _ _ _ Hup); rewrite He; cbn [negb andb].
  - rewrite Hi. exists [], (err, item). by repeat split.
  - exists [], (err, item). by repeat split.
  - rewrite Hi.
    destruct (IH n (set_source self s1) {| heap := heap w; log := t1 |})
      as (rs & last & Hrun & Hitems & Herrs & Hlast); [done|done|lia|].
    unfold bind. rewrite Hrun. exists ((err, item) :: rs), last.
    split; [done|]. split; [cbn; by rewrite Hitems|]. split; [by constructor|done].
Qed.

(** On a chain that is [defined], [each] ends: it hands over no more
    items than the chain can deliver, and then one answer that is no
    item. *)
Lemma each_iterator_answers fuel :
  forall n self w,
  defined (source self) = true ->
  depth (source self) + budget coll (source self) < fuel ->
  budget coll (source self) < n ->
  exists rs last self' w',
    each_iterator n (Cursor_nextObject coll fuel) self w = Done (rs ++ [last], self', w') /\
    Forall (fun r => delivers_item r = true) rs /\
    delivers_item last = false /\
    length rs <= budget coll (source self) /\
    heap w' = heap w /\
    defined (source self') = true.
Proof.
  induction n as [|n IH]; intros self w Hdef Hfuel Hn; [lia|].
  destruct (nextObject_answers coll fuel (source self) (log w) Hdef Hfuel)
    as (r & s' & t' & Hup & Hdef' & Hdepth & Hle & Hlt).
  cbn [each_iterator]. unfold bind at 1.
  rewrite (Cursor_nextObject_step _ _ _ _ _ _ Hup). destruct r as [err item].
  change (negb (truthy err) && truthy item) with (delivers_item (err, item)).
  destruct (delivers_item (err, item)) eqn:Hitem.
  - specialize (Hlt eq_refl).
    destruct (IH (set_source self s') {| heap := heap w; log := t' |})
      as (rs & last & self' & w' & Hrun & Hrs & Hlast & Hlen & Hheap & Hdef'');
      [done|cbn; lia|cbn; lia|].
    unfold bind. rewrite Hrun. exists ((err, item) :: rs), last, self', w'.
    split; [done|]. split; [by constructor|]. split; [done|].
    cbn in Hlen |- *. split; [lia|done].
  - exists [], (err, item), (set_source self s'), {| heap := heap w; log := t' |}.
    split; [done|]. split; [constructor|]. split; [done|].
    split; [cbn; lia|done].
Qed.

(** Requests in a row on a cursor whose chain delivers items. *)
Lemma Cursor_nextObjects_delivers fuel s t xs s' t' :
  delivers (nextObject coll fuel) s t xs s' t' ->
  forall self w, source self = s -> log w = t ->
  exists rs,
    Cursor_nextObjects coll fuel (length xs) self w =
      Done (rs, set_source self s', {| heap := heap w; log := t' |}) /\
    map snd rs = xs /\
    Forall (fun r => truthy (fst r) = false) rs.
Proof.
  induction 1 as [s t|s t err item s1 t1 xs s' t' Hup He Hi _ IH];
    intros self w Hs Ht; subst s t; cbn [length Cursor_nextObjects].
  - exists []. destruct self, w. by repeat split.
  - unfold bind at 1. rewrite (Cursor_nextObject_step _ _ _ _ _ _ Hup).
    destruct (IH (set_source self s1) {| heap := heap w; log := t1 |})
      as (rs & Hrun & Hitems & Herrs); [done..|].
    unfold bind. rewrite Hrun. exists ((err, item) :: rs).
    split; [done|]. split; [cbn; by rewrite Hitems|by constructor].
Qed.

End MoreCursorFacts.

(** ** More properties the code shows *)

Section More.

Variable coll : collection.
Variable ConditionOp_parser : jsarg predicate -> jsarg predicate.
Variable ProjectionOp_parser : jsarg mapping -> jsarg mapping.
Variable SortOp_parser : jsarg comparator -> comparator.

Local Abbreviation find := (find ConditionOp_parser ProjectionOp_parser).
Local Abbreviation findOne := (findOne coll ConditionOp_parser ProjectionOp_parser).
Local Abbreviation count := (count coll ConditionOp_parser ProjectionOp_parser).

(** X1.  Cursor.prototype.each: when successive requests to the chain
    deliver the items [xs] and then end, [each] invokes its callback once
    for every item of [xs], in order and with no error, and then exactly
    once more, with the end of the sequence or with the error; after that
    answer it asks no more.  The chain and the trace are left as the
    ending request left them, the heap and the memos are untouched. *)
Theorem each_hands_over_every_answer fuel self w xs e s' t' :
  streams (nextObject coll fuel) (source self) (log w) xs e s' t' ->
  length xs < fuel ->
  exists rs last,
    Cursor_each coll fuel self w =
      Done (rs ++ [last], set_source self s', {| heap := heap w; log := t' |}) /\
    map snd rs = xs /\
    Forall (fun r => truthy (fst r) = false) rs /\
    match e with
    | Ends => is_EOS last
    | Fails err => fst last = err /\ truthy err = true
    end.
Proof.
  intros Hs Hfuel. unfold Cursor_each.
  by eapply each_iterator_streams.
Qed.

(** X2.  Cursor.prototype.each on any chain with no [undefined] stage,
    whatever the backend answers: with fuel for the chain, [each] ends.
    Its callback receives items, no more of them than the chain can
    deliver, and then one answer that is no item (the end of the sequence
    or an error), after which [each] asks no more; the heap is untouched. *)
Theorem each_always_ends fuel self w :
  defined (source self) = true ->
  depth (source self) + budget coll (source self) < fuel ->
  exists rs last self' w',
    Cursor_each coll fuel self w = Done (rs ++ [last], self', w') /\
    Forall (fun r => delivers_item r = true) rs /\
    delivers_item last = false /\
    length rs <= budget coll (source self) /\
    heap w' = heap w.
Proof.
  intros Hdef Hfuel.
  destruct (each_iterator_answers coll fuel fuel self w)
    as (rs & last & self' & w' & Hrun & Hrs & Hlast & Hlen & Hheap & _);
    [done|done|lia|].
  by exists rs, last, self', w'.
Qed.

(** X3.  Requests change nothing that [rewind] does not reset: after any
    number of answered requests to a chain, and after the module function
    [toArray] ran over it, [rewind] delivers what it would have delivered
    before them, and fails when it would have failed.  Rewinding a chain
    that was just rewound changes nothing. *)
Theorem rewind_undoes_the_requests fuel s t :
  (forall n rs s' t',
     nextObjects coll fuel n s t = Done (rs, s', t') -> rewind s' = rewind s) /\
  (forall err list s' t',
     toArray coll fuel s t = Done (err, list, s', t') -> rewind s' = rewind s) /\
  (forall s0, rewind s = Done s0 -> rewind s0 = Done s0).
Proof.
  split; [|split].
  - intros n rs s' t' H. by apply nextObjects_keeps in H as [_ ?].
  - intros err list s' t' H. unfold toArray in H.
    apply toArray_iterator_keeps in H as [_ ?]; [done|].
    apply nextObject_keeps.
  - intros s0 H. by apply rewind_idempotent in H as [_ ?].
Qed.

(** *** findOne and count of find.js *)

Lemma find_condition_source condition p :
  truthy_arg condition = true -> ConditionOp_parser condition = Func p ->
  source (find condition absent) = Condition (Source None) (Func p).
Proof. intros Ht Hp. by rewrite find_source, Ht, Hp. Qed.

Lemma Condition_delivers_first fuel p s t pre x s' t' :
  delivers (nextObject coll fuel) s t (pre ++ [x]) s' t' ->
  Forall (fun y => truthy (p y) = false) pre ->
  truthy (p x) = true ->
  length pre < fuel ->
  delivers (nextObject coll (S fuel)) (Condition s (Func p)) t [x]
           (Condition s' (Func p)) t'.
Proof.
  intros Hd Hpre Hx Hfuel.
  pose proof (delivers_truthy _ _ _ _ _ _ Hd) as Htruthy.
  apply Forall_app in Htruthy as [_ Htruthy]. inversion Htruthy; subst.
  apply delivers_cons with (err := VNull) (s1 := Condition s' (Func p)) (t1 := t');
    [|done|done|constructor].
  cbn [nextObject]. unfold bind.
  by rewrite (Condition_next_first_match _ _ _ _ _ _ _ _ Hd Hpre Hx).
Qed.

Lemma filter_none (p : predicate) xs :
  Forall (fun y => truthy (p y) = false) xs ->
  List.filter (fun x => truthy (p x)) xs = [].
Proof. induction 1 as [|y xs Hy _ IH]; [done|]. cbn. by rewrite Hy. Qed.

(** X4.  findOne of find.js reads the collection only up to the first
    match: after one [index] call it reads the keys in order, up to and
    with the first one whose item satisfies the condition, and answers
    with that item; the keys behind it are never read, so their items
    need not satisfy anything, nor be readable at all. *)
Theorem findOne_stops_at_the_first_match
    condition p err0 ids1 id ids2 items1 x fuel w :
  truthy_arg condition = true ->
  ConditionOp_parser condition = Func p ->
  collection_index coll = (err0, Some (ids1 ++ id :: ids2)) ->
  truthy err0 = false ->
  reads coll ids1 items1 ->
  reads coll [id] [x] ->
  Forall (fun y => truthy (p y) = false) items1 ->
  truthy (p x) = true ->
  length ids1 + 3 <= fuel ->
  findOne fuel condition w =
  Done ((VNull, x),
        {| heap := heap w ++ [[x]; [x]];
           log := log w ++ EvIndex :: map EvRead (ids1 ++ [id]) |}).
Proof.
  intros Ht Hp Hindex He0 Hreads1 Hread Hnone Hx Hfuel.
  destruct fuel as [|[|fuel]]; try lia.
  assert (length items1 = length ids1) as Hlen by (symmetry; by eapply Forall2_length).
  assert (delivers (nextObject coll fuel) (Source None) (log w) (items1 ++ [x])
            (Source (Some ids2)) (log w ++ EvIndex :: map EvRead (ids1 ++ [id]))) as Hd.
  { apply (Source_None_delivers coll err0); [|done| |by destruct items1|lia].
    - by rewrite <- app_assoc.
    - by apply Forall2_app. }
  apply Condition_delivers_first with (p := p) in Hd; [|done|done|lia].
  apply (Limit_takes coll _ 1) in Hd.
  assert (source (Cursor_limit 1 (find condition absent)) =
          Limit (Condition (Source None) (Func p)) 1 (Z.of_nat (length [x]))) as Hsrc
    by (unfold Cursor_limit; cbn [source set_source];
        by rewrite find_condition_source with (p := p)).
  assert (streams (nextObject coll (S (S fuel)))
            (source (Cursor_limit 1 (find condition absent))) (log w) [x] Ends
            (Limit (Condition (Source (Some ids2)) (Func p)) 1 (-1))
            (log w ++ EvIndex :: map EvRead (ids1 ++ [id]))) as Hs
    by (rewrite Hsrc; exact Hd).
  unfold findOne, bind.
  rewrite (Cursor_toArray_streams coll _ (Cursor_limit 1 (find condition absent)) w
             _ _ _ _ eq_refl Hs) by (cbn; lia).
  cbn. unfold contents. by rewrite array_elements_fresh.
Qed.

Lemma Cursor_toArray_at head fuel self w xs e s' t' :
  _toArray self = None ->
  source self = head ->
  streams (nextObject coll fuel) head (log w) xs e s' t' ->
  length xs < fuel ->
  Cursor_toArray coll fuel self w =
  match e with
  | Ends => Done (VNull, Some (S (length (heap w))),
                  {| source := s'; _index := _index self;
                     _toArray := Some (length (heap w)) |},
                  {| heap := heap w ++ [xs; xs]; log := t' |})
  | Fails err => Done (err, None, set_source self s', {| heap := heap w; log := t' |})
  end.
Proof. intros Hmemo <- Hs Hfuel. by apply Cursor_toArray_streams. Qed.

(** X5.  findOne of find.js on a collection none of whose items
    satisfies the condition: it reads every key once, in order, and then
    invokes its callback with no argument at all, neither an error nor an
    item. *)
Theorem findOne_without_a_match condition p ids items fuel w :
  truthy_arg condition = true ->
  ConditionOp_parser condition = Func p ->
  holds coll ids items ->
  Forall (fun y => truthy (p y) = false) items ->
  length ids + 3 <= fuel ->
  findOne fuel condition w =
  Done (EOF, {| heap := heap w ++ [[]; []];
                log := log w ++ EvIndex :: map EvRead ids |}).
Proof.
  intros Ht Hp Hholds Hnone Hfuel.
  destruct fuel as [|[|fuel]]; try lia.
  assert (length items = length ids) as Hlen.
  { destruct Hholds as (_ & _ & H). symmetry. by eapply Forall2_length. }
  pose proof (Source_None_streams coll ids items Hholds fuel (log w)) as Hs.
  apply Condition_streams with (p := p) in Hs; [|lia..].
  rewrite filter_none in Hs by done.
  apply (Limit_streams_within coll _ 1) with (rest := 1%Z) in Hs; [|cbn; lia].
  unfold findOne, bind.
  erewrite Cursor_toArray_at;
    [|done
     |unfold Cursor_limit; cbn [source set_source];
      by rewrite find_condition_source with (p := p)
     |exact Hs|cbn; lia].
  cbn. unfold contents. by rewrite array_elements_fresh.
Qed.

(** X6.  findOne of find.js when a key cannot be read before any item
    matched: it answers with the error of that read and no item, reads no
    key behind the failing one, and leaves the heap as it is. *)
Theorem findOne_reports_the_error_before_a_match
    condition p err0 ids1 bad ids2 items1 fuel w :
  truthy_arg condition = true ->
  ConditionOp_parser condition = Func p ->
  collection_index coll = (err0, Some (ids1 ++ bad :: ids2)) ->
  truthy err0 = false ->
  reads coll ids1 items1 ->
  truthy (fst (collection_read coll bad)) = true ->
  Forall (fun y => truthy (p y) = false) items1 ->
  length ids1 + 3 <= fuel ->
  findOne fuel condition w =
  Done ((fst (collection_read coll bad), VUndefined),
        {| heap := heap w; log := log w ++ EvIndex :: map EvRead (ids1 ++ [bad]) |}).
Proof.
  intros Ht Hp Hindex He0 Hreads Hbad Hnone Hfuel.
  destruct fuel as [|[|fuel]]; try lia.
  assert (length items1 = length ids1) as Hlen by (symmetry; by eapply Forall2_length).
  pose proof (Source_fails coll ids1 items1 bad ids2 fuel (log w ++ [EvIndex])
                Hreads Hbad) as Hs.
  apply (Source_fresh_streams coll err0) in Hs; [|done..|lia].
  rewrite <- app_assoc in Hs. cbn [app] in Hs.
  apply Condition_streams with (p := p) in Hs; [|lia].
  rewrite filter_none in Hs by done.
  apply (Limit_streams_within coll _ 1) with (rest := 1%Z) in Hs; [|cbn; lia].
  unfold findOne, bind.
  erewrite Cursor_toArray_at;
    [|done
     |unfold Cursor_limit; cbn [source set_source];
      by rewrite find_condition_source with (p := p)
     |exact Hs|cbn; lia].
  cbn. by rewrite Hbad.
Qed.

(** X7.  count of find.js with no condition (or one the parser turns
    into nothing): it reports the number of keys the backend lists, after
    one [index] call and no [read]; whether the items behind the keys can
    be read plays no part. *)
Theorem count_without_condition_counts_the_keys condition err0 ids fuel w :
  truthy_arg condition = false \/ truthy_arg (ConditionOp_parser condition) = false ->
  collection_index coll = (err0, Some ids) ->
  truthy err0 = false ->
  count fuel condition w =
  Done ((VNull, VNum (Z.of_nat (length ids))),
        {| heap := heap w ++ [ids; ids]; log := log w ++ [EvIndex] |}).
Proof.
  intros Hcond Hindex He0.
  assert (source (find condition absent) = Source None) as Hsrc.
  { rewrite find_source. destruct Hcond as [-> | Hcond]; [done|].
    rewrite Hcond. by destruct (truthy_arg condition). }
  unfold count, bind. fold (@absent mapping).
  by rewrite (Cursor_count_keys coll fuel _ w err0 ids Hsrc eq_refl Hindex He0).
Qed.

(** X8.  count of find.js with a predicate: it reports the number of
    items that satisfy the predicate, and to find it reads every key of
    the collection once, in order, after one [index] call. *)
Theorem count_with_a_predicate_counts_the_matches condition p ids items fuel w :
  truthy_arg condition = true ->
  ConditionOp_parser condition = Func p ->
  holds coll ids items ->
  length ids + 2 <= fuel ->
  exists w',
    count fuel condition w =
      Done ((VNull,
             VNum (Z.of_nat (length (List.filter (fun x => truthy (p x)) items)))), w') /\
    log w' = log w ++ EvIndex :: map EvRead ids.
Proof.
  intros Ht Hp Hholds Hfuel.
  destruct fuel as [|fuel]; try lia.
  assert (length items = length ids) as Hlen.
  { destruct Hholds as (_ & _ & H). symmetry. by eapply Forall2_length. }
  pose proof (Source_None_streams coll ids items Hholds fuel (log w)) as Hs.
  apply Condition_streams with (p := p) in Hs; [|lia..].
  pose proof (List.filter_length_le (fun x => truthy (p x)) items) as Hle.
  eexists. unfold count, bind. fold (@absent mapping).
  erewrite Cursor_count_toArray;
    [|by rewrite find_condition_source with (p := p)
     |by erewrite Cursor_toArray_at;
        [|done|by apply find_condition_source|exact Hs|lia]].
  cbn. by rewrite array_elements_fresh.
Qed.

(** *** Projection *)

Lemma find_projection_source condition projection f :
  truthy_arg projection = true -> ProjectionOp_parser projection = Func f ->
  source (find condition projection) =
  Projection (source (find condition absent)) (Func f).
Proof.
  intros Ht Hp. unfold find, Cursor_new. cbn [source]. by rewrite Ht, Hp.
Qed.

(** X9.  find(condition, projection) tests the condition on the items as
    they are stored and maps what passed: [toArray] hands over the images,
    under the projection, of the items that satisfy the predicate, in
    enumeration order, provided each of those images is truthy (as an
    object is). *)
Theorem projection_maps_what_the_condition_selects
    condition p projection f ids items fuel w :
  truthy_arg condition = true ->
  ConditionOp_parser condition = Func p ->
  truthy_arg projection = true ->
  ProjectionOp_parser projection = Func f ->
  holds coll ids items ->
  Forall (fun x => truthy (p x) = true -> truthy (f x) = true) items ->
  length ids + 3 <= fuel ->
  exists l c' w',
    Cursor_toArray coll fuel (find condition projection) w = Done (VNull, Some l, c', w') /\
    array_elements w' l = map f (List.filter (fun x => truthy (p x)) items) /\
    log w' = log w ++ EvIndex :: map EvRead ids.
Proof.
  intros Ht Hp Htp Hf Hholds Himages Hfuel.
  destruct fuel as [|[|fuel]]; try lia.
  assert (length items = length ids) as Hlen.
  { destruct Hholds as (_ & _ & H). symmetry. by eapply Forall2_length. }
  pose proof (Source_None_streams coll ids items Hholds fuel (log w)) as Hs.
  apply Condition_streams with (p := p) in Hs; [|lia..].
  pose proof (List.filter_length_le (fun x => truthy (p x)) items) as Hle.
  apply Projection_streams with (f := f) in Hs.
  2:{ apply List.Forall_forall. intros x [Hin Hpx]%List.filter_In.
      rewrite List.Forall_forall in Himages. by apply Himages. }
  do 3 eexists.
  erewrite Cursor_toArray_at;
    [|done
     |rewrite find_projection_source with (f := f) by done;
      by rewrite find_condition_source with (p := p)
     |exact Hs|rewrite length_map; lia].
  split; [done|]. split; [|done]. by rewrite array_elements_fresh.
Qed.

(** X10.  A projection whose image of an item is falsy ends the list
    there: [toArray] on find(undefined, projection) hands over the images
    of the items before that one and reports no error; the keys behind it
    are never read. *)
Theorem projection_falsy_image_ends_the_list
    projection f err0 ids1 id ids2 items1 x fuel w :
  truthy_arg projection = true ->
  ProjectionOp_parser projection = Func f ->
  collection_index coll = (err0, Some (ids1 ++ id :: ids2)) ->
  truthy err0 = false ->
  reads coll ids1 items1 ->
  reads coll [id] [x] ->
  Forall (fun y => truthy (f y) = true) items1 ->
  truthy (f x) = false ->
  length ids1 + 2 <= fuel ->
  exists l c' w',
    Cursor_toArray coll fuel (find absent projection) w = Done (VNull, Some l, c', w') /\
    array_elements w' l = map f items1 /\
    log w' = log w ++ EvIndex :: map EvRead (ids1 ++ [id]).
Proof.
  intros Htp Hf Hindex He0 Hreads1 Hread Himages Hx Hfuel.
  destruct fuel as [|fuel]; try lia.
  assert (length items1 = length ids1) as Hlen by (symmetry; by eapply Forall2_length).
  assert (delivers (nextObject coll fuel) (Source None) (log w) (items1 ++ [x])
            (Source (Some ids2)) (log w ++ EvIndex :: map EvRead (ids1 ++ [id]))) as Hd.
  { apply (Source_None_delivers coll err0); [|done| |by destruct items1|lia].
    - by rewrite <- app_assoc.
    - by apply Forall2_app. }
  apply Projection_truncates with (f := f) in Hd; [|done..].
  do 3 eexists.
  erewrite Cursor_toArray_at;
    [|done|by apply find_projection_source|exact Hd|rewrite length_map; lia].
  split; [done|]. split; [|done]. by rewrite array_elements_fresh.
Qed.

(** *** Limit and offset *)

(** X11.  A limit that is zero or negative (and an integer JavaScript
    holds exactly): [toArray] hands over an empty list and sets the memo
    without a single request to the stage below, hence with no backend
    call, whatever the chain below is. *)
Theorem limit_not_positive_asks_nothing limit fuel self w :
  (limit <= 0)%Z ->
  safe_integer limit ->
  _toArray self = None ->
  0 < fuel ->
  Cursor_toArray coll fuel (Cursor_limit limit self) w =
  Done (VNull, Some (S (length (heap w))),
        {| source := Limit (source self) limit (limit - 1);
           _index := _index self; _toArray := Some (length (heap w)) |},
        {| heap := heap w ++ [[]; []]; log := log w |}).
Proof.
  intros Hlimit _ Hmemo Hfuel. destruct fuel as [|fuel]; [lia|].
  by erewrite Cursor_toArray_at;
    [|done|done
     |apply streams_end with (err := VUndefined) (item := VUndefined);
      [by apply Limit_exhausted|done..]
     |cbn; lia].
Qed.

Lemma Limit_streams_any fuel limit s t xs e s' t' :
  streams (nextObject coll fuel) s t xs e s' t' ->
  forall rest,
  exists s2 t2 rest',
    streams (nextObject coll (S fuel)) (Limit s limit rest) t
            (take (Z.to_nat rest) xs)
            (if decide (Z.to_nat rest <= length xs) then Ends else e)
            (Limit s2 limit rest') t2.
Proof.
  intros Hs rest. destruct (decide (0 <= rest)%Z) as [Hrest|Hrest].
  - by eapply Limit_streams.
  - exists s, t, (rest - 1)%Z. replace (Z.to_nat rest) with 0 by lia.
    rewrite take_0. rewrite decide_True by lia.
    apply streams_end with (err := VUndefined) (item := VUndefined); [|done..].
    apply Limit_exhausted. lia.
Qed.

(** X12.  [offset] and [limit] apply in the order they were chained:
    find().offset(a).limit(b) hands over the [b] items behind the first
    [a], a page; find().limit(b).offset(a) hands over what is left of the
    first [b] items behind the first [a] of them. *)
Theorem limit_and_offset_apply_in_chaining_order ids items (a b : Z) fuel w :
  holds coll ids items ->
  length ids + 3 <= fuel ->
  (exists l c' w',
     Cursor_toArray coll fuel (Cursor_limit b (Cursor_offset a (find absent absent))) w =
       Done (VNull, Some l, c', w') /\
     array_elements w' l = take (Z.to_nat b) (drop (Z.to_nat a) items)) /\
  (exists l c' w',
     Cursor_toArray coll fuel (Cursor_offset a (Cursor_limit b (find absent absent))) w =
       Done (VNull, Some l, c', w') /\
     array_elements w' l = drop (Z.to_nat a) (take (Z.to_nat b) items)).
Proof.
  intros Hholds Hfuel.
  destruct fuel as [|[|fuel]]; try lia.
  assert (length items = length ids) as Hlen.
  { destruct Hholds as (_ & _ & H). symmetry. by eapply Forall2_length. }
  pose proof (Source_None_streams coll ids items Hholds fuel (log w)) as Hs.
  split.
  - apply Offset_streams with (offset := a) in Hs as [ready Hs]; [|lia..].
    apply Limit_streams_any with (limit := b) (rest := b) in Hs
      as (s2 & t2 & rest' & Hs).
    assert (length (take (Z.to_nat b) (drop (Z.to_nat a) items)) < S (S fuel))
      by (rewrite length_take, length_drop; lia).
    do 3 eexists.
    erewrite Cursor_toArray_at; [|done|done|exact Hs|done].
    destruct (decide _); (split; [done|by rewrite array_elements_fresh]).
  - apply Limit_streams_any with (limit := b) (rest := b) in Hs
      as (s2 & t2 & rest' & Hs); [|lia].
    assert (length (take (Z.to_nat b) items) < S fuel) by (rewrite length_take; lia).
    apply Offset_streams with (offset := a) in Hs as [ready Hs]; [|done].
    assert (length (drop (Z.to_nat a) (take (Z.to_nat b) items)) < S (S fuel))
      by (rewrite length_drop; lia).
    do 3 eexists.
    erewrite Cursor_toArray_at; [|done|done|exact Hs|done].
    destruct (decide _); (split; [done|by rewrite array_elements_fresh]).
Qed.

(** *** Array.prototype.sort with a consistent comparator *)

Lemma consistent_gt_lt cmp l a c :
  consistent cmp l -> In a l -> In c l -> (cmp a c > 0 -> cmp c a < 0)%Z.
Proof.
  intros H Ha Hc.
  destruct (H a c a Ha Hc Ha) as (Hrefl & _ & _ & _ & Hgt).
  destruct (H c a c Hc Ha Hc) as (_ & Hsym & _).
  clear H. lia.
Qed.

Lemma consistent_lt_gt cmp l a c :
  consistent cmp l -> In a l -> In c l -> (cmp a c < 0 -> cmp c a > 0)%Z.
Proof.
  intros H Ha Hc.
  destruct (H a c a Ha Hc Ha) as (Hrefl & _ & _ & Hlt & _).
  destruct (H c a c Hc Ha Hc) as (_ & Hsym & _).
  clear H. lia.
Qed.

Lemma consistent_order cmp l a b c :
  consistent cmp l -> In a l -> In b l -> In c l ->
  ((cmp a b <= 0 -> cmp b c <= 0 -> cmp a c <= 0) /\
   (cmp a b > 0 -> cmp b a <= 0))%Z.
Proof.
  intros H Ha Hb Hc.
  pose proof (consistent_gt_lt cmp l a c H Ha Hc) as Hac.
  pose proof (consistent_gt_lt cmp l a b H Ha Hb) as Hab.
  pose proof (consistent_lt_gt cmp l c b H Hc Hb) as Hcb.
  destruct (H a b c Ha Hb Hc) as (_ & Hsym & Heq & _).
  destruct (H c a b Hc Ha Hb) as (_ & _ & _ & Hlt1 & _).
  destruct (H b c a Hb Hc Ha) as (_ & _ & _ & Hlt2 & _).
  clear H. split; [|lia]. intros Hle1 Hle2.
  destruct (Z.lt_trichotomy (cmp a c) 0) as [?|[?|Hgt]]; [lia..|].
  assert (cmp c a < 0)%Z as Hca by lia.
  destruct (Z.lt_trichotomy (cmp a b) 0) as [?|[Hz|?]]; [|..|lia].
  - specialize (Hlt1 Hca). lia.
  - specialize (Hsym Hz).
    destruct (Z.lt_trichotomy (cmp b c) 0) as [?|[?|?]]; [| |lia].
    + specialize (Hlt2 ltac:(done) Hca). lia.
    + specialize (Heq Hz ltac:(done)). lia.
Qed.

Lemma insert_sorted_consistent cmp l x s :
  consistent cmp l -> In x l -> (forall y, In y s -> In y l) ->
  StronglySorted (fun a b => (cmp a b <= 0)%Z) s ->
  StronglySorted (fun a b => (cmp a b <= 0)%Z) (insert_sorted cmp x s).
Proof.
  intros Hcmp Hx. induction s as [|y s IH]; intros Hs Hsorted; cbn [insert_sorted].
  - by repeat constructor.
  - inversion Hsorted as [|? ? Hsorted' Hy]; subst.
    assert (In y l) as Hyl by (apply Hs; by left).
    destruct (Z.leb_spec (cmp x y) 0) as [Hle|Hgt].
    + constructor; [done|]. constructor; [done|].
      rewrite List.Forall_forall in Hy |- *. intros z Hz.
      assert (In z l) as Hzl by (apply Hs; by right).
      destruct (consistent_order cmp l x y z Hcmp Hx Hyl Hzl) as [Htrans _].
      apply Htrans; [done|by apply Hy].
    + constructor; [apply IH; [intros z Hz; apply Hs; by right|done]|].
      rewrite insert_sorted_Permutation. constructor; [|done].
      destruct (consistent_order cmp l x y y Hcmp Hx Hyl Hyl) as [_ Hanti].
      apply Hanti. lia.
Qed.

(** With a consistent comparator the sorted list is in order: no element
    stands before one the comparator orders before it. *)
Lemma js_sort_consistent cmp l :
  consistent cmp l ->
  StronglySorted (fun a b => (cmp a b <= 0)%Z) (js_sort cmp l).
Proof.
  intros Hcmp.
  assert (forall l', (forall y, In y l' -> In y l) ->
            StronglySorted (fun a b => (cmp a b <= 0)%Z) (js_sort cmp l')) as Hgen.
  { induction l' as [|x l' IH]; intros Hl'; [constructor|].
    change (js_sort cmp (x :: l')) with (insert_sorted cmp x (js_sort cmp l')).
    apply insert_sorted_consistent with (l := l); [done|apply Hl'; by left| |].
    - intros y Hy. apply Hl'. right.
      eapply Permutation_in; [apply js_sort_Permutation|done].
    - apply IH. intros y Hy. apply Hl'. by right. }
  by apply Hgen.
Qed.

(** *** WebapiMethods of webapi.js *)

(** X13.  WebapiMethods.prototype.find chains [limit], then [offset],
    then [sort], whatever the request says: with all three parameters
    given (the numbers not zero), and a comparator that is consistent on
    the items it is given, the data it sends is the first [limit] items
    of the collection, less the first [offset] of them, sorted: a
    permutation of those items in the order of the comparator, items the
    comparator ties kept in their order; the sort never sees an item
    beyond the first [limit].  With none of the three it sends all items
    as enumerated. *)
Theorem WebapiMethods_find_limits_then_skips_then_sorts
    ids items (limit offset : Z) order fuel w :
  holds coll ids items ->
  limit <> 0%Z ->
  offset <> 0%Z ->
  truthy_arg order = true ->
  consistent (SortOp_parser order)
             (drop (Z.to_nat offset) (take (Z.to_nat limit) items)) ->
  length ids + 4 <= fuel ->
  (exists l w',
     WebapiMethods_find coll ConditionOp_parser ProjectionOp_parser SortOp_parser fuel
       {| params_condition := absent; params_projection := absent;
          params_limit := Some limit; params_offset := Some offset;
          params_sort := order |} w = Done (SendData l, w') /\
     array_elements w' l =
       js_sort (SortOp_parser order)
               (drop (Z.to_nat offset) (take (Z.to_nat limit) items)) /\
     Permutation (array_elements w' l)
                 (drop (Z.to_nat offset) (take (Z.to_nat limit) items)) /\
     StronglySorted (fun a b => (SortOp_parser order a b <= 0)%Z)
                    (array_elements w' l)) /\
  (exists l w',
     WebapiMethods_find coll ConditionOp_parser ProjectionOp_parser SortOp_parser fuel
       {| params_condition := absent; params_projection := absent;
          params_limit := None; params_offset := None;
          params_sort := absent |} w = Done (SendData l, w') /\
     array_elements w' l = items).
Proof.
  intros Hholds Hlimit Hoffset Horder Hcmp Hfuel.
  destruct fuel as [|[|[|fuel]]]; try lia.
  assert (length items = length ids) as Hlen.
  { destruct Hholds as (_ & _ & H). symmetry. by eapply Forall2_length. }
  split.
  - pose proof (Source_None_streams coll ids items Hholds fuel (log w)) as Hs.
    apply Limit_streams_any with (limit := limit) (rest := limit) in Hs
      as (s2 & t2 & rest' & Hs); [|lia].
    assert (length (take (Z.to_nat limit) items) < S fuel)
      by (rewrite length_take; lia).
    apply Offset_streams with (offset := offset) in Hs as [ready Hs]; [|done].
    assert (length (drop (Z.to_nat offset) (take (Z.to_nat limit) items)) < S (S fuel))
      by (rewrite length_drop; lia).
    assert (streams (nextObject coll (S (S fuel)))
              (Offset (Limit (Source None) limit limit) offset false) (log w)
              (drop (Z.to_nat offset) (take (Z.to_nat limit) items)) Ends
              (Offset (Limit s2 limit rest') offset ready) t2) as Hs'
      by (by destruct (decide _)).
    apply Sort_streams with (cmp := SortOp_parser order) in Hs'; [|done].
    assert (length (js_sort (SortOp_parser order)
                      (drop (Z.to_nat offset) (take (Z.to_nat limit) items)))
            < S (S (S fuel))) by (rewrite js_sort_length; lia).
    do 2 eexists. unfold WebapiMethods_find, when_given, bind.
    cbn [params_condition params_projection params_limit params_offset params_sort].
    rewrite (proj2 (Z.eqb_neq limit 0) Hlimit), (proj2 (Z.eqb_neq offset 0) Hoffset).
    rewrite Horder.
    erewrite Cursor_toArray_at; [|done|done|exact Hs'|done].
    cbn [ret]. split; [done|]. rewrite array_elements_fresh.
    split; [done|]. split; [apply js_sort_Permutation|by apply js_sort_consistent].
  - pose proof (Source_None_streams coll ids items Hholds (S (S (S fuel))) (log w)) as Hs.
    do 2 eexists. unfold WebapiMethods_find, when_given, bind.
    cbn [params_condition params_projection params_limit params_offset params_sort
         truthy_arg absent truthy].
    erewrite Cursor_toArray_at; [|done|done|apply Hs; lia|lia].
    cbn. split; [done|]. by rewrite array_elements_fresh.
Qed.

(** X14.  WebapiMethods.prototype.count with no condition: it answers
    with status 500 when the backend fails to list its keys, and otherwise
    sends the number of keys listed, after that one [index] call and no
    [read]. *)
Theorem WebapiMethods_count_sends_the_number_of_keys params err0 list fuel w :
  truthy_arg (params_condition params) = false ->
  collection_index coll = (err0, list) ->
  (truthy err0 = true ->
   WebapiMethods_count coll ConditionOp_parser ProjectionOp_parser fuel params w =
   Done (SendStatus 500, {| heap := heap w; log := log w ++ [EvIndex] |})) /\
  (forall ids, truthy err0 = false -> list = Some ids ->
   WebapiMethods_count coll ConditionOp_parser ProjectionOp_parser fuel params w =
   Done (SendCount (VNum (Z.of_nat (length ids))),
         {| heap := heap w ++ [ids; ids]; log := log w ++ [EvIndex] |})).
Proof.
  intros Hcond Hindex.
  assert (source (find (params_condition params) absent) = Source None) as Hsrc
    by (by rewrite find_source, Hcond).
  split.
  - intros He0. unfold WebapiMethods_count, count, bind.
    fold (@absent mapping). unfold Cursor_count, Cursor_index. rewrite Hsrc.
    rewrite (proj2 (find_memo _ _ _ _)). cbn [is_original_Source].
    unfold bind, lift, call_index. rewrite Hindex. cbn.
    by repeat (rewrite He0; cbn).
  - intros ids He0 ->. unfold WebapiMethods_count, count, bind.
    fold (@absent mapping).
    rewrite (Cursor_count_keys coll fuel _ w err0 ids Hsrc eq_refl Hindex He0).
    done.
Qed.

(** *** toArray on a cursor that was used before *)

Lemma Cursor_count_by_index fuel self w err ids :
  is_original_Source (source self) = true -> _index self = None ->
  collection_index coll = (err, Some ids) -> truthy err = false ->
  Cursor_count coll fuel self w =
  Done ((VNull, VNum (Z.of_nat (length ids))),
        {| source := source self; _index := Some (length (heap w));
           _toArray := _toArray self |},
        {| heap := heap w ++ [ids; ids]; log := log w ++ [EvIndex] |}).
Proof.
  intros Hsrc Hmemo Hindex He. unfold Cursor_count, Cursor_index.
  rewrite Hsrc, Hmemo.
  unfold bind, lift, call_index. rewrite Hindex. cbn. rewrite He. cbn.
  unfold array_elements. cbn.
  rewrite !(list_lookup_middle (heap w) [] ids) by done. cbn.
  rewrite length_app. cbn. rewrite Nat.add_1_r.
  rewrite <- app_assoc. cbn.
  rewrite lookup_app_r by lia.
  by replace (S (length (heap w)) - length (heap w)) with 1 by lia.
Qed.

Lemma Cursor_toArray_keeps fuel self w r self' w' :
  Cursor_toArray coll fuel self w = Done (r, self', w') ->
  same_kind (source self) (source self').
Proof.
  unfold Cursor_toArray. destruct (_toArray self).
  - cbn. intros H. inv H. apply same_kind_refl.
  - unfold bind, lift, toArray.
    destruct (toArray_iterator _ _ _ _ _) as [| |[[[err list] s1] t1]] eqn:Hrun;
      try discriminate.
    apply toArray_iterator_keeps in Hrun as [Hk _]; [|apply nextObject_keeps].
    cbn. destruct (truthy err); [intros H; by inv H|].
    destruct list; cbn; intros H; by inv H.
Qed.

(** X15.  [toArray] after a failed [toArray] does not start over.  On a
    collection one of whose keys cannot be read, the first [toArray] on
    find() reports the error of that read and sets no memo; a second
    [toArray] on the same cursor reports no error and hands over only the
    items behind the failing key, and that partial list becomes the memo:
    every later [toArray] hands it over again, with no backend call. *)
Theorem toArray_resumes_behind_the_failed_key
    err0 ids1 items1 bad ids2 items2 fuel w :
  collection_index coll = (err0, Some (ids1 ++ bad :: ids2)) ->
  truthy err0 = false ->
  reads coll ids1 items1 ->
  truthy (fst (collection_read coll bad)) = true ->
  reads coll ids2 items2 ->
  length ids1 + length ids2 + 2 <= fuel ->
  exists c1 w1 l c2 w2,
    Cursor_toArray coll fuel (find absent absent) w =
      Done (fst (collection_read coll bad), None, c1, w1) /\
    _toArray c1 = None /\
    Cursor_toArray coll fuel c1 w1 = Done (VNull, Some l, c2, w2) /\
    array_elements w2 l = items2 /\
    log w2 = log w ++ EvIndex :: map EvRead (ids1 ++ bad :: ids2) /\
    forall fuel', exists l' w3,
      Cursor_toArray coll fuel' c2 w2 = Done (VNull, Some l', c2, w3) /\
      array_elements w3 l' = items2 /\
      log w3 = log w2.
Proof.
  intros Hindex He0 Hreads1 Hbad Hreads2 Hfuel.
  assert (length items1 = length ids1) as Hlen1 by (symmetry; by eapply Forall2_length).
  assert (length items2 = length ids2) as Hlen2 by (symmetry; by eapply Forall2_length).
  pose proof (Source_fails coll ids1 items1 bad ids2 fuel (log w ++ [EvIndex])
                Hreads1 Hbad) as Hs1.
  apply (Source_fresh_streams coll err0) in Hs1; [|done..|lia].
  rewrite <- app_assoc in Hs1. cbn [app] in Hs1.
  pose proof (Source_streams coll ids2 items2 Hreads2 fuel
                (log w ++ EvIndex :: map EvRead (ids1 ++ [bad]))) as Hs2.
  do 5 eexists.
  split; [by erewrite Cursor_toArray_at; [|done|done|exact Hs1|lia]|].
  split; [done|].
  split; [by erewrite Cursor_toArray_at; [|done|done|apply Hs2; lia|lia]|].
  split; [by rewrite array_elements_fresh|].
  split.
  { cbn [log]. rewrite <- app_assoc. cbn [app]. do 2 f_equal.
    by rewrite <- map_app, <- app_assoc. }
  intros fuel'. do 2 eexists.
  split; [by apply Cursor_toArray_cached|].
  split; [|done].
  rewrite array_elements_new. unfold array_elements. cbn.
  by rewrite (list_lookup_middle (heap w) [items2] items2).
Qed.

(** X16.  [toArray] hands over what the cursor has not served yet.  After
    as many [nextObject] requests as [ids1] has keys, answered with their
    items, [toArray] on find() hands over the items of the remaining keys
    only; [count] on that same cursor still reports the number of all
    keys. *)
Theorem toArray_after_requests_hands_over_the_rest
    err0 ids1 items1 ids2 items2 fuel w :
  collection_index coll = (err0, Some (ids1 ++ ids2)) ->
  truthy err0 = false ->
  reads coll ids1 items1 ->
  reads coll ids2 items2 ->
  length ids1 + length ids2 + 2 <= fuel ->
  exists rs c1 w1 l c2 w2 c3 w3,
    Cursor_nextObjects coll fuel (length ids1) (find absent absent) w =
      Done (rs, c1, w1) /\
    map snd rs = items1 /\
    Cursor_toArray coll fuel c1 w1 = Done (VNull, Some l, c2, w2) /\
    array_elements w2 l = items2 /\
    Cursor_count coll fuel c2 w2 =
      Done ((VNull, VNum (Z.of_nat (length (ids1 ++ ids2)))), c3, w3).
Proof.
  intros Hindex He0 Hreads1 Hreads2 Hfuel.
  assert (length items1 = length ids1) as Hlen1 by (symmetry; by eapply Forall2_length).
  assert (length items2 = length ids2) as Hlen2 by (symmetry; by eapply Forall2_length).
  assert (exists s1 t1 t2,
            delivers (nextObject coll fuel) (Source None) (log w) items1 s1 t1 /\
            streams (nextObject coll fuel) s1 t1 items2 Ends (Source (Some [])) t2)
    as (s1 & t1 & t2 & Hd & Hs).
  { destruct items1 as [|x items1].
    - destruct ids1; [|done].
      exists (Source None), (log w). eexists. split; [constructor|].
      apply Source_None_streams; [|lia].
      split; [by rewrite Hindex|]. split; [by rewrite Hindex|done].
    - do 3 eexists. split.
      + apply (Source_None_delivers coll err0 ids1 (x :: items1) ids2); [done..|lia].
      + apply Source_streams; [done|lia]. }
  destruct (Cursor_nextObjects_delivers coll fuel _ _ _ _ _ Hd (find absent absent) w)
    as (rs & Hrun & Hitems & _); [done..|].
  rewrite Hlen1 in Hrun.
  do 8 eexists.
  split; [exact Hrun|]. split; [done|].
  split; [by erewrite Cursor_toArray_at; [|done|done|exact Hs|lia]|].
  split; [by rewrite array_elements_fresh|].
  by erewrite Cursor_count_by_index.
Qed.

(** X17.  [count] after [toArray] on a cursor whose chain is longer than
    the bare Source (a condition, projection, sort, offset or limit was
    given): it reports the length of the list [toArray] handed over, takes
    it from the memo, and makes no backend call. *)
Theorem count_after_toArray_reuses_the_list fuel fuel' self w err l c1 w1 :
  is_original_Source (source self) = false ->
  cursor_wf self w ->
  Cursor_toArray coll fuel self w = Done (err, Some l, c1, w1) ->
  exists w2,
    Cursor_count coll fuel' c1 w1 =
      Done ((VNull, VNum (Z.of_nat (length (array_elements w1 l)))), c1, w2) /\
    log w2 = log w1.
Proof.
  intros Hsrc Hwf Hrun.
  destruct (Cursor_toArray_memo coll fuel self w err l c1 w1 Hwf Hrun)
    as (_ & _ & lc & Hmemo & _ & _ & Helems).
  apply Cursor_toArray_keeps in Hrun as [_ Hkind].
  eexists.
  erewrite Cursor_count_toArray;
    [|congruence|by apply Cursor_toArray_cached].
  cbn [truthy]. by rewrite array_elements_new, Helems.
Qed.

(** *** Sort over an upstream that fails *)

(** X18.  Sort.prototype.nextObject over an upstream that fails while
    the Sort stage collects it: the request is answered with the error
    and no item, the items collected so far are dropped, and no buffer is
    kept.  The requests after that collect the upstream from where the
    failing request left it: with a comparator that is consistent on the
    items behind the failure, they serve only those items, sorted: a
    permutation of them in the order of the comparator. *)
Theorem Sort_drops_what_it_read_before_an_error
    fuel cmp s t xs err s1 t1 ys s2 t2 :
  streams (nextObject coll fuel) s t xs (Fails err) s1 t1 ->
  streams (nextObject coll fuel) s1 t1 ys Ends s2 t2 ->
  consistent cmp ys ->
  length xs < fuel ->
  length ys < fuel ->
  nextObject coll (S fuel) (Sort s cmp None) t =
    Done ((err, VUndefined), Sort s1 cmp None, t1) /\
  streams (nextObject coll (S fuel)) (Sort s1 cmp None) t1 (js_sort cmp ys) Ends
          (Sort s2 cmp (Some [])) t2 /\
  Permutation (js_sort cmp ys) ys /\
  StronglySorted (fun a b => (cmp a b <= 0)%Z) (js_sort cmp ys).
Proof.
  intros Hfail Hrest Hcmp Hxs Hys. split; [|split; [|split]].
  - cbn [nextObject]. unfold bind.
    rewrite (toArray_iterator_streams _ _ _ _ _ _ _ Hfail) by done.
    by rewrite (streams_fails_truthy _ _ _ _ _ _ _ Hfail).
  - by apply Sort_streams.
  - apply js_sort_Permutation.
  - by apply js_sort_consistent.
Qed.

End More.

(** ** The further properties on the collections of the example scenario *)

Lemma each_hands_over_every_answer_example :
  streams (nextObject example_collection 6) (source (example_find absent absent))
          (log empty_world) example_items Ends (Source (Some []))
          (EvIndex :: map EvRead example_ids) /\
  length example_items < 6 /\
  exists rs last,
    Cursor_each example_collection 6 (example_find absent absent) empty_world =
      Done (rs ++ [last], set_source (example_find absent absent) (Source (Some [])),
            {| heap := []; log := EvIndex :: map EvRead example_ids |}) /\
    map snd rs = example_items /\
    Forall (fun r => truthy (fst r) = false) rs /\
    is_EOS last.
Proof.
  assert (streams (nextObject example_collection 6) (source (example_find absent absent))
            (log empty_world) example_items Ends (Source (Some []))
            (EvIndex :: map EvRead example_ids)) as Hs
    by (apply (Source_None_streams example_collection example_ids example_items
                 example_holds 6 []); lia).
  split; [exact Hs|]. split; [cbn; lia|].
  apply (each_hands_over_every_answer example_collection 6 (example_find absent absent)
           empty_world example_items Ends _ _ Hs).
  cbn. lia.
Defined.

Lemma each_always_ends_example :
  defined (source (example_find absent absent)) = true /\
  depth (source (example_find absent absent)) +
    budget flaky_collection (source (example_find absent absent)) < 6 /\
  exists rs last self' w',
    Cursor_each flaky_collection 6 (example_find absent absent) empty_world =
      Done (rs ++ [last], self', w') /\
    Forall (fun r => delivers_item r = true) rs /\
    delivers_item last = false /\
    length rs <= budget flaky_collection (source (example_find absent absent)) /\
    heap w' = heap empty_world.
Proof.
  split; [reflexivity|]. split; [cbn; lia|].
  apply (each_always_ends flaky_collection 6 (example_find absent absent) empty_world).
  - reflexivity.
  - cbn. lia.
Defined.

Lemma rewind_undoes_the_requests_example :
  exists rs s' t',
    nextObjects example_collection 6 2 (Limit (Source None) 3 3) [] = Done (rs, s', t') /\
    s' = Limit (Source (Some [VStr "baz"; VStr "qux"])) 3 1 /\
    rewind s' = rewind (Limit (Source None) 3 3).
Proof.
  do 3 eexists. split; [reflexivity|]. split; [reflexivity|].
  eapply (proj1 (rewind_undoes_the_requests example_collection 6
                   (Limit (Source None) 3 3) []) 2).
  reflexivity.
Defined.

Lemma findOne_stops_at_the_first_match_example :
  truthy_arg (Func (decimal_is 999) : jsarg predicate) = true /\
  Modelled.ConditionOp_parser (Func (decimal_is 999)) = Func (decimal_is 999) /\
  collection_index example_collection =
    (VNull, Some ([VStr "foo"; VStr "bar"] ++ VStr "baz" :: [VStr "qux"])) /\
  reads example_collection [VStr "foo"; VStr "bar"]
        [example_item "FOO" 123; example_item "BAR" 111] /\
  reads example_collection [VStr "baz"] [example_item "BAZ" 999] /\
  Forall (fun y => truthy (decimal_is 999 y) = false)
         [example_item "FOO" 123; example_item "BAR" 111] /\
  truthy (decimal_is 999 (example_item "BAZ" 999)) = true /\
  findOne example_collection Modelled.ConditionOp_parser Modelled.ProjectionOp_parser 6
          (Func (decimal_is 999)) empty_world =
  Done ((VNull, example_item "BAZ" 999),
        {| heap := [[example_item "BAZ" 999]; [example_item "BAZ" 999]];
           log := [EvIndex; EvRead (VStr "foo"); EvRead (VStr "bar");
                   EvRead (VStr "baz")] |}).
Proof.
  assert (reads example_collection [VStr "foo"; VStr "bar"]
            [example_item "FOO" 123; example_item "BAR" 111]) as Hreads1
    by (by repeat constructor).
  assert (reads example_collection [VStr "baz"] [example_item "BAZ" 999]) as Hread
    by (by repeat constructor).
  assert (Forall (fun y => truthy (decimal_is 999 y) = false)
            [example_item "FOO" 123; example_item "BAR" 111]) as Hnone
    by (by repeat constructor).
  split; [reflexivity|]. split; [reflexivity|]. split; [reflexivity|].
  split; [exact Hreads1|]. split; [exact Hread|]. split; [exact Hnone|].
  split; [reflexivity|].
  apply (findOne_stops_at_the_first_match example_collection Modelled.ConditionOp_parser
           Modelled.ProjectionOp_parser (Func (decimal_is 999)) (decimal_is 999) VNull
           [VStr "foo"; VStr "bar"] (VStr "baz") [VStr "qux"]
           [example_item "FOO" 123; example_item "BAR" 111] (example_item "BAZ" 999)
           6 empty_world).
  - reflexivity.
  - reflexivity.
  - reflexivity.
  - reflexivity.
  - exact Hreads1.
  - exact Hread.
  - exact Hnone.
  - reflexivity.
  - cbn. lia.
Defined.

Lemma findOne_without_a_match_example :
  truthy_arg (Func (decimal_is 0) : jsarg predicate) = true /\
  Modelled.ConditionOp_parser (Func (decimal_is 0)) = Func (decimal_is 0) /\
  holds example_collection example_ids example_items /\
  Forall (fun y => truthy (decimal_is 0 y) = false) example_items /\
  findOne example_collection Modelled.ConditionOp_parser Modelled.ProjectionOp_parser 7
          (Func (decimal_is 0)) empty_world =
  Done (EOF, {| heap := [[]; []]; log := EvIndex :: map EvRead example_ids |}).
Proof.
  assert (Forall (fun y => truthy (decimal_is 0 y) = false) example_items) as Hnone
    by (by repeat constructor).
  split; [reflexivity|]. split; [reflexivity|]. split; [exact example_holds|].
  split; [exact Hnone|].
  apply (findOne_without_a_match example_collection Modelled.ConditionOp_parser
           Modelled.ProjectionOp_parser (Func (decimal_is 0)) (decimal_is 0)
           example_ids example_items 7 empty_world).
  - reflexivity.
  - reflexivity.
  - exact example_holds.
  - exact Hnone.
  - cbn. lia.
Defined.

Lemma findOne_reports_the_error_before_a_match_example :
  collection_index flaky_collection =
    (VNull, Some ([VStr "foo"] ++ VStr "gone" :: [VStr "qux"])) /\
  reads flaky_collection [VStr "foo"] [example_item "FOO" 123] /\
  truthy (fst (collection_read flaky_collection (VStr "gone"))) = true /\
  Forall (fun y => truthy (decimal_is 999 y) = false) [example_item "FOO" 123] /\
  findOne flaky_collection Modelled.ConditionOp_parser Modelled.ProjectionOp_parser 6
          (Func (decimal_is 999)) empty_world =
  Done ((VError "not found: gone", VUndefined),
        {| heap := []; log := [EvIndex; EvRead (VStr "foo"); EvRead (VStr "gone")] |}).
Proof.
  assert (reads flaky_collection [VStr "foo"] [example_item "FOO" 123]) as Hreads
    by (by repeat constructor).
  assert (Forall (fun y => truthy (decimal_is 999 y) = false) [example_item "FOO" 123])
    as Hnone by (by repeat constructor).
  split; [reflexivity|]. split; [exact Hreads|]. split; [reflexivity|].
  split; [exact Hnone|].
  apply (findOne_reports_the_error_before_a_match flaky_collection
           Modelled.ConditionOp_parser Modelled.ProjectionOp_parser
           (Func (decimal_is 999)) (decimal_is 999) VNull
           [VStr "foo"] (VStr "gone") [VStr "qux"] [example_item "FOO" 123]
           6 empty_world).
  - reflexivity.
  - reflexivity.
  - reflexivity.
  - reflexivity.
  - exact Hreads.
  - reflexivity.
  - exact Hnone.
  - cbn. lia.
Defined.

Lemma count_without_condition_counts_the_keys_example :
  truthy_arg (absent : jsarg predicate) = false /\
  collection_index flaky_collection =
    (VNull, Some [VStr "foo"; VStr "gone"; VStr "qux"]) /\
  truthy (fst (collection_read flaky_collection (VStr "gone"))) = true /\
  count flaky_collection Modelled.ConditionOp_parser Modelled.ProjectionOp_parser 1
        absent empty_world =
  Done ((VNull, VNum 3),
        {| heap := [[VStr "foo"; VStr "gone"; VStr "qux"];
                    [VStr "foo"; VStr "gone"; VStr "qux"]];
           log := [EvIndex] |}).
Proof.
  split; [reflexivity|]. split; [reflexivity|]. split; [reflexivity|].
  apply (count_without_condition_counts_the_keys flaky_collection
           Modelled.ConditionOp_parser Modelled.ProjectionOp_parser absent VNull
           [VStr "foo"; VStr "gone"; VStr "qux"] 1 empty_world).
  - left. reflexivity.
  - reflexivity.
  - reflexivity.
Defined.

Lemma count_with_a_predicate_counts_the_matches_example :
  holds example_collection example_ids example_items /\
  exists w',
    count example_collection Modelled.ConditionOp_parser Modelled.ProjectionOp_parser 6
          (Func example_predicate) empty_world = Done ((VNull, VNum 2), w') /\
    log w' = EvIndex :: map EvRead example_ids.
Proof.
  split; [exact example_holds|].
  apply (count_with_a_predicate_counts_the_matches example_collection
           Modelled.ConditionOp_parser Modelled.ProjectionOp_parser
           (Func example_predicate) example_predicate example_ids example_items
           6 empty_world).
  - reflexivity.
  - reflexivity.
  - exact example_holds.
  - cbn. lia.
Defined.

Lemma projection_maps_what_the_condition_selects_example :
  holds example_collection example_ids example_items /\
  Forall (fun x => truthy (example_predicate x) = true ->
                   truthy (example_projection x) = true) example_items /\
  exists l c' w',
    Cursor_toArray example_collection 7
      (example_find (Func example_predicate) (Func example_projection)) empty_world =
      Done (VNull, Some l, c', w') /\
    array_elements w' l = [VObj [("string", VStr "FOO")]; VObj [("string", VStr "QUX")]] /\
    log w' = EvIndex :: map EvRead example_ids.
Proof.
  assert (Forall (fun x => truthy (example_predicate x) = true ->
                           truthy (example_projection x) = true) example_items)
    as Himages by (by repeat constructor).
  split; [exact example_holds|]. split; [exact Himages|].
  apply (projection_maps_what_the_condition_selects example_collection
           Modelled.ConditionOp_parser Modelled.ProjectionOp_parser
           (Func example_predicate) example_predicate
           (Func example_projection) example_projection
           example_ids example_items 7 empty_world).
  - reflexivity.
  - reflexivity.
  - reflexivity.
  - reflexivity.
  - exact example_holds.
  - exact Himages.
  - cbn. lia.
Defined.

Lemma projection_falsy_image_ends_the_list_example :
  collection_index zero_collection =
    (VNull, Some ([VStr "foo"] ++ VStr "nil" :: [VStr "qux"])) /\
  reads zero_collection [VStr "foo"] [example_item "FOO" 123] /\
  reads zero_collection [VStr "nil"] [example_item "NIL" 0] /\
  truthy (example_decimal (example_item "NIL" 0)) = false /\
  exists l c' w',
    Cursor_toArray zero_collection 6 (example_find absent (Func example_decimal))
      empty_world = Done (VNull, Some l, c', w') /\
    array_elements w' l = [VNum 123] /\
    log w' = [EvIndex; EvRead (VStr "foo"); EvRead (VStr "nil")].
Proof.
  assert (reads zero_collection [VStr "foo"] [example_item "FOO" 123]) as Hreads
    by (by repeat constructor).
  assert (reads zero_collection [VStr "nil"] [example_item "NIL" 0]) as Hread
    by (by repeat constructor).
  split; [reflexivity|]. split; [exact Hreads|]. split; [exact Hread|].
  split; [reflexivity|].
  apply (projection_falsy_image_ends_the_list zero_collection
           Modelled.ConditionOp_parser Modelled.ProjectionOp_parser
           (Func example_decimal) example_decimal VNull
           [VStr "foo"] (VStr "nil") [VStr "qux"] [example_item "FOO" 123]
           (example_item "NIL" 0) 6 empty_world).
  - reflexivity.
  - reflexivity.
  - reflexivity.
  - reflexivity.
  - exact Hreads.
  - exact Hread.
  - by repeat constructor.
  - reflexivity.
  - cbn. lia.
Defined.

Lemma limit_not_positive_asks_nothing_example :
  (0 <= 0)%Z /\
  safe_integer 0 /\
  _toArray (example_find absent absent) = None /\
  Cursor_toArray example_collection 1 (Cursor_limit 0 (example_find absent absent))
    empty_world =
  Done (VNull, Some 1,
        {| source := Limit (Source None) 0 (-1); _index := None; _toArray := Some 0 |},
        {| heap := [[]; []]; log := [] |}).
Proof.
  split; [lia|]. split; [split; reflexivity|]. split; [reflexivity|].
  apply (limit_not_positive_asks_nothing example_collection 0 1
           (example_find absent absent) empty_world).
  - lia.
  - split; reflexivity.
  - reflexivity.
  - lia.
Defined.

Lemma limit_and_offset_apply_in_chaining_order_example :
  holds example_collection example_ids example_items /\
  (exists l c' w',
     Cursor_toArray example_collection 7
       (Cursor_limit 2 (Cursor_offset 1 (example_find absent absent))) empty_world =
       Done (VNull, Some l, c', w') /\
     array_elements w' l = [example_item "BAR" 111; example_item "BAZ" 999]) /\
  (exists l c' w',
     Cursor_toArray example_collection 7
       (Cursor_offset 1 (Cursor_limit 2 (example_find absent absent))) empty_world =
       Done (VNull, Some l, c', w') /\
     array_elements w' l = [example_item "BAR" 111]).
Proof.
  split; [exact example_holds|].
  apply (limit_and_offset_apply_in_chaining_order example_collection
           Modelled.ConditionOp_parser Modelled.ProjectionOp_parser
           example_ids example_items 1 2 7 empty_world).
  - exact example_holds.
  - cbn. lia.
Defined.

Lemma WebapiMethods_find_limits_then_skips_then_sorts_example :
  let page := [example_item "BAR" 111; example_item "BAZ" 999] in
  holds example_collection example_ids example_items /\
  truthy_arg (Data (VObj example_descending) : jsarg comparator) = true /\
  drop (Z.to_nat 1) (take (Z.to_nat 3) example_items) = page /\
  consistent (Modelled.SortOp_parser (Data (VObj example_descending))) page /\
  exists l w',
    WebapiMethods_find example_collection Modelled.ConditionOp_parser
      Modelled.ProjectionOp_parser Modelled.SortOp_parser 8 example_params empty_world =
      Done (SendData l, w') /\
    array_elements w' l = [example_item "BAZ" 999; example_item "BAR" 111].
Proof.
  intros page.
  assert (consistent (Modelled.SortOp_parser (Data (VObj example_descending))) page)
    as Hcmp
    by (apply (compare_fields_consistent example_kinds example_descending page);
        by repeat constructor).
  split; [exact example_holds|]. split; [reflexivity|]. split; [reflexivity|].
  split; [exact Hcmp|].
  destruct (proj1 (WebapiMethods_find_limits_then_skips_then_sorts example_collection
                     Modelled.ConditionOp_parser Modelled.ProjectionOp_parser
                     Modelled.SortOp_parser example_ids example_items 3 1
                     (Data (VObj example_descending)) 8 empty_world
                     example_holds ltac:(lia) ltac:(lia) eq_refl Hcmp ltac:(cbn; lia)))
    as (l & w' & Hrun & Hdata & _).
  exists l, w'. split; [exact Hrun|exact Hdata].
Defined.

Lemma WebapiMethods_count_sends_the_number_of_keys_example :
  truthy_arg (params_condition example_params) = false /\
  collection_index example_collection = (VNull, Some example_ids) /\
  WebapiMethods_count example_collection Modelled.ConditionOp_parser
    Modelled.ProjectionOp_parser 1 example_params empty_world =
  Done (SendCount (VNum 4),
        {| heap := [example_ids; example_ids]; log := [EvIndex] |}).
Proof.
  split; [reflexivity|]. split; [reflexivity|].
  apply (proj2 (WebapiMethods_count_sends_the_number_of_keys example_collection
                  Modelled.ConditionOp_parser Modelled.ProjectionOp_parser
                  example_params VNull (Some example_ids) 1 empty_world
                  eq_refl eq_refl) example_ids).
  - reflexivity.
  - reflexivity.
Defined.

Lemma toArray_resumes_behind_the_failed_key_example :
  collection_index flaky_collection =
    (VNull, Some ([VStr "foo"] ++ VStr "gone" :: [VStr "qux"])) /\
  reads flaky_collection [VStr "foo"] [example_item "FOO" 123] /\
  truthy (fst (collection_read flaky_collection (VStr "gone"))) = true /\
  reads flaky_collection [VStr "qux"] [example_item "QUX" 123] /\
  exists c1 w1 l c2 w2,
    Cursor_toArray flaky_collection 6 (example_find absent absent) empty_world =
      Done (VError "not found: gone", None, c1, w1) /\
    _toArray c1 = None /\
    Cursor_toArray flaky_collection 6 c1 w1 = Done (VNull, Some l, c2, w2) /\
    array_elements w2 l = [example_item "QUX" 123] /\
    log w2 = [EvIndex; EvRead (VStr "foo"); EvRead (VStr "gone"); EvRead (VStr "qux")] /\
    forall fuel', exists l' w3,
      Cursor_toArray flaky_collection fuel' c2 w2 = Done (VNull, Some l', c2, w3) /\
      array_elements w3 l' = [example_item "QUX" 123] /\
      log w3 = log w2.
Proof.
  assert (reads flaky_collection [VStr "foo"] [example_item "FOO" 123]) as Hreads1
    by (by repeat constructor).
  assert (reads flaky_collection [VStr "qux"] [example_item "QUX" 123]) as Hreads2
    by (by repeat constructor).
  split; [reflexivity|]. split; [exact Hreads1|]. split; [reflexivity|].
  split; [exact Hreads2|].
  apply (toArray_resumes_behind_the_failed_key flaky_collection
           Modelled.ConditionOp_parser Modelled.ProjectionOp_parser VNull
           [VStr "foo"] [example_item "FOO" 123] (VStr "gone")
           [VStr "qux"] [example_item "QUX" 123] 6 empty_world).
  - reflexivity.
  - reflexivity.
  - exact Hreads1.
  - reflexivity.
  - exact Hreads2.
  - cbn. lia.
Defined.

Lemma toArray_after_requests_hands_over_the_rest_example :
  collection_index example_collection =
    (VNull, Some ([VStr "foo"; VStr "bar"] ++ [VStr "baz"; VStr "qux"])) /\
  reads example_collection [VStr "foo"; VStr "bar"]
        [example_item "FOO" 123; example_item "BAR" 111] /\
  reads example_collection [VStr "baz"; VStr "qux"]
        [example_item "BAZ" 999; example_item "QUX" 123] /\
  exists rs c1 w1 l c2 w2 c3 w3,
    Cursor_nextObjects example_collection 6 2 (example_find absent absent) empty_world =
      Done (rs, c1, w1) /\
    map snd rs = [example_item "FOO" 123; example_item "BAR" 111] /\
    Cursor_toArray example_collection 6 c1 w1 = Done (VNull, Some l, c2, w2) /\
    array_elements w2 l = [example_item "BAZ" 999; example_item "QUX" 123] /\
    Cursor_count example_collection 6 c2 w2 = Done ((VNull, VNum 4), c3, w3).
Proof.
  assert (reads example_collection [VStr "foo"; VStr "bar"]
            [example_item "FOO" 123; example_item "BAR" 111]) as Hreads1
    by (by repeat constructor).
  assert (reads example_collection [VStr "baz"; VStr "qux"]
            [example_item "BAZ" 999; example_item "QUX" 123]) as Hreads2
    by (by repeat constructor).
  split; [reflexivity|]. split; [exact Hreads1|]. split; [exact Hreads2|].
  apply (toArray_after_requests_hands_over_the_rest example_collection
           Modelled.ConditionOp_parser Modelled.ProjectionOp_parser VNull
           [VStr "foo"; VStr "bar"] [example_item "FOO" 123; example_item "BAR" 111]
           [VStr "baz"; VStr "qux"] [example_item "BAZ" 999; example_item "QUX" 123]
           6 empty_world).
  - reflexivity.
  - reflexivity.
  - exact Hreads1.
  - exact Hreads2.
  - cbn. lia.
Defined.

Lemma count_after_toArray_reuses_the_list_example :
  let self := Cursor_limit 2 (example_find absent absent) in
  is_original_Source (source self) = false /\
  cursor_wf self empty_world /\
  exists l c1 w1,
    Cursor_toArray example_collection 6 self empty_world = Done (VNull, Some l, c1, w1) /\
    array_elements w1 l = [example_item "FOO" 123; example_item "BAR" 111] /\
    exists w2,
      Cursor_count example_collection 0 c1 w1 = Done ((VNull, VNum 2), c1, w2) /\
      log w2 = log w1.
Proof.
  intros self.
  assert (cursor_wf self empty_world) as Hwf by by split.
  split; [reflexivity|]. split; [exact Hwf|].
  do 3 eexists. split; [reflexivity|]. split; [reflexivity|].
  apply (count_after_toArray_reuses_the_list example_collection 6 0 self empty_world
           VNull _ _ _ eq_refl Hwf eq_refl).
Defined.

Lemma Sort_drops_what_it_read_before_an_error_example :
  let cmp := compare_fields example_order in
  let t1 := [EvIndex; EvRead (VStr "foo"); EvRead (VStr "gone")] in
  let t2 := t1 ++ [EvRead (VStr "baz"); EvRead (VStr "bar")] in
  let behind := [example_item "BAZ" 999; example_item "BAR" 111] in
  streams (nextObject torn_collection 6) (Source None) []
          [example_item "FOO" 123] (Fails (VError "not found: gone"))
          (Source (Some [VStr "baz"; VStr "bar"])) t1 /\
  streams (nextObject torn_collection 6) (Source (Some [VStr "baz"; VStr "bar"])) t1
          behind Ends (Source (Some [])) t2 /\
  consistent cmp behind /\
  nextObject torn_collection 7 (Sort (Source None) cmp None) [] =
    Done ((VError "not found: gone", VUndefined),
          Sort (Source (Some [VStr "baz"; VStr "bar"])) cmp None, t1) /\
  streams (nextObject torn_collection 7)
          (Sort (Source (Some [VStr "baz"; VStr "bar"])) cmp None) t1
          [example_item "BAR" 111; example_item "BAZ" 999] Ends
          (Sort (Source (Some [])) cmp (Some [])) t2.
Proof.
  intros cmp t1 t2 behind.
  assert (streams (nextObject torn_collection 6) (Source None) []
            [example_item "FOO" 123] (Fails (VError "not found: gone"))
            (Source (Some [VStr "baz"; VStr "bar"])) t1) as Hfail.
  { apply (Source_fresh_streams torn_collection VNull
             [VStr "foo"; VStr "gone"; VStr "baz"; VStr "bar"]); [reflexivity..|].
    apply (Source_fails torn_collection [VStr "foo"] [example_item "FOO" 123]
             (VStr "gone") [VStr "baz"; VStr "bar"] 6 [EvIndex]);
      [by repeat constructor|reflexivity|lia]. }
  assert (streams (nextObject torn_collection 6) (Source (Some [VStr "baz"; VStr "bar"]))
            t1 behind Ends (Source (Some [])) t2) as Hrest.
  { apply (Source_streams torn_collection [VStr "baz"; VStr "bar"] behind);
      [by repeat constructor|lia]. }
  assert (consistent cmp behind) as Hcmp
    by (apply (compare_fields_consistent example_kinds example_order behind);
        by repeat constructor).
  split; [exact Hfail|]. split; [exact Hrest|]. split; [exact Hcmp|].
  destruct (Sort_drops_what_it_read_before_an_error torn_collection 6 cmp _ _ _ _ _ _ _ _ _
              Hfail Hrest Hcmp) as (Herror & Hsorted & _); [cbn; lia..|].
  split; [exact Herror|exact Hsorted].
Defined.
